(** * DeepWukong slicing engine: [src/data_generator.py]

    A shallow embedding of the program-slicing core of the data generator
    (the tabular loader [read_csv], the line resolver [extract_line_number],
    [extract_nodes_with_location_info], the dependence-graph constructor
    [build_PDG] and the slice extractor [build_XFG]) together with the
    properties the design document states about them.

    Modelling conventions.
    - Python [str] is [string]; a character is a code point below 256.
    - Python [int] is [Z].
    - A row of a table (a [dict] from column name to text) is a
      [gmap string string]; a Python [set] of ints is a [gset Z].
    - The file system is a finite map from paths to the text of the file
      stored there; [exists] is membership in that map.
    - Exceptions are values of [exn] carried by the [result] monad.
    - A [networkx.DiGraph] is a record of its node table and its two
      adjacency tables ([_succ], [_pred]), each a finite map keyed by line.
    - Iterating a set or the keys of a dictionary follows [elements] and
      [map_to_list]; Python's own order (hash order, insertion order) is not
      modelled. It decides the order of the slices in a category and of the
      queue of a traversal, not the sets of lines and edges they produce.
    - [print] calls are not modelled (they do not influence any result). *)

From Stdlib Require Import ZArith Ascii String List.
From stdpp Require Import base tactics option list gmap strings fin_maps fin_sets.

#[local] Set Warnings "-clear-no-such-hyp".

Local Open Scope string_scope.
Local Open Scope list_scope.
Local Open Scope Z_scope.

(** ** Exceptions and the result monad *)

Inductive exn : Set :=
| AssertionError
| FileNotFoundError
| KeyError
| IndexError
| ValueError.

(** [Diverge] is the outcome of a loop model whose budget of rounds ran
    out; [traverse_from_terminates] below shows that the budget the slice
    extractor gives its traversals always suffices. *)
Inductive result (A : Type) : Type :=
| Ok (a : A)
| Raise (e : exn)
| Diverge.

Arguments Ok {A} a.
Arguments Raise {A} e.
Arguments Diverge {A}.

#[global] Instance result_ret : MRet result := fun A a => Ok a.
#[global] Instance result_bind : MBind result := fun A B f m =>
  match m with
  | Ok a => f a
  | Raise e => Raise e
  | Diverge => Diverge
  end.

Definition assert (b : bool) : result unit :=
  if b then Ok tt else Raise AssertionError.

(** ** Python string primitives *)

Module PyStr.

Definition TAB : ascii := "009"%char.
Definition LF : ascii := "010"%char.
Definition CR : ascii := "013"%char.

(** [str.isspace] on code points below 256. *)
Definition is_space (c : ascii) : bool :=
  let n := N_of_ascii c in
  ((9 <=? n) && (n <=? 13) || (28 <=? n) && (n <=? 32)
   || (n =? 133) || (n =? 160))%N.

Definition is_digit (c : ascii) : bool :=
  let n := N_of_ascii c in ((48 <=? n) && (n <=? 57))%N.

Fixpoint lstrip (s : string) : string :=
  match s with
  | EmptyString => EmptyString
  | String c s' => if is_space c then lstrip s' else s
  end.

Fixpoint rstrip (s : string) : string :=
  match s with
  | EmptyString => EmptyString
  | String c s' =>
      match rstrip s' with
      | EmptyString => if is_space c then EmptyString else String c EmptyString
      | r => String c r
      end
  end.

(** [s.strip()] *)
Definition strip (s : string) : string := lstrip (rstrip s).

(** [s.split(sep)] for a one-character separator: never empty. *)
Fixpoint split (sep : ascii) (s : string) : list string :=
  match s with
  | EmptyString => [EmptyString]
  | String c s' =>
      if Ascii.eqb c sep then EmptyString :: split sep s'
      else match split sep s' with
           | [] => [String c EmptyString]
           | p :: ps => String c p :: ps
           end
  end.

(** Text-mode reading translates "\r\n" and a lone "\r" into "\n". *)
Fixpoint universal_newlines (s : string) : string :=
  match s with
  | EmptyString => EmptyString
  | String c s' =>
      if Ascii.eqb c CR then
        match s' with
        | String c' s'' =>
            if Ascii.eqb c' LF then String LF (universal_newlines s'')
            else String LF (universal_newlines s')
        | EmptyString => String LF EmptyString
        end
      else String c (universal_newlines s')
  end.

(** The lines a text file object yields, each with its terminator. *)
Fixpoint readlines (s : string) : list string :=
  match s with
  | EmptyString => []
  | String c s' =>
      if Ascii.eqb c LF then String LF EmptyString :: readlines s'
      else match readlines s' with
           | [] => [String c EmptyString]
           | l :: ls => String c l :: ls
           end
  end.

(** Digits with single underscores between them, as [int] accepts;
    [acc] is the value read so far, [prev] tells whether the previous
    character was a digit. *)
Fixpoint digits_value (s : string) (prev : bool) (acc : Z) : option Z :=
  match s with
  | EmptyString => if prev then Some acc else None
  | String c s' =>
      if is_digit c
      then digits_value s' true (10 * acc + (Z.of_N (N_of_ascii c) - 48))
      else if Ascii.eqb c "_"%char
           then if prev then digits_value s' false acc else None
           else None
  end.

(** The white space [int] skips around a number: [str.isspace] without the
    separators U+001C to U+001F, which [int] rejects. *)
Definition is_int_space (c : ascii) : bool :=
  let n := N_of_ascii c in
  ((9 <=? n) && (n <=? 13) || (n =? 32) || (n =? 133) || (n =? 160))%N.

Fixpoint int_lstrip (s : string) : string :=
  match s with
  | EmptyString => EmptyString
  | String c s' => if is_int_space c then int_lstrip s' else s
  end.

Fixpoint int_rstrip (s : string) : string :=
  match s with
  | EmptyString => EmptyString
  | String c s' =>
      match int_rstrip s' with
      | EmptyString => if is_int_space c then EmptyString else String c EmptyString
      | r => String c r
      end
  end.

(** [int(s)]: [None] stands for [ValueError].  The interpreter's limit on
    the number of digits is not modelled. *)
Definition int (s : string) : option Z :=
  match int_lstrip (int_rstrip s) with
  | EmptyString => None
  | String c body =>
      if Ascii.eqb c "-"%char then Z.opp <$> digits_value body false 0
      else if Ascii.eqb c "+"%char then digits_value body false 0
      else digits_value (String c body) false 0
  end.

End PyStr.

(** ** Files *)

Abbreviation filesystem := (gmap string string).
Abbreviation row := (gmap string string).

(** [os.path.exists] *)
Definition path_exists (fs : filesystem) (p : string) : bool :=
  bool_decide (is_Some (fs !! p)).

(** [open(p).read()] in text mode *)
Definition read_text (fs : filesystem) (p : string) : result string :=
  match fs !! p with
  | Some s => Ok (PyStr.universal_newlines s)
  | None => Raise FileNotFoundError
  end.

(** [os.path.join(a, b)] *)
Fixpoint last_char (s : string) : option ascii :=
  match s with
  | EmptyString => None
  | String c EmptyString => Some c
  | String _ s' => last_char s'
  end.

Definition join (a b : string) : string :=
  match b with
  | String "/" _ => b
  | _ => match last_char a with
         | None => b
         | Some c => if Ascii.eqb c "/" then (a ++ b)%string
                     else (a ++ "/" ++ b)%string
         end
  end.

(** ** Tabular record loader *)

(** One data row: the cells of the stripped line, matched with the header
    names by position; a missing trailing cell reads as the empty text. *)
Definition read_row (h_parts : list string) (line : string) : row :=
  let line := PyStr.strip line in
  let lparts := PyStr.split PyStr.TAB line in
  foldl (fun (instance : row) '(i, hp) =>
           let content := match lparts !! i with
                          | Some cell => PyStr.strip cell
                          | None => EmptyString
                          end in
           <[hp := content]> instance)
        ∅ (imap (fun i hp => (i, hp)) h_parts).

Definition read_csv (fs : filesystem) (csv_file_path : string) : result (list row) :=
  _ ← assert (path_exists fs csv_file_path);
  text ← read_text fs csv_file_path;
  let lines := PyStr.readlines text in
  let header := PyStr.strip (hd EmptyString lines) in
  let h_parts := PyStr.strip <$> PyStr.split PyStr.TAB header in
  Ok (read_row h_parts <$> tl lines).

(** ** Dictionary and list access *)

(** [d[k]] on a dict *)
Definition getitem {V} (d : gmap string V) (k : string) : result V :=
  match d !! k with
  | Some v => Ok v
  | None => Raise KeyError
  end.

(** [l[i]] on a list, for a non-negative [i] *)
Definition index {A} (l : list A) (i : nat) : result A :=
  match l !! i with
  | Some a => Ok a
  | None => Raise IndexError
  end.

(** A [for] loop whose body may raise. *)
Fixpoint foldlM {A B} (f : B → A → result B) (b : B) (l : list A) : result B :=
  match l with
  | [] => Ok b
  | a :: l' => b' ← f b a; foldlM f b' l'
  end.

(** [enumerate(l)] *)
Definition enumerate {A} (l : list A) : list (nat * A) := imap (fun i a => (i, a)) l.

(** ** Line resolution *)

(** [location.split(':')[0]] *)
Definition line_part (location : string) : string :=
  hd EmptyString (PyStr.split ":" location).

(** The line a node states for itself, as the body of the loop of
    [extract_line_number] reads it: [None] when the location is absent,
    blank, or its line part is rejected by [int] (the [except] branch). *)
Definition own_line (c_node : row) : option Z :=
  match c_node !! "location" with
  | Some location =>
      if bool_decide (PyStr.strip location ≠ EmptyString)
      then PyStr.int (line_part location) else None
  | None => None
  end.

(** The [while idx >= 0] loop, entered with [idx] a natural number. *)
Fixpoint extract_line_number_from (idx : nat) (nodes : list row) : result Z :=
  c_node ← index nodes idx;
  match own_line c_node with
  | Some ln => Ok ln
  | None => match idx with
            | O => Ok (-1)
            | S idx' => extract_line_number_from idx' nodes
            end
  end.

Definition extract_line_number (idx : Z) (nodes : list row) : result Z :=
  if idx <? 0 then Ok (-1) else extract_line_number_from (Z.to_nat idx) nodes.

(** ** Nodes with location information *)

Record location_info := {
  node_indices : list nat;
  node_ids : list string;
  line_numbers : list Z;
  node_id_to_line_number : gmap string Z
}.

Definition location_info_step (acc : location_info) (e : nat * row) : result location_info :=
  let '(node_index, node) := e in
  match node !! "location" with
  | Some location =>
      if bool_decide (location = EmptyString) then Ok acc
      else
        line_num ← match PyStr.int (line_part location) with
                    | Some n => Ok n
                    | None => Raise ValueError
                    end;
        key ← getitem node "key";
        let node_id := PyStr.strip key in
        Ok {| node_indices := node_indices acc ++ [node_index];
              node_ids := node_ids acc ++ [node_id];
              line_numbers := line_numbers acc ++ [line_num];
              node_id_to_line_number := <[node_id := line_num]> (node_id_to_line_number acc) |}
  | None => Ok acc
  end.

Definition extract_nodes_with_location_info (nodes : list row) : result location_info :=
  foldlM location_info_step
         {| node_indices := []; node_ids := []; line_numbers := [];
            node_id_to_line_number := ∅ |}
         (enumerate nodes).

(** ** Directed graphs (the part of [networkx.DiGraph] the program uses) *)

Abbreviation attrs := (gmap string string).
Abbreviation adjacency := (gmap Z (gmap Z (gmap string string))).

(** The graph attributes [file_paths] and [key_line], the node table and
    the two adjacency tables, keyed by line number. *)
Record DiGraph := {
  file_paths : list string;
  key_line : option Z;
  _node : gmap Z attrs;
  _succ : adjacency;
  _pred : adjacency
}.

(** [nx.DiGraph(file_paths=fp)] *)
Definition new_DiGraph (fp : list string) : DiGraph :=
  {| file_paths := fp; key_line := None; _node := ∅; _succ := ∅; _pred := ∅ |}.

Definition ensure_node (u : Z) (G : DiGraph) : DiGraph :=
  match _succ G !! u with
  | Some _ => G
  | None => {| file_paths := file_paths G; key_line := key_line G;
               _node := <[u := ∅]> (_node G);
               _succ := <[u := ∅]> (_succ G);
               _pred := <[u := ∅]> (_pred G) |}
  end.

Abbreviation edge := (Z * Z * gmap string string)%type.

(** One round of the loop of [add_edges_from]: both end points become
    nodes, and the data of an edge already there is updated, not doubled. *)
Definition add_edge (G : DiGraph) (e : edge) : DiGraph :=
  let '(u, v, dd) := e in
  let G := ensure_node v (ensure_node u G) in
  let datadict := dd ∪ default ∅ (_succ G !! u ≫= lookup v) in
  {| file_paths := file_paths G; key_line := key_line G;
     _node := _node G;
     _succ := <[u := <[v := datadict]> (default ∅ (_succ G !! u))]> (_succ G);
     _pred := <[v := <[u := datadict]> (default ∅ (_pred G !! v))]> (_pred G) |}.

Definition add_edges_from (G : DiGraph) (ebunch : list edge) : DiGraph :=
  foldl add_edge G ebunch.

(** [G.nodes] as a set and [G.edges(data=True)] as a list *)
Definition nodes_of (G : DiGraph) : gset Z := dom (_node G).

Definition edges_of (G : DiGraph) : list edge :=
  '(u, nbrs) ← map_to_list (_succ G);
  '(v, dd) ← map_to_list nbrs;
  [(u, v, dd)].

Definition induced (keep : gset Z) (adj : adjacency) : adjacency :=
  filter (fun kv => kv.1 ∈ keep) <$> filter (fun kv => kv.1 ∈ keep) adj.

(** [G.subgraph(nodes).copy()]: the members of [nodes] that are nodes of
    [G], with the edges of [G] between them; members of [nodes] that are
    not in [G] are passed over. *)
Definition subgraph_copy (G : DiGraph) (nodes : list Z) : DiGraph :=
  let keep : gset Z := filter (fun n => n ∈ dom (_succ G)) (list_to_set nodes) in
  {| file_paths := file_paths G; key_line := key_line G;
     _node := filter (fun kv => kv.1 ∈ keep) (_node G);
     _succ := induced keep (_succ G);
     _pred := induced keep (_pred G) |}.

Definition set_key_line (ln : Z) (G : DiGraph) : DiGraph :=
  {| file_paths := file_paths G; key_line := Some ln;
     _node := _node G; _succ := _succ G; _pred := _pred G |}.


(** ** Dependence graph constructor *)

Record key_lines := {
  call_lines : gset Z;
  array_lines : gset Z;
  ptr_lines : gset Z;
  arithmatic_lines : gset Z
}.

Abbreviation key_line_map := (gmap string (gset Z)).

Definition arith_operators : list string := ["+"; "-"; "*"; "/"].

(** The body of the classification loop of [build_PDG]. *)
Definition classify_step (nodes : list row) (sensi_api_set : gset string)
    (acc : key_lines) (e : nat * row) : result key_lines :=
  let '(node_idx, node) := e in
  ty ← getitem node "type";
  let ntype := PyStr.strip ty in
  if bool_decide (ntype = "CallExpression") then
    next ← index nodes (node_idx + 1);
    function_name ← getitem next "code";
    if bool_decide (PyStr.strip function_name = EmptyString) then Ok acc
    else if bool_decide (PyStr.strip function_name ∈ sensi_api_set) then
      line_no ← extract_line_number (Z.of_nat node_idx) nodes;
      if line_no >? 0 then
        Ok {| call_lines := {[line_no]} ∪ call_lines acc;
              array_lines := array_lines acc;
              ptr_lines := ptr_lines acc;
              arithmatic_lines := arithmatic_lines acc |}
      else Ok acc
    else Ok acc
  else if bool_decide (ntype = "ArrayIndexing") then
    line_no ← extract_line_number (Z.of_nat node_idx) nodes;
    if line_no >? 0 then
      Ok {| call_lines := call_lines acc;
            array_lines := {[line_no]} ∪ array_lines acc;
            ptr_lines := ptr_lines acc;
            arithmatic_lines := arithmatic_lines acc |}
    else Ok acc
  else if bool_decide (ntype = "PtrMemberAccess") then
    line_no ← extract_line_number (Z.of_nat node_idx) nodes;
    if line_no >? 0 then
      Ok {| call_lines := call_lines acc;
            array_lines := array_lines acc;
            ptr_lines := {[line_no]} ∪ ptr_lines acc;
            arithmatic_lines := arithmatic_lines acc |}
    else Ok acc
  else
    operator ← getitem node "operator";
    if bool_decide (PyStr.strip operator ∈ arith_operators) then
      line_no ← extract_line_number (Z.of_nat node_idx) nodes;
      if line_no >? 0 then
        Ok {| call_lines := call_lines acc;
              array_lines := array_lines acc;
              ptr_lines := ptr_lines acc;
              arithmatic_lines := {[line_no]} ∪ arithmatic_lines acc |}
      else Ok acc
    else Ok acc.

Definition control_tag : attrs := {[ "c/d" := "c" ]}.
Definition data_tag : attrs := {[ "c/d" := "d" ]}.

(** The body of the edge loop of [build_PDG]; the state is the pair
    [(control_edges, data_edges)]. *)
Definition edge_step (node_id_to_ln : gmap string Z)
    (acc : list edge * list edge) (e : row) : result (list edge * list edge) :=
  let '(control_edges, data_edges) := acc in
  ty ← getitem e "type";
  let edge_type := PyStr.strip ty in
  start ← getitem e "start";
  let start_node_id := PyStr.strip start in
  end_ ← getitem e "end";
  let end_node_id := PyStr.strip end_ in
  match node_id_to_ln !! start_node_id, node_id_to_ln !! end_node_id with
  | Some start_ln, Some end_ln =>
      let control_edges :=
        if bool_decide (edge_type = "CONTROLS")
        then (control_edges ++ [(start_ln, end_ln, control_tag)])%list
        else control_edges in
      let data_edges :=
        if bool_decide (edge_type = "REACHES")
        then (data_edges ++ [(start_ln, end_ln, data_tag)])%list
        else data_edges in
      Ok (control_edges, data_edges)
  | _, _ => Ok (control_edges, data_edges)
  end.

Definition no_graph : option DiGraph * option key_line_map := (None, None).

(** [build_PDG] from the two tables already loaded. *)
Definition build_PDG_tables (nodes edges : list row) (sensi_api_set : gset string)
    (source_path : string) : result (option DiGraph * option key_line_map) :=
  if bool_decide (length nodes = 0%nat) then Ok no_graph
  else
    kl ← foldlM (classify_step nodes sensi_api_set)
                {| call_lines := ∅; array_lines := ∅; ptr_lines := ∅;
                   arithmatic_lines := ∅ |}
                (enumerate nodes);
    let PDG := new_DiGraph [source_path] in
    info ← extract_nodes_with_location_info nodes;
    let node_id_to_ln := node_id_to_line_number info in
    '(control_edges, data_edges) ← foldlM (edge_step node_id_to_ln) ([], []) edges;
    let PDG := add_edges_from PDG control_edges in
    let PDG := add_edges_from PDG data_edges in
    Ok (Some PDG,
        Some ({[ "call" := call_lines kl; "array" := array_lines kl;
                 "ptr" := ptr_lines kl; "arith" := arithmatic_lines kl ]} : key_line_map)).

Definition build_PDG (fs : filesystem) (code_path sensi_api_path source_path : string)
    : result (option DiGraph * option key_line_map) :=
  let nodes_path := join code_path "nodes.csv" in
  let edges_path := join code_path "edges.csv" in
  _ ← assert (path_exists fs sensi_api_path);
  text ← read_text fs sensi_api_path;
  let sensi_api_set : gset string :=
    list_to_set (PyStr.strip <$> PyStr.split "," text) in
  if negb (path_exists fs nodes_path) || negb (path_exists fs edges_path)
  then Ok no_graph
  else
    nodes ← read_csv fs nodes_path;
    edges ← read_csv fs edges_path;
    build_PDG_tables nodes edges sensi_api_set source_path.

(** ** Bidirectional slice extractor *)

(** The inner [for] loop of a traversal: every neighbour not yet visited
    is marked and queued. *)
Definition visit (nbrs : list Z) (visited : gset Z) (queue : list Z)
    : gset Z * list Z :=
  foldl (fun '(visited, queue) n =>
           if bool_decide (n ∈ visited) then (visited, queue)
           else ({[n]} ∪ visited, (queue ++ [n])%list))
        (visited, queue) nbrs.

(** The [while queue:] loop of a traversal over the adjacency table
    [adj], run for at most [fuel] rounds. *)
Fixpoint traverse (adj : adjacency) (fuel : nat) (queue : list Z)
    (visited sliced_lines : gset Z) : result (gset Z) :=
  match queue with
  | [] => Ok sliced_lines
  | fro :: queue =>
      match fuel with
      | O => Diverge
      | S fuel =>
          let sliced_lines := {[fro]} ∪ sliced_lines in
          let '(visited, queue) :=
            match adj !! fro with
            | Some nbrs => visit (map_to_list nbrs).*1 visited queue
            | None => (visited, queue)
            end in
          traverse adj fuel queue visited sliced_lines
      end
  end.

(** Every line that occurs as a neighbour in [adj]. *)
Definition neighbours (adj : adjacency) : gset Z :=
  ⋃ (dom <$> (map_to_list adj).*2).

(** A traversal from [ln]: no more rounds than lines that can be queued. *)
Definition traverse_from (adj : adjacency) (ln : Z) (sliced_lines : gset Z)
    : result (gset Z) :=
  traverse adj (S (size (neighbours adj))) [ln] {[ln]} sliced_lines.

(** The lines of the slice of [ln]: backward pass, then forward pass. *)
Definition slice_lines (PDG : DiGraph) (ln : Z) : result (gset Z) :=
  sliced_lines ← traverse_from (_pred PDG) ln ∅;
  traverse_from (_succ PDG) ln sliced_lines.

(** The slice of one key line. *)
Definition extract_XFG (PDG : DiGraph) (ln : Z) : result (option DiGraph) :=
  sliced_lines ← slice_lines PDG ln;
  if bool_decide (size sliced_lines ≠ 0%nat)
  then Ok (Some (set_key_line ln (subgraph_copy PDG (elements sliced_lines))))
  else Ok None.

Abbreviation XFG_map := (gmap string (list DiGraph)).

Definition categories : list string := ["call"; "array"; "ptr"; "arith"].

Definition XFG_step (PDG : DiGraph) (key : string) (res : XFG_map) (ln : Z)
    : result XFG_map :=
  x ← extract_XFG PDG ln;
  match x with
  | Some XFG =>
      slices ← getitem res key;
      Ok (<[key := (slices ++ [XFG])%list]> res)
  | None => Ok res
  end.

Definition category_step (PDG : DiGraph) (klm : key_line_map) (res : XFG_map)
    (key : string) : result XFG_map :=
  lns ← getitem klm key;
  foldlM (XFG_step PDG key) res (elements lns).

(** [build_XFG]; [None] is Python's [None]. *)
Definition build_XFG (PDG : option DiGraph) (key_line_map : option key_line_map)
    : result (option XFG_map) :=
  match PDG, key_line_map with
  | Some PDG, Some klm =>
      let res : XFG_map :=
        {[ "call" := []; "array" := []; "ptr" := []; "arith" := [] ]} in
      res ← foldlM (category_step PDG klm) res categories;
      Ok (Some res)
  | _, _ => Ok None
  end.

(** ** A worked input *)

Definition tsv (rows : list (list string)) : string :=
  (String.concat (String PyStr.LF EmptyString)
                 (String.concat (String PyStr.TAB EmptyString) <$> rows)
   ++ String PyStr.LF EmptyString)%string.

Definition ex_fs : filesystem :=
  {[ "data/sensiAPI.txt" := "memcpy,strcpy, gets";
     "csv/a.c/nodes.csv" :=
       tsv [["key"; "type"; "code"; "location"; "operator"];
            ["0"; "CallExpression"; "strcpy(a, b)"; "10:5"; ""];
            ["1"; "Callee"; "strcpy"; ""; ""];
            ["2"; "ExpressionStatement"; "x = a"; "12:1"; ""]];
     "csv/a.c/edges.csv" :=
       tsv [["start"; "end"; "type"];
            ["0"; "2"; "REACHES"]] ]}.

Definition ex_nodes : list row :=
  [ {[ "key" := "0"; "type" := "CallExpression"; "code" := "strcpy(a, b)";
       "location" := "10:5"; "operator" := "" ]};
    {[ "key" := "1"; "type" := "Callee"; "code" := "strcpy";
       "location" := ""; "operator" := "" ]};
    {[ "key" := "2"; "type" := "ExpressionStatement"; "code" := "x = a";
       "location" := "12:1"; "operator" := "" ]} ].

Definition ex_edges : list row :=
  [ {[ "start" := "0"; "end" := "2"; "type" := "REACHES" ]} ].

Definition ex_PDG : DiGraph :=
  {| file_paths := ["a.c"]; key_line := None;
     _node := {[ 10 := ∅; 12 := ∅ ]};
     _succ := {[ 10 := {[ 12 := data_tag ]}; 12 := ∅ ]};
     _pred := {[ 10 := ∅; 12 := {[ 10 := data_tag ]} ]} |}.

Definition ex_klm : key_line_map :=
  {[ "call" := {[ 10 ]}; "array" := ∅; "ptr" := ∅; "arith" := ∅ ]}.

Definition ex_XFG : DiGraph := set_key_line 10 ex_PDG.

Definition call_last_nodes : list row :=
  [ {[ "key" := "0"; "type" := "CallExpression"; "code" := "gets(buf)";
       "location" := "3:1"; "operator" := "" ]} ].

(** A table whose last (and only) row is a call node. *)
Definition call_last_fs : filesystem :=
  {[ "data/sensiAPI.txt" := "memcpy,strcpy, gets";
     "csv/b.c/nodes.csv" :=
       tsv [["key"; "type"; "code"; "location"; "operator"];
            ["0"; "CallExpression"; "gets(buf)"; "3:1"; ""]];
     "csv/b.c/edges.csv" := tsv [["start"; "end"; "type"]] ]}.

(** A table with a location that is not [line:column]. *)
Definition malformed_fs : filesystem :=
  {[ "data/sensiAPI.txt" := "memcpy,strcpy, gets";
     "csv/c.c/nodes.csv" :=
       tsv [["key"; "type"; "code"; "location"; "operator"];
            ["0"; "ArrayIndexing"; "a[i]"; "abc"; ""]];
     "csv/c.c/edges.csv" := tsv [["start"; "end"; "type"]] ]}.

Definition malformed_nodes : list row :=
  [ {[ "key" := "0"; "type" := "ArrayIndexing"; "code" := "a[i]";
       "location" := "abc"; "operator" := "" ]} ].

(** A key line that no dependence edge touches. *)
Definition isolated_fs : filesystem :=
  {[ "data/sensiAPI.txt" := "memcpy,strcpy, gets";
     "csv/d.c/nodes.csv" :=
       tsv [["key"; "type"; "code"; "location"; "operator"];
            ["0"; "ArrayIndexing"; "a[i]"; "10:5"; ""]];
     "csv/d.c/edges.csv" := tsv [["start"; "end"; "type"]] ]}.

(** Only the sensitive-API list, no tables. *)
Definition no_tables_fs : filesystem :=
  {[ "data/sensiAPI.txt" := "memcpy,strcpy, gets" ]}.

(** A node without a location after a node with one. *)
Definition fallback_nodes : list row :=
  [ {[ "key" := "0"; "type" := "CallExpression"; "location" := "10:5" ]};
    {[ "key" := "1"; "type" := "Callee"; "location" := "" ]} ].

(** ** Statements of the design document, as predicates *)

(** The resolution rule in the document's words: the line of node [i] is
    the own line of the nearest node at or before [i] that states one. *)
Definition resolves (nodes : list row) (i : nat) (ln : Z) : Prop :=
  ∃ j, (j ≤ i)%nat ∧ nodes !! j ≫= own_line = Some ln ∧
       ∀ k, (j < k ≤ i)%nat → nodes !! k ≫= own_line = None.

(** "[node_id_to_line] maps every node identifier that has a resolvable
    location to its line number." *)
Definition node_id_to_line_complete (nodes : list row) : Prop :=
  ∃ info, extract_nodes_with_location_info nodes = Ok info ∧
    ∀ i node key ln,
      nodes !! i = Some node → node !! "key" = Some key →
      resolves nodes i ln →
      node_id_to_line_number info !! PyStr.strip key = Some ln.

(** What one row of the edge table resolves to: its kind and the two lines. *)
Definition edge_resolves (node_id_to_ln : gmap string Z) (e : row)
    : option (string * Z * Z) :=
  ty ← e !! "type";
  start ← e !! "start";
  end_ ← e !! "end";
  start_ln ← node_id_to_ln !! PyStr.strip start;
  end_ln ← node_id_to_ln !! PyStr.strip end_;
  Some (PyStr.strip ty, start_ln, end_ln).

(** The data of the edge from [u] to [v], if there is one. *)
Definition edge_data (G : DiGraph) (u v : Z) : option attrs :=
  _succ G !! u ≫= lookup v.

Definition edge_pairs (G : DiGraph) : list (Z * Z) :=
  (fun e : edge => (e.1.1, e.1.2)) <$> edges_of G.

(** No dependence edge starts or ends at [ln]. *)
Definition untouched (G : DiGraph) (ln : Z) : Prop :=
  ∀ u v dd, (u, v, dd) ∈ edges_of G → u ≠ ln ∧ v ≠ ln.

(** "The key line is always a member of its own slice's vertex set; a key
    line with no dependence edges yields a single-line slice." *)
Definition slice_contains_key_line (fs : filesystem)
    (code_path sensi_api_path source_path : string) : Prop :=
  ∀ PDG klm key lns ln,
    build_PDG fs code_path sensi_api_path source_path = Ok (Some PDG, Some klm) →
    key ∈ categories → klm !! key = Some lns → ln ∈ lns →
    ∃ XFG, extract_XFG PDG ln = Ok (Some XFG) ∧ ln ∈ nodes_of XFG ∧
           (untouched PDG ln → nodes_of XFG = {[ln]}).

(** What the batch driver computes for one file. *)
Definition slices_of_file (fs : filesystem)
    (code_path sensi_api_path source_path : string) : result (option XFG_map) :=
  '(PDG, klm) ← build_PDG fs code_path sensi_api_path source_path;
  build_XFG PDG klm.

(** "With a table absent the constructor returns the no-graph result and
    the extractor returns no slices, not a null value." *)
Definition graceful_absence (fs : filesystem)
    (code_path sensi_api_path source_path : string) : Prop :=
  is_Some (fs !! sensi_api_path) →
  fs !! join code_path "nodes.csv" = None ∨ fs !! join code_path "edges.csv" = None →
  build_PDG fs code_path sensi_api_path source_path = Ok no_graph ∧
  ∃ res : XFG_map,
    slices_of_file fs code_path sensi_api_path source_path = Ok (Some res) ∧
    ∀ key slices, res !! key = Some slices → slices = [].

(** The identifier and line a row states for itself: what one round of
    [extract_nodes_with_location_info] records for a row whose location is
    present, not empty, and parses. *)
Definition located (node : row) : option (string * Z) :=
  location ← node !! "location";
  if bool_decide (location = EmptyString) then None
  else
    key ← node !! "key";
    ln ← PyStr.int (line_part location);
    Some (PyStr.strip key, ln).

(** Every location that is present and not empty parses, and its row has
    a key. *)
Definition locations_parse (nodes : list row) : Prop :=
  ∀ i node location,
    nodes !! i = Some node → node !! "location" = Some location →
    location ≠ EmptyString →
    is_Some (PyStr.int (line_part location)) ∧ is_Some (node !! "key").

(** Graphs as [add_edges_from] builds them: the adjacency table and the
    node table have the same keys, and the nodes are the end points of the
    edges. *)
Definition graph_ok (G : DiGraph) : Prop :=
  dom (_succ G) = dom (_node G) ∧
  dom (_pred G) = dom (_node G) ∧
  ∀ n, n ∈ nodes_of G ↔
       ∃ u v dd, edge_data G u v = Some dd ∧ (n = u ∨ n = v).

(** Every edge carries the control tag or the data tag. *)
Definition tags_ok (G : DiGraph) : Prop :=
  ∀ u v dd, edge_data G u v = Some dd → dd = control_tag ∨ dd = data_tag.

(** The tuples one row of the edge table adds to each of the two lists. *)
Definition control_contribution (node_id_to_ln : gmap string Z) (e : row) : list edge :=
  match edge_resolves node_id_to_ln e with
  | Some (ty, s, t) =>
      if bool_decide (ty = "CONTROLS") then [(s, t, control_tag)] else []
  | None => []
  end.

Definition data_contribution (node_id_to_ln : gmap string Z) (e : row) : list edge :=
  match edge_resolves node_id_to_ln e with
  | Some (ty, s, t) =>
      if bool_decide (ty = "REACHES") then [(s, t, data_tag)] else []
  | None => []
  end.

(** Both a CONTROLS row and a REACHES row from line 10 to line 12. *)
Definition both_fs : filesystem :=
  {[ "data/sensiAPI.txt" := "memcpy,strcpy, gets";
     "csv/e.c/nodes.csv" :=
       tsv [["key"; "type"; "code"; "location"; "operator"];
            ["0"; "IfStatement"; "if (n)"; "10:5"; ""];
            ["1"; "ExpressionStatement"; "x = n"; "12:1"; ""]];
     "csv/e.c/edges.csv" :=
       tsv [["start"; "end"; "type"];
            ["0"; "1"; "CONTROLS"];
            ["0"; "1"; "REACHES"]] ]}.

Definition both_nodes : list row :=
  [ {[ "key" := "0"; "type" := "IfStatement"; "code" := "if (n)";
       "location" := "10:5"; "operator" := "" ]};
    {[ "key" := "1"; "type" := "ExpressionStatement"; "code" := "x = n";
       "location" := "12:1"; "operator" := "" ]} ].

Definition both_control : row := {[ "start" := "0"; "end" := "1"; "type" := "CONTROLS" ]}.
Definition both_data : row := {[ "start" := "0"; "end" := "1"; "type" := "REACHES" ]}.

Definition both_info : location_info :=
  {| node_indices := [0%nat; 1%nat]; node_ids := ["0"; "1"];
     line_numbers := [10; 12];
     node_id_to_line_number := {[ "0" := 10; "1" := 12 ]} |}.

Definition both_PDG : DiGraph :=
  {| file_paths := ["e.c"]; key_line := None;
     _node := {[ 10 := ∅; 12 := ∅ ]};
     _succ := {[ 10 := {[ 12 := data_tag ]}; 12 := ∅ ]};
     _pred := {[ 10 := ∅; 12 := {[ 10 := data_tag ]} ]} |}.

Definition no_key_lines : key_line_map :=
  {[ "call" := ∅; "array" := ∅; "ptr" := ∅; "arith" := ∅ ]}.

Definition isolated_PDG : DiGraph := new_DiGraph ["d.c"].

Definition isolated_klm : key_line_map :=
  {[ "call" := ∅; "array" := {[ 10 ]}; "ptr" := ∅; "arith" := ∅ ]}.

(** The predecessor table is the successor table read backwards. *)
Definition mirrored (G : DiGraph) : Prop :=
  ∀ u v, _pred G !! v ≫= lookup u = edge_data G u v.

(** ** Further notions used in the statements *)

(** [b] is a key of the inner table of [a]: one step of a traversal. *)
Definition adjacent (adj : adjacency) (a b : Z) : Prop :=
  is_Some (adj !! a ≫= lookup b).

(** The graph has an edge from [u] to [v]. *)
Definition has_edge (G : DiGraph) (u v : Z) : Prop := is_Some (edge_data G u v).

(** The conditions under which the classification loop of [build_PDG]
    adds line [ln] for the node at index [i]. *)
Definition call_candidate (nodes : list row) (sensi_api_set : gset string)
    (i : nat) (node : row) (ln : Z) : Prop :=
  ∃ ty next code,
    node !! "type" = Some ty ∧ PyStr.strip ty = "CallExpression" ∧
    nodes !! (i + 1)%nat = Some next ∧ next !! "code" = Some code ∧
    PyStr.strip code ≠ EmptyString ∧ PyStr.strip code ∈ sensi_api_set ∧
    extract_line_number (Z.of_nat i) nodes = Ok ln ∧ 0 < ln.

Definition typed_candidate (nodes : list row) (kind : string)
    (i : nat) (node : row) (ln : Z) : Prop :=
  ∃ ty,
    node !! "type" = Some ty ∧ PyStr.strip ty = kind ∧
    extract_line_number (Z.of_nat i) nodes = Ok ln ∧ 0 < ln.

Definition arith_candidate (nodes : list row) (i : nat) (node : row) (ln : Z) : Prop :=
  ∃ ty operator,
    node !! "type" = Some ty ∧
    PyStr.strip ty ≠ "CallExpression" ∧ PyStr.strip ty ≠ "ArrayIndexing" ∧
    PyStr.strip ty ≠ "PtrMemberAccess" ∧
    node !! "operator" = Some operator ∧ PyStr.strip operator ∈ arith_operators ∧
    extract_line_number (Z.of_nat i) nodes = Ok ln ∧ 0 < ln.

(** Every character of the text is white space. *)
Fixpoint blank (s : string) : bool :=
  match s with
  | EmptyString => true
  | String c s' => PyStr.is_space c && blank s'
  end.

(** The rows that state a location of their own, in table order, each
    with its index, its identifier and its line. *)
Definition located_rows (nodes : list row) : list (nat * string * Z) :=
  omap (fun '(i, node) => (fun '(id, ln) => (i, id, ln)) <$> located node)
       (enumerate nodes).

(** ** The manifest reader [getCodeIDtoPathDict] *)

(** An XML element as [xml.etree.ElementTree] gives it: a tag, the
    attributes, and the child elements in document order. *)
#[local] Set Warnings "-register-all".
Inductive Element : Type :=
| Elem (tag : string) (attrib : gmap string string) (children : list Element).

Definition tag (e : Element) : string := let '(Elem t _ _) := e in t.
Definition attrib (e : Element) : gmap string string := let '(Elem _ a _) := e in a.
Definition children (e : Element) : list Element := let '(Elem _ _ c) := e in c.

(** [e.findall(t)] for a plain tag name: the children with that tag. *)
Definition findall (e : Element) (t : string) : list Element :=
  filter (fun c => tag c = t) (children e).

(** [l != []] *)
Definition nonempty {A} (l : list A) : bool :=
  match l with
  | [] => false
  | _ => true
  end.

(** [VulLine.add(int(x.attrib["line"]))] *)
Definition add_line (VulLine : gset Z) (x : Element) : result (gset Z) :=
  line ← getitem (attrib x) "line";
  match PyStr.int line with
  | Some n => Ok ({[n]} ∪ VulLine)
  | None => Raise ValueError
  end.

(** [for x in elems: VulLine.add(int(x.attrib["line"]))] *)
Definition add_lines (VulLine : gset Z) (elems : list Element) : result (gset Z) :=
  foldlM add_line VulLine elems.

(** The path of a file element and its set [VulLine]. *)
Definition file_entry (file : Element) : result (string * gset Z) :=
  path ← getitem (attrib file) "path";
  let flaws := findall file "flaw" in
  let mixeds := findall file "mixed" in
  let fix_ := findall file "fix" in
  VulLine ←
    (if nonempty flaws || nonempty mixeds || nonempty fix_ then
       VulLine ← (if nonempty flaws then add_lines ∅ flaws else Ok ∅);
       if nonempty mixeds then add_lines VulLine mixeds else Ok VulLine
     else Ok ∅);
  Ok (path, VulLine).

Definition file_step (acc : gmap string (gset Z)) (file : Element)
    : result (gmap string (gset Z)) :=
  '(path, VulLine) ← file_entry file;
  Ok (<[path := VulLine]> acc).

(** The identifier of a test case and the table of its files. *)
Definition testcase_entry (testcase : Element) : result (string * gmap string (gset Z)) :=
  let files := findall testcase "file" in
  testcaseid ← getitem (attrib testcase) "id";
  paths ← foldlM file_step ∅ files;
  Ok (testcaseid, paths).

Definition testcase_step (codeIDtoPath : gmap string (gmap string (gset Z)))
    (testcase : Element) : result (gmap string (gmap string (gset Z))) :=
  '(testcaseid, paths) ← testcase_entry testcase;
  Ok (<[testcaseid := paths]> codeIDtoPath).

Definition getCodeIDtoPathDict (testcases : list Element)
    : result (gmap string (gmap string (gset Z))) :=
  foldlM testcase_step ∅ testcases.

(** A file element without its fix children, and a test case whose file
    elements are treated so. *)
Definition without_fix (file : Element) : Element :=
  Elem (tag file) (attrib file) (filter (fun c => tag c ≠ "fix") (children file)).

Definition without_fixes (testcase : Element) : Element :=
  Elem (tag testcase) (attrib testcase)
       ((fun c => if bool_decide (tag c = "file") then without_fix c else c)
          <$> children testcase).

(** The lines named by the flaw and mixed children of a file element. *)
Definition vul_lines (file : Element) : gset Z :=
  list_to_set (omap (fun x => attrib x !! "line" ≫= PyStr.int)
                    (findall file "flaw" ++ findall file "mixed")).

(** A small manifest. *)
Definition ex_manifest : list Element :=
  [ Elem "testcase" {[ "id" := "7" ]}
      [ Elem "file" {[ "path" := "a.c" ]}
          [ Elem "flaw" {[ "line" := "10" ]} [];
            Elem "mixed" {[ "line" := "12" ]} [];
            Elem "fix" {[ "line" := "none" ]} [] ];
        Elem "file" {[ "path" := "b.c" ]} [] ];
    Elem "testcase" {[ "id" := "7" ]}
      [ Elem "file" {[ "path" := "a.c" ]} [ Elem "flaw" {[ "line" := "3" ]} [] ] ] ].

(** [x] is the last element of [l] whose key is [k]. *)
Definition last_with {A} (key : A → option string) (l : list A) (k : string) (x : A) : Prop :=
  ∃ i, l !! i = Some x ∧ key x = Some k ∧
       ∀ j x', (i < j)%nat → l !! j = Some x' → key x' ≠ Some k.

(** What the reader needs of a manifest: a line that [int] accepts on every
    flaw and mixed element, a path on every file element, an id on every
    test case. *)
Definition good_line (x : Element) : Prop :=
  ∃ line n, attrib x !! "line" = Some line ∧ PyStr.int line = Some n.

Definition good_file (file : Element) : Prop :=
  is_Some (attrib file !! "path") ∧
  Forall good_line (findall file "flaw" ++ findall file "mixed").

Definition good_testcase (testcase : Element) : Prop :=
  is_Some (attrib testcase !! "id") ∧ Forall good_file (findall testcase "file").

(** A computation returns exactly when [P] holds, and raises [KeyError] or
    [ValueError] otherwise. *)
Definition returns_iff {A} (P : Prop) (r : result A) : Prop :=
  (P ∧ ∃ a, r = Ok a) ∨ (¬ P ∧ (r = Raise KeyError ∨ r = Raise ValueError)).




(** * Properties *)

(** ** The Python primitives on small inputs *)

Example strip_inner_space :
  PyStr.strip (String PyStr.TAB " a b ") = "a b".
Proof. reflexivity. Qed.

Example split_keeps_empty_cells :
  PyStr.split PyStr.TAB (tsv [["a"; ""; "b"]]) = ["a"; ""; String "b" (String PyStr.LF "")].
Proof. reflexivity. Qed.

Example split_of_empty : PyStr.split "," "" = [""].
Proof. reflexivity. Qed.

Example readlines_last_line_without_terminator :
  PyStr.readlines (String "a" (String PyStr.LF "b")) = [String "a" (String PyStr.LF ""); "b"].
Proof. reflexivity. Qed.

Example universal_newlines_crlf :
  PyStr.universal_newlines (String "a" (String PyStr.CR (String PyStr.LF (String "b" (String PyStr.CR "")))))
  = String "a" (String PyStr.LF (String "b" (String PyStr.LF ""))).
Proof. reflexivity. Qed.

Example int_accepts :
  PyStr.int " 12 " = Some 12 ∧ PyStr.int "+1_000" = Some 1000 ∧
  PyStr.int "-7" = Some (-7) ∧ PyStr.int "007" = Some 7.
Proof. repeat split; reflexivity. Qed.

Example int_rejects :
  PyStr.int "" = None ∧ PyStr.int "abc" = None ∧ PyStr.int "1__0" = None ∧
  PyStr.int "_1" = None ∧ PyStr.int "1_" = None ∧ PyStr.int "- 1" = None ∧
  PyStr.int "1 2" = None.
Proof. repeat split; reflexivity. Qed.

(** [int] skips the white space of [str.strip] around a number, except the
    separators U+001C to U+001F: a location such as 10<U+001C> is rejected
    by [int] although [strip] would remove the separator. *)
Example int_white_space :
  PyStr.int (String "160"%char (String PyStr.TAB "10")) = Some 10 ∧
  PyStr.int (String "1" (String "0" (String "133"%char EmptyString))) = Some 10 ∧
  PyStr.int (String "1" (String "0" (String "028"%char EmptyString))) = None ∧
  PyStr.int (String "031"%char "10") = None ∧
  PyStr.strip (String "1" (String "0" (String "028"%char EmptyString))) = "10".
Proof. repeat split; reflexivity. Qed.

Example join_paths :
  join "csv/a.c" "nodes.csv" = "csv/a.c/nodes.csv" ∧
  join "csv/a.c/" "nodes.csv" = "csv/a.c/nodes.csv" ∧
  join "" "nodes.csv" = "nodes.csv" ∧
  join "csv" "/nodes.csv" = "/nodes.csv".
Proof. repeat split; reflexivity. Qed.

Example line_of_location : own_line {[ "location" := "10:5" ]} = Some 10.
Proof. reflexivity. Qed.

Example line_of_blank_location : own_line {[ "location" := "  " ]} = None.
Proof. reflexivity. Qed.

(** ** The two failure modes of the constructor *)

Lemma path_exists_None fs p : fs !! p = None → path_exists fs p = false.
Proof. intros H. unfold path_exists. rewrite H. apply bool_decide_eq_false. by intros [? ?]. Qed.

Lemma path_exists_Some fs p : is_Some (fs !! p) → path_exists fs p = true.
Proof. intros H. unfold path_exists. by apply bool_decide_eq_true. Qed.

Lemma build_PDG_no_api_list fs code_path sensi_api_path source_path :
  fs !! sensi_api_path = None →
  build_PDG fs code_path sensi_api_path source_path = Raise AssertionError.
Proof. intros H. unfold build_PDG. by rewrite (path_exists_None _ _ H). Qed.

Lemma build_PDG_no_tables fs code_path sensi_api_path source_path :
  is_Some (fs !! sensi_api_path) →
  fs !! join code_path "nodes.csv" = None ∨ fs !! join code_path "edges.csv" = None →
  build_PDG fs code_path sensi_api_path source_path = Ok no_graph.
Proof.
  intros Hs Habs. unfold build_PDG, read_text.
  rewrite (path_exists_Some _ _ Hs). destruct Hs as [text ->].
  destruct Habs as [H | H]; rewrite (path_exists_None _ _ H); [done |].
  by rewrite orb_true_r.
Qed.

(** C7. [build_PDG] raises when the sensitive-API list does not exist,
    whatever the state of the tables (the check comes first); with the list
    present and a table absent it returns the no-graph result instead. *)
Theorem build_PDG_failure_modes (fs : filesystem)
    (code_path sensi_api_path source_path : string) :
  (fs !! sensi_api_path = None →
   build_PDG fs code_path sensi_api_path source_path = Raise AssertionError) ∧
  (is_Some (fs !! sensi_api_path) →
   fs !! join code_path "nodes.csv" = None ∨ fs !! join code_path "edges.csv" = None →
   build_PDG fs code_path sensi_api_path source_path = Ok no_graph).
Proof. split; [apply build_PDG_no_api_list | apply build_PDG_no_tables]. Qed.

Lemma build_PDG_failure_modes_witness :
  build_PDG ∅ "csv/a.c" "data/sensiAPI.txt" "a.c" = Raise AssertionError ∧
  build_PDG no_tables_fs "csv/a.c" "data/sensiAPI.txt" "a.c" = Ok no_graph.
Proof.
  split.
  - apply (proj1 (build_PDG_failure_modes ∅ "csv/a.c" "data/sensiAPI.txt" "a.c")).
    reflexivity.
  - apply (proj2 (build_PDG_failure_modes no_tables_fs "csv/a.c" "data/sensiAPI.txt" "a.c")).
    + eexists. vm_compute. reflexivity.
    + left. vm_compute. reflexivity.
Defined.

(** ** Absent tables *)

(** C3, counterexample. With only the API list on disk the constructor
    returns the no-graph result, and the extractor then returns [None],
    not an empty collection. *)
Lemma graceful_absence_fails :
  ¬ graceful_absence no_tables_fs "csv/a.c" "data/sensiAPI.txt" "a.c".
Proof.
  intros H. destruct H as [_ [res [Hres _]]].
  - eexists. vm_compute. reflexivity.
  - left. vm_compute. reflexivity.
  - vm_compute in Hres. discriminate Hres.
Qed.

(** C3, as the code has it. With the API list present and a table absent,
    [build_PDG] returns the no-graph result without raising, and [build_XFG]
    on that result returns [None]. *)
Theorem absent_tables_give_None (fs : filesystem)
    (code_path sensi_api_path source_path : string) :
  is_Some (fs !! sensi_api_path) →
  fs !! join code_path "nodes.csv" = None ∨ fs !! join code_path "edges.csv" = None →
  build_PDG fs code_path sensi_api_path source_path = Ok no_graph ∧
  build_XFG no_graph.1 no_graph.2 = Ok None ∧
  slices_of_file fs code_path sensi_api_path source_path = Ok None.
Proof.
  intros Hs Habs. pose proof (build_PDG_no_tables _ code_path _ source_path Hs Habs) as H.
  split; [done |]. split; [done |]. unfold slices_of_file. by rewrite H.
Qed.

Lemma absent_tables_give_None_witness :
  build_PDG no_tables_fs "csv/a.c" "data/sensiAPI.txt" "a.c" = Ok no_graph ∧
  build_XFG no_graph.1 no_graph.2 = Ok None ∧
  slices_of_file no_tables_fs "csv/a.c" "data/sensiAPI.txt" "a.c" = Ok None.
Proof.
  apply (absent_tables_give_None no_tables_fs "csv/a.c" "data/sensiAPI.txt" "a.c").
  - eexists. vm_compute. reflexivity.
  - left. vm_compute. reflexivity.
Defined.


(** ** The worked input, end to end *)

(** C2. On the three-node table (node 0 a call at "10:5", node 1 the
    callee name strcpy, node 2 at line 12), with strcpy in the API list and
    one REACHES edge from node 0 to node 2: line 10 is a call key line, the
    PDG has the data edge 10 -> 12, and the slice of key line 10 has the
    vertices 10 and 12 and the single data edge. *)
Theorem end_to_end_example :
  read_csv ex_fs "csv/a.c/nodes.csv" = Ok ex_nodes ∧
  read_csv ex_fs "csv/a.c/edges.csv" = Ok ex_edges ∧
  build_PDG ex_fs "csv/a.c" "data/sensiAPI.txt" "a.c" = Ok (Some ex_PDG, Some ex_klm) ∧
  ex_klm !! "call" = Some {[ 10 ]} ∧
  edges_of ex_PDG = [(10, 12, data_tag)] ∧
  build_XFG (Some ex_PDG) (Some ex_klm)
  = Ok (Some {[ "call" := [ex_XFG]; "array" := []; "ptr" := []; "arith" := [] ]}) ∧
  key_line ex_XFG = Some 10 ∧
  nodes_of ex_XFG = {[ 10; 12 ]} ∧
  edges_of ex_XFG = [(10, 12, data_tag)].
Proof. repeat split; vm_compute; reflexivity. Qed.

(** ** A call node in the last row *)

(** The callee name is read from the row after the call node; for the
    last row there is none. *)
Lemma classify_step_call_last nodes sensi_api_set acc node ty :
  nodes ≠ [] →
  node !! "type" = Some ty → PyStr.strip ty = "CallExpression" →
  classify_step nodes sensi_api_set acc (length nodes - 1, node)%nat = Raise IndexError.
Proof.
  intros Hne Hty Hcall.
  unfold classify_step, getitem, index. rewrite Hty. cbn. rewrite Hcall. cbn.
  rewrite lookup_ge_None_2; [done |].
  destruct nodes; [done | cbn; lia].
Qed.

(** C9. There is a node table whose last row has type CallExpression (API
    list and both tables present) on which [build_PDG] raises [IndexError]. *)
Theorem call_in_last_row_raises_IndexError :
  is_Some (call_last_fs !! "data/sensiAPI.txt") ∧
  is_Some (call_last_fs !! join "csv/b.c" "edges.csv") ∧
  read_csv call_last_fs (join "csv/b.c" "nodes.csv") = Ok call_last_nodes ∧
  last call_last_nodes ≫= lookup "type" = Some "CallExpression" ∧
  build_PDG call_last_fs "csv/b.c" "data/sensiAPI.txt" "b.c" = Raise IndexError.
Proof.
  repeat split; try (eexists; vm_compute; reflexivity); vm_compute; reflexivity.
Qed.

(** ** Locations that are not line:column *)

(** The resolver passes over a node whose location does not parse exactly
    as it passes over a node without the field. *)
Lemma own_line_malformed (node : row) location :
  node !! "location" = Some location →
  PyStr.int (line_part location) = None →
  own_line node = own_line (delete "location" node).
Proof.
  intros Hloc Hint. unfold own_line. rewrite Hloc, lookup_delete_eq, Hint.
  by case_bool_decide.
Qed.

Lemma extract_line_number_from_ext (nodes nodes' : list row) idx :
  length nodes = length nodes' →
  (∀ i, nodes !! i ≫= own_line = nodes' !! i ≫= own_line) →
  extract_line_number_from idx nodes = extract_line_number_from idx nodes'.
Proof.
  intros Hlen Hown. induction idx as [| idx IH]; cbn.
  - pose proof (Hown 0%nat) as H. unfold index.
    destruct (nodes !! 0%nat) as [c |] eqn:E1, (nodes' !! 0%nat) as [c' |] eqn:E2;
      cbn in *; try done.
    + by rewrite H.
    + apply lookup_lt_Some in E1. apply lookup_ge_None in E2. lia.
    + apply lookup_lt_Some in E2. apply lookup_ge_None in E1. lia.
  - pose proof (Hown (S idx)) as H. unfold index.
    destruct (nodes !! S idx) as [c |] eqn:E1, (nodes' !! S idx) as [c' |] eqn:E2;
      cbn in *; try done.
    + rewrite H. destruct (own_line c'); [done | apply IH].
    + apply lookup_lt_Some in E1. apply lookup_ge_None in E2. lia.
    + apply lookup_lt_Some in E2. apply lookup_ge_None in E1. lia.
Qed.

Lemma extract_line_number_malformed_as_absent (nodes : list row) i node location idx :
  nodes !! i = Some node →
  node !! "location" = Some location →
  PyStr.int (line_part location) = None →
  extract_line_number idx nodes
  = extract_line_number idx (<[i := delete "location" node]> nodes).
Proof.
  intros Hi Hloc Hint. unfold extract_line_number. case_match; [done |].
  apply extract_line_number_from_ext; [by rewrite length_insert |].
  intros k. destruct (decide (k = i)) as [-> | Hne].
  - rewrite list_lookup_insert_eq by (by eapply lookup_lt_Some).
    rewrite Hi. cbn. by eapply own_line_malformed.
  - by rewrite list_lookup_insert_ne.
Qed.

(** C4, the failing input. The table has one row whose location is "abc".
    The resolver treats the row as one without a location (it answers -1,
    as it does once the field is removed), but
    [extract_nodes_with_location_info] raises [ValueError] on it, and so
    does [build_PDG]. *)
Theorem malformed_location_raises_ValueError :
  read_csv malformed_fs (join "csv/c.c" "nodes.csv") = Ok malformed_nodes ∧
  extract_line_number 0 malformed_nodes = Ok (-1) ∧
  extract_line_number 0 (delete "location" <$> malformed_nodes) = Ok (-1) ∧
  extract_nodes_with_location_info malformed_nodes = Raise ValueError ∧
  extract_nodes_with_location_info (delete "location" <$> malformed_nodes)
  = Ok {| node_indices := []; node_ids := []; line_numbers := [];
          node_id_to_line_number := ∅ |} ∧
  build_PDG malformed_fs "csv/c.c" "data/sensiAPI.txt" "c.c" = Raise ValueError.
Proof. repeat split; vm_compute; reflexivity. Qed.

(** ** The tabular loader *)

(** The cell of a stripped line under header position [j]. *)
Lemma read_row_snoc (h_parts : list string) (hp line : string) :
  read_row (h_parts ++ [hp]) line
  = <[hp := match PyStr.split PyStr.TAB (PyStr.strip line) !! length h_parts with
            | Some cell => PyStr.strip cell
            | None => EmptyString
            end]> (read_row h_parts line).
Proof.
  unfold read_row. rewrite imap_app, foldl_app. cbn. by rewrite Nat.add_0_r.
Qed.

Lemma read_row_dom (h_parts : list string) (line : string) :
  dom (read_row h_parts line) = list_to_set h_parts.
Proof.
  induction h_parts as [| hp h_parts IH] using rev_ind; [done |].
  rewrite read_row_snoc, dom_insert_L, IH, list_to_set_app_L. cbn.
  by rewrite (right_id_L ∅ (∪)), (comm_L (∪)).
Qed.




(** ** Loops that may raise *)

Ltac simpl_result := cbn [mbind result_bind mret result_ret].

Lemma foldlM_app {A B} (f : B → A → result B) (b : B) (l1 l2 : list A) :
  foldlM f b (l1 ++ l2) = foldlM f b l1 ≫= fun b' => foldlM f b' l2.
Proof.
  revert b. induction l1 as [| a l1 IH]; intros b; [done |].
  cbn. destruct (f b a); [apply IH | done | done].
Qed.

Lemma foldlM_singleton {A B} (f : B → A → result B) (b : B) (a : A) :
  foldlM f b [a] = f b a.
Proof. cbn. by destruct (f b a). Qed.

Lemma enumerate_snoc {A} (l : list A) (x : A) :
  enumerate (l ++ [x]) = enumerate l ++ [(length l, x)].
Proof. unfold enumerate. rewrite imap_app. cbn. by rewrite Nat.add_0_r. Qed.

Lemma enumerate_lookup {A} (l : list A) (i : nat) :
  enumerate l !! i = (fun a => (i, a)) <$> l !! i.
Proof. unfold enumerate. by rewrite list_lookup_imap. Qed.

(** ** The line resolver and the side table *)

(** The resolver implements the resolution rule. *)
Lemma extract_line_number_from_resolves (nodes : list row) (i : nat) (ln : Z) :
  (i < length nodes)%nat → resolves nodes i ln →
  extract_line_number_from i nodes = Ok ln.
Proof.
  intros Hlt (j & Hji & Hj & Hbetween).
  induction i as [| i IH].
  - assert (j = 0%nat) as -> by lia.
    cbn. unfold index. destruct (nodes !! 0%nat) as [c |]; [| done].
    cbn in *. by rewrite Hj.
  - cbn. unfold index.
    destruct (lookup_lt_is_Some_2 nodes (S i) Hlt) as [c Hc]. rewrite Hc. cbn.
    destruct (decide (j = S i)) as [-> | Hne].
    + rewrite Hc in Hj. cbn in Hj. by rewrite Hj.
    + pose proof (Hbetween (S i) ltac:(lia)) as Hnone.
      rewrite Hc in Hnone. cbn in Hnone. rewrite Hnone.
      apply IH; [lia | lia |]. intros k Hk. apply Hbetween. lia.
Qed.

Lemma extract_nodes_snoc (nodes : list row) (node : row) :
  extract_nodes_with_location_info (nodes ++ [node])
  = extract_nodes_with_location_info nodes
    ≫= fun info => location_info_step info (length nodes, node).
Proof.
  unfold extract_nodes_with_location_info.
  rewrite enumerate_snoc, foldlM_app.
  destruct (foldlM _ _ (enumerate nodes)) as [info | |]; [| done | done].
  exact (foldlM_singleton location_info_step info (length nodes, node)).
Qed.

Lemma location_info_step_located (info : location_info) (i : nat) (node : row) id ln :
  located node = Some (id, ln) →
  ∃ info', location_info_step info (i, node) = Ok info' ∧
           node_id_to_line_number info'
           = <[id := ln]> (node_id_to_line_number info).
Proof.
  unfold located, location_info_step, getitem. intros H.
  destruct (node !! "location") as [location |]; [| done]. cbn in H.
  case_bool_decide; [done |].
  destruct (node !! "key") as [key |]; [| done]. cbn in H.
  destruct (PyStr.int (line_part location)) as [n |]; [| done]. cbn in H.
  injection H as <- <-. eexists. split; [reflexivity | done].
Qed.

Lemma location_info_step_not_located (info : location_info) (i : nat) (node : row) :
  located node = None →
  (∀ location, node !! "location" = Some location → location ≠ EmptyString →
               is_Some (PyStr.int (line_part location)) ∧ is_Some (node !! "key")) →
  location_info_step info (i, node) = Ok info.
Proof.
  unfold located, location_info_step, getitem. intros H Hparse.
  destruct (node !! "location") as [location |]; [| done]. cbn in H.
  case_bool_decide as Hloc; [done |].
  destruct (Hparse location eq_refl Hloc) as [[n Hn] [key Hkey]].
  rewrite Hkey, Hn in H. done.
Qed.

(** C5, as the code has it. When every location that is present and not
    empty parses, [node_id_to_line] maps exactly the identifiers of the rows
    that state a location of their own, each to the line of the last such
    row; a row without a location of its own adds nothing (it is not given
    the line of a preceding row). *)
Theorem node_id_to_line_own_locations (nodes : list row) :
  locations_parse nodes →
  ∃ info,
    extract_nodes_with_location_info nodes = Ok info ∧
    ∀ id ln,
      node_id_to_line_number info !! id = Some ln ↔
      ∃ i, nodes !! i ≫= located = Some (id, ln) ∧
           ∀ j ln', (i < j)%nat → nodes !! j ≫= located ≠ Some (id, ln').
Proof.
  induction nodes as [| node nodes IH] using rev_ind; intros Hparse.
  - eexists. split; [reflexivity |]. intros id ln. cbn. rewrite lookup_empty.
    split; [done |]. by intros [i [? _]].
  - destruct IH as [info [Hinfo Hchar]].
    { intros i n location Hi. apply (Hparse i). rewrite lookup_app_l; [done |].
      by eapply lookup_lt_Some. }
    rewrite extract_nodes_snoc, Hinfo. cbn.
    assert (∀ i, (i < length nodes)%nat →
                 (nodes ++ [node]) !! i ≫= located = nodes !! i ≫= located) as Hold.
    { intros i Hi. by rewrite lookup_app_l. }
    assert ((nodes ++ [node]) !! length nodes ≫= located = located node) as Hnew.
    { by rewrite list_lookup_middle. }
    assert (∀ i, (length nodes < i)%nat → (nodes ++ [node]) !! i ≫= located = None) as Hout.
    { intros i Hi. rewrite lookup_ge_None_2; [done |]. rewrite length_app. cbn. lia. }
    destruct (located node) as [[id0 ln0] |] eqn:Hloc.
    + destruct (location_info_step_located info (length nodes) node id0 ln0 Hloc)
        as [info' [Hstep Hmap]].
      exists info'. split; [done |]. intros id ln. rewrite Hmap.
      destruct (decide (id0 = id)) as [-> | Hne].
      * rewrite lookup_insert_eq. split.
        -- intros [= ->]. exists (length nodes). split; [by rewrite Hnew |].
           intros j ln' Hj. by rewrite Hout.
        -- intros [i [Hi Hlast]].
           destruct (decide (i < length nodes)%nat) as [Hlt | Hge].
           ++ exfalso. apply (Hlast (length nodes) ln0 Hlt). by rewrite Hnew.
           ++ destruct (decide (i = length nodes)) as [-> | Hne].
              ** rewrite Hnew in Hi. by injection Hi as ->.
              ** rewrite Hout in Hi by lia. done.
      * rewrite lookup_insert_ne by done. rewrite Hchar. split.
        -- intros [i [Hi Hlast]].
           assert (i < length nodes)%nat as Hlt.
           { destruct (nodes !! i) eqn:E; [by eapply lookup_lt_Some | done]. }
           exists i. split; [by rewrite Hold |]. intros j ln' Hj.
           destruct (decide (j < length nodes)%nat) as [Hj' | Hj'].
           ++ rewrite Hold by done. by apply Hlast.
           ++ destruct (decide (j = length nodes)) as [-> | Hne'].
              ** rewrite Hnew. congruence.
              ** rewrite Hout by lia. done.
        -- intros [i [Hi Hlast]].
           destruct (decide (i < length nodes)%nat) as [Hlt | Hge].
           ++ exists i. split; [by rewrite <- Hold |]. intros j ln' Hj.
              destruct (decide (j < length nodes)%nat) as [Hj' | Hj'].
              ** rewrite <- Hold by done. by apply Hlast.
              ** rewrite lookup_ge_None_2 by lia. done.
           ++ destruct (decide (i = length nodes)) as [-> | Hne'].
              ** rewrite Hnew in Hi. congruence.
              ** rewrite Hout in Hi by lia. done.
    + exists info. split.
      { apply location_info_step_not_located; [done |].
        intros location. apply (Hparse (length nodes)). by rewrite list_lookup_middle. }
      intros id ln. rewrite Hchar. split.
      * intros [i [Hi Hlast]].
        assert (i < length nodes)%nat as Hlt.
        { destruct (nodes !! i) eqn:E; [by eapply lookup_lt_Some | done]. }
        exists i. split; [by rewrite Hold |]. intros j ln' Hj.
        destruct (decide (j < length nodes)%nat) as [Hj' | Hj'].
        -- rewrite Hold by done. by apply Hlast.
        -- destruct (decide (j = length nodes)) as [-> | Hne'].
           ++ by rewrite Hnew.
           ++ rewrite Hout by lia. done.
      * intros [i [Hi Hlast]].
        destruct (decide (i < length nodes)%nat) as [Hlt | Hge].
        -- exists i. split; [by rewrite <- Hold |]. intros j ln' Hj.
           destruct (decide (j < length nodes)%nat) as [Hj' | Hj'].
           ++ rewrite <- Hold by done. by apply Hlast.
           ++ rewrite lookup_ge_None_2 by lia. done.
        -- destruct (decide (i = length nodes)) as [-> | Hne'].
           ++ rewrite Hnew in Hi. done.
           ++ rewrite Hout in Hi by lia. done.
Qed.

Lemma node_id_to_line_own_locations_witness :
  ∃ info,
    extract_nodes_with_location_info fallback_nodes = Ok info ∧
    ∀ id ln,
      node_id_to_line_number info !! id = Some ln ↔
      ∃ i, fallback_nodes !! i ≫= located = Some (id, ln) ∧
           ∀ j ln', (i < j)%nat → fallback_nodes !! j ≫= located ≠ Some (id, ln').
Proof.
  apply (node_id_to_line_own_locations fallback_nodes).
  intros i node location Hi Hloc Hne.
  destruct i as [| [| i]]; cbn in Hi; [| | done].
  - injection Hi as <-. vm_compute in Hloc. injection Hloc as <-.
    split; eexists; vm_compute; reflexivity.
  - injection Hi as <-. vm_compute in Hloc. injection Hloc as <-. done.
Defined.

(** C5, counterexample. Node 1 has no location of its own and follows
    node 0 at "10:5": the resolution rule (and [extract_line_number]) gives
    it line 10, but [node_id_to_line] has no entry for it. *)
Lemma node_id_to_line_complete_fails : ¬ node_id_to_line_complete fallback_nodes.
Proof.
  intros [info [Hinfo Hall]].
  vm_compute in Hinfo. injection Hinfo as <-.
  specialize (Hall 1%nat _ "1" 10 eq_refl eq_refl).
  assert (resolves fallback_nodes 1 10) as Hres.
  { exists 0%nat. split; [lia |]. split; [vm_compute; reflexivity |].
    intros k Hk. assert (k = 1%nat) as -> by lia. vm_compute. reflexivity. }
  specialize (Hall Hres). vm_compute in Hall. discriminate Hall.
Qed.

Lemma fallback_nodes_resolver : extract_line_number 1 fallback_nodes = Ok 10.
Proof. reflexivity. Qed.

(** ** Graphs *)

Lemma edge_data_ensure_node (G : DiGraph) (w u v : Z) :
  edge_data (ensure_node w G) u v = edge_data G u v.
Proof.
  unfold edge_data, ensure_node. destruct (_succ G !! w) eqn:Hw; [done |]. cbn.
  destruct (decide (w = u)) as [-> | Hne].
  - by rewrite lookup_insert_eq, Hw.
  - by rewrite lookup_insert_ne.
Qed.

Lemma edge_data_add_edge (G : DiGraph) (u v : Z) (dd : attrs) (u' v' : Z) :
  edge_data (add_edge G (u, v, dd)) u' v'
  = if decide (u = u' ∧ v = v')
    then Some (dd ∪ default ∅ (edge_data G u v))
    else edge_data G u' v'.
Proof.
  unfold add_edge.
  pose proof (edge_data_ensure_node (ensure_node u G) v) as H1.
  pose proof (edge_data_ensure_node G u) as H2.
  set (G1 := ensure_node v (ensure_node u G)) in *.
  unfold edge_data at 1. cbn.
  change (_succ G1 !! u ≫= lookup v) with (edge_data G1 u v).
  rewrite H1, H2.
  destruct (decide (u = u')) as [<- | Hu].
  - rewrite lookup_insert_eq. cbn.
    destruct (decide (v = v')) as [<- | Hv].
    + rewrite lookup_insert_eq. by rewrite decide_True.
    + rewrite lookup_insert_ne by done. rewrite decide_False by (by intros [_ ?]).
      rewrite <- H2, <- H1. unfold edge_data.
      by destruct (_succ G1 !! u).
  - rewrite lookup_insert_ne by done. rewrite decide_False by (by intros [? _]).
    rewrite <- H2, <- H1. done.
Qed.

Lemma elem_of_edges_of (G : DiGraph) (u v : Z) (dd : attrs) :
  (u, v, dd) ∈ edges_of G ↔ edge_data G u v = Some dd.
Proof.
  unfold edges_of, edge_data. rewrite list_elem_of_bind. split.
  - intros [[u' nbrs] [Hin Hu]]. apply elem_of_map_to_list in Hu.
    apply list_elem_of_bind in Hin as [[v' dd'] [Hin Hv]].
    apply elem_of_map_to_list in Hv. apply list_elem_of_singleton in Hin.
    injection Hin as -> -> ->. by rewrite Hu.
  - intros H. destruct (_succ G !! u) as [nbrs |] eqn:Hu; [| done]. cbn in H.
    exists (u, nbrs). split; [| by apply elem_of_map_to_list].
    apply list_elem_of_bind. exists (v, dd).
    split; [by apply list_elem_of_singleton | by apply elem_of_map_to_list].
Qed.

Lemma fmap_list_bind {A B C} (f : B → C) (g : A → list B) (l : list A) :
  f <$> (l ≫= g) = l ≫= fun a => f <$> g a.
Proof.
  induction l as [| a l IH]; [done |].
  by rewrite !bind_cons, fmap_app, IH.
Qed.

(** The adjacency tables are dictionaries of dictionaries, so a pair of
    lines is listed at most once among the edges. *)
Lemma NoDup_edge_pairs (G : DiGraph) : NoDup (edge_pairs G).
Proof.
  unfold edge_pairs, edges_of. rewrite fmap_list_bind.
  apply NoDup_bind.
  - intros [u1 n1] [u2 n2] [a b] H1 H2 Ha Hb.
    apply elem_of_map_to_list in H1, H2.
    apply list_elem_of_fmap in Ha as [[[a1 b1] d1] [E1 Ha]].
    apply list_elem_of_fmap in Hb as [[[a2 b2] d2] [E2 Hb]].
    apply list_elem_of_bind in Ha as [[v1 dd1] [Ha _]].
    apply list_elem_of_bind in Hb as [[v2 dd2] [Hb _]].
    apply list_elem_of_singleton in Ha, Hb. cbn in *.
    injection Ha as -> -> ->. injection Hb as -> -> ->.
    injection E1 as -> ->. injection E2 as -> _.
    f_equal. congruence.
  - intros [u nbrs] _. rewrite fmap_list_bind.
    assert ((map_to_list nbrs ≫= fun a : Z * attrs =>
               (fun e : edge => (e.1.1, e.1.2)) <$> (let '(v, dd) := a in [(u, v, dd)]))
            = (fun v => (u, v)) <$> (map_to_list nbrs).*1) as ->.
    { induction (map_to_list nbrs) as [| [v dd] l IH]; [done |].
      rewrite bind_cons, IH. done. }
    apply NoDup_fmap_2; [| apply NoDup_fst_map_to_list].
    by intros v1 v2 [= ->].
  - apply NoDup_map_to_list.
Qed.

Lemma add_edges_from_snoc (G : DiGraph) (l : list edge) (e : edge) :
  add_edges_from G (l ++ [e]) = add_edge (add_edges_from G l) e.
Proof. unfold add_edges_from. by rewrite foldl_app. Qed.

Lemma ensure_node_doms (G : DiGraph) (w : Z) :
  dom (_succ G) = dom (_node G) → dom (_pred G) = dom (_node G) →
  dom (_succ (ensure_node w G)) = {[w]} ∪ dom (_node G) ∧
  dom (_pred (ensure_node w G)) = {[w]} ∪ dom (_node G) ∧
  dom (_node (ensure_node w G)) = {[w]} ∪ dom (_node G).
Proof.
  intros Hs Hp. unfold ensure_node.
  destruct (_succ G !! w) as [nbrs |] eqn:Hw; cbn.
  - assert (w ∈ dom (_node G)) as Hin by (rewrite <- Hs; apply elem_of_dom; eauto).
    rewrite Hs, Hp. set_solver.
  - by rewrite !dom_insert_L, Hs, Hp.
Qed.

Lemma graph_ok_new (fp : list string) : graph_ok (new_DiGraph fp).
Proof.
  split; [done |]. split; [done |]. intros n. unfold nodes_of. cbn. rewrite dom_empty_L.
  split; [set_solver |]. intros (u & v & dd & H & _).
  unfold edge_data in H. cbn in H. by rewrite lookup_empty in H.
Qed.

Lemma graph_ok_add_edge (G : DiGraph) (e : edge) :
  graph_ok G → graph_ok (add_edge G e).
Proof.
  destruct e as [[u v] dd]. intros (Hs & Hp & Hnodes).
  destruct (ensure_node_doms G u Hs Hp) as (Hs1 & Hp1 & Hn1).
  destruct (ensure_node_doms (ensure_node u G) v) as (Hs2 & Hp2 & Hn2);
    [by rewrite Hs1, Hn1 | by rewrite Hp1, Hn1 |].
  rewrite Hn1 in Hs2, Hp2, Hn2.
  assert (nodes_of (add_edge G (u, v, dd)) = {[u; v]} ∪ nodes_of G) as Hnew.
  { unfold nodes_of, add_edge. cbn. rewrite Hn2. set_solver. }
  split; [| split].
  - change (dom (_succ (add_edge G (u, v, dd))) = nodes_of (add_edge G (u, v, dd))).
    rewrite Hnew. unfold add_edge, nodes_of. cbn.
    rewrite dom_insert_L, Hs2. set_solver.
  - change (dom (_pred (add_edge G (u, v, dd))) = nodes_of (add_edge G (u, v, dd))).
    rewrite Hnew. unfold add_edge, nodes_of. cbn.
    rewrite dom_insert_L, Hp2. set_solver.
  - intros n. rewrite Hnew, elem_of_union, Hnodes. split.
    + intros [Hn | (a & b & d & Hab & Hn)].
      * exists u, v. eexists. rewrite edge_data_add_edge, decide_True by done.
        split; [done | set_solver].
      * destruct (decide (u = a ∧ v = b)) as [[-> ->] | Hne].
        -- exists a, b. eexists. rewrite edge_data_add_edge, decide_True by done.
           done.
        -- exists a, b, d. by rewrite edge_data_add_edge, decide_False.
    + intros (a & b & d & Hab & Hn). rewrite edge_data_add_edge in Hab.
      destruct (decide (u = a ∧ v = b)) as [[-> ->] | Hne].
      * left. set_solver.
      * right. by exists a, b, d.
Qed.

Lemma graph_ok_add_edges_from (G : DiGraph) (l : list edge) :
  graph_ok G → graph_ok (add_edges_from G l).
Proof.
  intros HG. induction l as [| e l IH] using rev_ind; [done |].
  rewrite add_edges_from_snoc. by apply graph_ok_add_edge.
Qed.

Lemma tag_update (dd old : attrs) :
  dd = control_tag ∨ dd = data_tag →
  old = ∅ ∨ old = control_tag ∨ old = data_tag →
  dd ∪ old = dd.
Proof. intros [-> | ->] [-> | [-> | ->]]; by vm_compute. Qed.

Lemma tags_ok_old (G : DiGraph) (u v : Z) :
  tags_ok G →
  let old := default ∅ (edge_data G u v) in
  old = ∅ ∨ old = control_tag ∨ old = data_tag.
Proof.
  intros HG. cbn. destruct (edge_data G u v) as [dd |] eqn:E; cbn; [| by left].
  right. by eapply HG.
Qed.

Lemma tags_ok_new (fp : list string) : tags_ok (new_DiGraph fp).
Proof. intros u v dd H. unfold edge_data in H. cbn in H. by rewrite lookup_empty in H. Qed.

Lemma tags_ok_add_edge (G : DiGraph) (u v : Z) (dd : attrs) :
  tags_ok G → dd = control_tag ∨ dd = data_tag → tags_ok (add_edge G (u, v, dd)).
Proof.
  intros HG Hdd a b d. rewrite edge_data_add_edge.
  case_decide; [| apply HG].
  rewrite (tag_update dd _ Hdd (tags_ok_old G u v HG)). by intros [= <-].
Qed.

Lemma tags_ok_add_edges_from (G : DiGraph) (l : list edge) :
  tags_ok G →
  (∀ e, e ∈ l → e.2 = control_tag ∨ e.2 = data_tag) →
  tags_ok (add_edges_from G l).
Proof.
  intros HG. induction l as [| [[u v] dd] l IH] using rev_ind; intros Hl; [done |].
  rewrite add_edges_from_snoc. apply tags_ok_add_edge.
  - apply IH. intros e He. apply Hl, elem_of_app. by left.
  - apply (Hl (u, v, dd)), elem_of_app. right. by apply list_elem_of_singleton.
Qed.

(** Edges added with one and the same tag leave that tag on every pair
    they name, whatever tag the pair had before. *)
Lemma add_edges_from_tag (G : DiGraph) (l : list edge) (tag : attrs) (u v : Z) :
  tags_ok G → tag = control_tag ∨ tag = data_tag →
  (∀ e, e ∈ l → e.2 = tag) →
  (u, v, tag) ∈ l →
  edge_data (add_edges_from G l) u v = Some tag.
Proof.
  intros HG Htag. induction l as [| [[a b] dd] l IH] using rev_ind; intros Hl Hin.
  - by apply elem_of_nil in Hin.
  - rewrite add_edges_from_snoc, edge_data_add_edge.
    assert (dd = tag) as ->.
    { apply (Hl (a, b, dd)), elem_of_app. right. by apply list_elem_of_singleton. }
    assert (tags_ok (add_edges_from G l)) as Hok.
    { apply tags_ok_add_edges_from; [done |]. intros e He.
      rewrite (Hl e); [done |]. apply elem_of_app. by left. }
    case_decide as Hab.
    + by rewrite (tag_update tag _ Htag (tags_ok_old _ a b Hok)).
    + apply IH.
      * intros e He. apply Hl, elem_of_app. by left.
      * apply elem_of_app in Hin as [Hin | Hin]; [done |].
        apply list_elem_of_singleton in Hin. injection Hin as -> ->.
        by destruct Hab.
Qed.

(** ** The edge loop of the constructor *)

Lemma edge_step_Ok (m : gmap string Z) (ce de : list edge) (e : row) acc :
  edge_step m (ce, de) e = Ok acc →
  acc = (ce ++ control_contribution m e, de ++ data_contribution m e).
Proof.
  unfold edge_step, control_contribution, data_contribution, edge_resolves, getitem.
  destruct (e !! "type") as [ty |]; [| done]. cbn.
  destruct (e !! "start") as [start |]; [| done]. cbn.
  destruct (e !! "end") as [end_ |]; [| done]. cbn.
  destruct (m !! PyStr.strip start) as [s |]; cbn;
    [destruct (m !! PyStr.strip end_) as [t |]; cbn |].
  - intros [= <-]. by do 2 case_bool_decide; rewrite ?app_nil_r.
  - intros [= <-]. by rewrite !app_nil_r.
  - intros [= <-]. by rewrite !app_nil_r.
Qed.

Lemma edge_loop_Ok (m : gmap string Z) (edges : list row) (ce0 de0 ce de : list edge) :
  foldlM (edge_step m) (ce0, de0) edges = Ok (ce, de) →
  ce = ce0 ++ (edges ≫= control_contribution m) ∧
  de = de0 ++ (edges ≫= data_contribution m).
Proof.
  revert ce0 de0. induction edges as [| e edges IH]; intros ce0 de0.
  - cbn. intros [= <- <-]. by rewrite !app_nil_r.
  - cbn [foldlM]. destruct (edge_step m (ce0, de0) e) as [acc | |] eqn:E; [| done | done].
    apply edge_step_Ok in E as ->. intros H.
    change (foldlM (edge_step m)
              (ce0 ++ control_contribution m e, de0 ++ data_contribution m e) edges
            = Ok (ce, de)) in H.
    apply IH in H as [-> ->].
    by rewrite !bind_cons, !app_assoc.
Qed.

Lemma elem_of_data_contribution (m : gmap string Z) (edges : list row) (x : edge) :
  x ∈ edges ≫= data_contribution m ↔
  ∃ e s t, e ∈ edges ∧ edge_resolves m e = Some ("REACHES", s, t) ∧ x = (s, t, data_tag).
Proof.
  rewrite list_elem_of_bind. unfold data_contribution. split.
  - intros [e [Hx He]]. destruct (edge_resolves m e) as [[[ty s] t] |] eqn:E.
    + case_bool_decide as Hty; [| by apply elem_of_nil in Hx].
      apply list_elem_of_singleton in Hx. subst. by exists e, s, t.
    + by apply elem_of_nil in Hx.
  - intros (e & s & t & He & E & ->). exists e. rewrite E.
    rewrite bool_decide_eq_true_2 by done. split; [by apply list_elem_of_singleton | done].
Qed.

Lemma elem_of_control_contribution (m : gmap string Z) (edges : list row) (x : edge) :
  x ∈ edges ≫= control_contribution m ↔
  ∃ e s t, e ∈ edges ∧ edge_resolves m e = Some ("CONTROLS", s, t) ∧ x = (s, t, control_tag).
Proof.
  rewrite list_elem_of_bind. unfold control_contribution. split.
  - intros [e [Hx He]]. destruct (edge_resolves m e) as [[[ty s] t] |] eqn:E.
    + case_bool_decide as Hty; [| by apply elem_of_nil in Hx].
      apply list_elem_of_singleton in Hx. subst. by exists e, s, t.
    + by apply elem_of_nil in Hx.
  - intros (e & s & t & He & E & ->). exists e. rewrite E.
    rewrite bool_decide_eq_true_2 by done. split; [by apply list_elem_of_singleton | done].
Qed.

(** What a successful run of the constructor on loaded tables did. *)
Lemma build_PDG_tables_inv (nodes edges : list row) (sensi_api_set : gset string)
    (source_path : string) (PDG : DiGraph) (klm : option key_line_map) :
  build_PDG_tables nodes edges sensi_api_set source_path = Ok (Some PDG, klm) →
  ∃ kl info,
    foldlM (classify_step nodes sensi_api_set)
           {| call_lines := ∅; array_lines := ∅; ptr_lines := ∅;
              arithmatic_lines := ∅ |} (enumerate nodes) = Ok kl ∧
    extract_nodes_with_location_info nodes = Ok info ∧
    PDG = add_edges_from
            (add_edges_from (new_DiGraph [source_path])
               (edges ≫= control_contribution (node_id_to_line_number info)))
            (edges ≫= data_contribution (node_id_to_line_number info)) ∧
    klm = Some {[ "call" := call_lines kl; "array" := array_lines kl;
                  "ptr" := ptr_lines kl; "arith" := arithmatic_lines kl ]}.
Proof.
  unfold build_PDG_tables. case_bool_decide; [done |].
  destruct (foldlM (classify_step _ _) _ _) as [kl | |]; [| done | done]. cbn.
  destruct (extract_nodes_with_location_info nodes) as [info | |]; [| done | done]. cbn.
  destruct (foldlM (edge_step _) _ _) as [[ce de] | |] eqn:E; [| done | done]. cbn.
  apply edge_loop_Ok in E as [-> ->]. cbn. intros [= <- <-].
  by exists kl, info.
Qed.

Lemma build_PDG_inv (fs : filesystem) (code_path sensi_api_path source_path : string)
    (PDG : DiGraph) (klm : option key_line_map) :
  build_PDG fs code_path sensi_api_path source_path = Ok (Some PDG, klm) →
  ∃ nodes edges sensi_api_set,
    read_csv fs (join code_path "nodes.csv") = Ok nodes ∧
    read_csv fs (join code_path "edges.csv") = Ok edges ∧
    build_PDG_tables nodes edges sensi_api_set source_path = Ok (Some PDG, klm).
Proof.
  unfold build_PDG. destruct (assert _); [| done | done]. simpl_result.
  destruct (read_text fs sensi_api_path) as [text | |]; [| done | done]. simpl_result.
  destruct (_ || _); [done |].
  destruct (read_csv fs (join code_path "nodes.csv")) as [nodes | |]; [| done | done].
  simpl_result.
  destruct (read_csv fs (join code_path "edges.csv")) as [edges | |]; [| done | done].
  simpl_result.
  intros H. by eexists nodes, edges, _.
Qed.

Lemma PDG_graph_ok (nodes edges : list row) (sensi_api_set : gset string)
    (source_path : string) (PDG : DiGraph) (klm : option key_line_map) :
  build_PDG_tables nodes edges sensi_api_set source_path = Ok (Some PDG, klm) →
  graph_ok PDG ∧ tags_ok PDG.
Proof.
  intros H. apply build_PDG_tables_inv in H as (kl & info & _ & _ & -> & _). split.
  - do 2 apply graph_ok_add_edges_from. apply graph_ok_new.
  - apply tags_ok_add_edges_from; [apply tags_ok_add_edges_from |].
    + apply tags_ok_new.
    + intros e He. apply elem_of_control_contribution in He as (? & ? & ? & _ & _ & ->).
      by left.
    + intros e He. apply elem_of_data_contribution in He as (? & ? & ? & _ & _ & ->).
      by right.
Qed.

(** A REACHES row that resolves leaves a data-tagged edge in the PDG, also
    when a CONTROLS row resolves to the same pair of lines. *)
Lemma PDG_data_edge (nodes edges : list row) (sensi_api_set : gset string)
    (source_path : string) (PDG : DiGraph) (klm : option key_line_map)
    (info : location_info) (e : row) (s t : Z) :
  build_PDG_tables nodes edges sensi_api_set source_path = Ok (Some PDG, klm) →
  extract_nodes_with_location_info nodes = Ok info →
  e ∈ edges →
  edge_resolves (node_id_to_line_number info) e = Some ("REACHES", s, t) →
  edge_data PDG s t = Some data_tag.
Proof.
  intros H Hinfo He Hres.
  apply build_PDG_tables_inv in H as (kl & info' & _ & Hinfo' & -> & _).
  rewrite Hinfo in Hinfo'. injection Hinfo' as <-.
  apply add_edges_from_tag.
  - apply tags_ok_add_edges_from; [apply tags_ok_new |].
    intros x Hx. apply elem_of_control_contribution in Hx as (? & ? & ? & _ & _ & ->).
    by left.
  - by right.
  - intros x Hx. by apply elem_of_data_contribution in Hx as (? & ? & ? & _ & _ & ->).
  - apply elem_of_data_contribution. by exists e, s, t.
Qed.

(** The edges of the PDG, read off the edge table: a pair of lines named
    by a resolved REACHES row has a data-tagged edge ([PDG_data_edge]); a
    pair named by a resolved CONTROLS row and by no REACHES row has a
    control-tagged edge; any other pair has no edge. *)
Lemma add_edges_from_other (G : DiGraph) (l : list edge) (u v : Z) :
  (∀ dd, (u, v, dd) ∉ l) →
  edge_data (add_edges_from G l) u v = edge_data G u v.
Proof.
  induction l as [| [[a b] dd] l IH] using rev_ind; intros Hl; [done |].
  rewrite add_edges_from_snoc, edge_data_add_edge. case_decide as Hab.
  - destruct Hab as [-> ->]. exfalso. apply (Hl dd), elem_of_app. right.
    by apply list_elem_of_singleton.
  - apply IH. intros d Hd. apply (Hl d), elem_of_app. by left.
Qed.

Lemma PDG_control_edge (nodes edges : list row) (sensi_api_set : gset string)
    (source_path : string) (PDG : DiGraph) (klm : option key_line_map)
    (info : location_info) (e : row) (s t : Z) :
  build_PDG_tables nodes edges sensi_api_set source_path = Ok (Some PDG, klm) →
  extract_nodes_with_location_info nodes = Ok info →
  e ∈ edges →
  edge_resolves (node_id_to_line_number info) e = Some ("CONTROLS", s, t) →
  (∀ e', e' ∈ edges →
         edge_resolves (node_id_to_line_number info) e' ≠ Some ("REACHES", s, t)) →
  edge_data PDG s t = Some control_tag.
Proof.
  intros H Hinfo He Hres Hnone.
  apply build_PDG_tables_inv in H as (kl & info' & _ & Hinfo' & -> & _).
  rewrite Hinfo in Hinfo'. injection Hinfo' as <-.
  rewrite add_edges_from_other.
  - apply add_edges_from_tag; [apply tags_ok_new | by left | |].
    + intros x Hx.
      by apply elem_of_control_contribution in Hx as (? & ? & ? & _ & _ & ->).
    + apply elem_of_control_contribution. by exists e, s, t.
  - intros dd Hdd.
    apply elem_of_data_contribution in Hdd as (e' & s' & t' & He' & Hres' & [= -> -> _]).
    by apply (Hnone e').
Qed.

Lemma PDG_no_edge (nodes edges : list row) (sensi_api_set : gset string)
    (source_path : string) (PDG : DiGraph) (klm : option key_line_map)
    (info : location_info) (s t : Z) :
  build_PDG_tables nodes edges sensi_api_set source_path = Ok (Some PDG, klm) →
  extract_nodes_with_location_info nodes = Ok info →
  (∀ e, e ∈ edges →
        edge_resolves (node_id_to_line_number info) e ≠ Some ("CONTROLS", s, t) ∧
        edge_resolves (node_id_to_line_number info) e ≠ Some ("REACHES", s, t)) →
  edge_data PDG s t = None.
Proof.
  intros H Hinfo Hnone.
  apply build_PDG_tables_inv in H as (kl & info' & _ & Hinfo' & -> & _).
  rewrite Hinfo in Hinfo'. injection Hinfo' as <-.
  rewrite !add_edges_from_other.
  - unfold edge_data. cbn. by rewrite lookup_empty.
  - intros dd Hdd.
    apply elem_of_control_contribution in Hdd as (e' & s' & t' & He' & Hres' & [= -> -> _]).
    by destruct (Hnone e' He').
  - intros dd Hdd.
    apply elem_of_data_contribution in Hdd as (e' & s' & t' & He' & Hres' & [= -> -> _]).
    by destruct (Hnone e' He').
Qed.

Lemma filter_none {A} (P : A → Prop) `{∀ x, Decision (P x)} (l : list A) :
  (∀ y, y ∈ l → ¬ P y) → filter P l = [].
Proof.
  induction l as [| a l IH]; intros Hl; [done |].
  rewrite filter_cons_False by (apply Hl; by left).
  apply IH. intros y Hy. apply Hl. by right.
Qed.

Lemma filter_unique {A B} `{EqDecision B} (f : A → B) (l : list A) (x : A) :
  NoDup (f <$> l) → x ∈ l → filter (fun y => f y = f x) l = [x].
Proof.
  induction l as [| a l IH]; intros Hnd Hin; [by apply elem_of_nil in Hin |].
  rewrite fmap_cons in Hnd. apply NoDup_cons in Hnd as [Hnotin Hnd].
  apply elem_of_cons in Hin as [-> | Hin].
  - rewrite filter_cons_True by done. f_equal.
    apply filter_none. intros y Hy Hfy.
    apply Hnotin. rewrite <- Hfy. by apply list_elem_of_fmap_2.
  - rewrite filter_cons_False; [by apply IH |].
    intros Hfa. apply Hnotin. rewrite Hfa. by apply list_elem_of_fmap_2.
Qed.

(** C10. A PDG built by [build_PDG] lists every ordered pair of lines at
    most once among its edges; when a CONTROLS row and a REACHES row of the
    edge table resolve to the same pair, the one edge of that pair carries
    the data tag. *)
Theorem PDG_single_edge_per_pair (fs : filesystem)
    (code_path sensi_api_path source_path : string)
    (PDG : DiGraph) (klm : option key_line_map) :
  build_PDG fs code_path sensi_api_path source_path = Ok (Some PDG, klm) →
  NoDup (edge_pairs PDG) ∧
  ∀ nodes edges info ec ed s t,
    read_csv fs (join code_path "nodes.csv") = Ok nodes →
    read_csv fs (join code_path "edges.csv") = Ok edges →
    extract_nodes_with_location_info nodes = Ok info →
    ec ∈ edges → ed ∈ edges →
    edge_resolves (node_id_to_line_number info) ec = Some ("CONTROLS", s, t) →
    edge_resolves (node_id_to_line_number info) ed = Some ("REACHES", s, t) →
    filter (fun e : edge => (e.1.1, e.1.2) = (s, t)) (edges_of PDG) = [(s, t, data_tag)].
Proof.
  intros H. split; [apply NoDup_edge_pairs |].
  intros nodes edges info ec ed s t Hnodes Hedges Hinfo Hec Hed Hc Hd.
  apply build_PDG_inv in H as (nodes' & edges' & sensi & Hnodes' & Hedges' & H).
  rewrite Hnodes in Hnodes'. injection Hnodes' as <-.
  rewrite Hedges in Hedges'. injection Hedges' as <-.
  pose proof (PDG_data_edge _ _ _ _ _ _ _ _ _ _ H Hinfo Hed Hd) as Hdata.
  apply elem_of_edges_of in Hdata.
  apply (filter_unique (fun e : edge => (e.1.1, e.1.2)) _ (s, t, data_tag));
    [apply NoDup_edge_pairs | done].
Qed.

Lemma PDG_single_edge_per_pair_witness :
  NoDup (edge_pairs both_PDG) ∧
  filter (fun e : edge => (e.1.1, e.1.2) = (10, 12)) (edges_of both_PDG)
  = [(10, 12, data_tag)].
Proof.
  destruct (PDG_single_edge_per_pair both_fs "csv/e.c" "data/sensiAPI.txt" "e.c"
              both_PDG (Some no_key_lines)) as [Hnd Hone].
  { vm_compute. reflexivity. }
  split; [exact Hnd |].
  apply (Hone both_nodes [both_control; both_data] both_info both_control both_data).
  - vm_compute. reflexivity.
  - vm_compute. reflexivity.
  - vm_compute. reflexivity.
  - apply list_elem_of_here.
  - apply list_elem_of_further, list_elem_of_here.
  - vm_compute. reflexivity.
  - vm_compute. reflexivity.
Defined.





Example edge_step_rounds :
  edge_step {[ "0" := 10; "1" := 12 ]} ([], []) both_control
  = Ok ([(10, 12, control_tag)], []) ∧
  edge_step {[ "0" := 10; "1" := 12 ]} ([], []) both_data
  = Ok ([], [(10, 12, data_tag)]) ∧
  edge_step {[ "0" := 10 ]} ([], []) both_data = Ok ([], []).
Proof. repeat split; vm_compute; reflexivity. Qed.

(** ** The traversals of the slice extractor *)

Lemma visit_cons (n : Z) (nbrs : list Z) (visited : gset Z) (queue : list Z) :
  visit (n :: nbrs) visited queue
  = if bool_decide (n ∈ visited) then visit nbrs visited queue
    else visit nbrs ({[n]} ∪ visited) (queue ++ [n]).
Proof. unfold visit. cbn [foldl]. by case_bool_decide. Qed.

Lemma visit_spec (U : gset Z) (nbrs : list Z) (visited : gset Z) (queue : list Z) :
  (∀ n, n ∈ nbrs → n ∈ U) →
  ∃ visited' added,
    visit nbrs visited queue = (visited', queue ++ added) ∧
    visited ⊆ visited' ∧
    (size (U ∖ visited') + length added ≤ size (U ∖ visited))%nat.
Proof.
  revert visited queue. induction nbrs as [| n nbrs IH]; intros visited queue HU.
  - exists visited, []. rewrite app_nil_r. split; [done |]. split; [done |].
    cbn [length]. lia.
  - rewrite visit_cons.
    assert (∀ n', n' ∈ nbrs → n' ∈ U) as HU' by (intros n' ?; apply HU; by right).
    case_bool_decide as Hn.
    + apply IH, HU'.
    + destruct (IH ({[n]} ∪ visited) (queue ++ [n]) HU') as (v' & added & Hv & Hsub & Hsize).
      exists v', (n :: added). split; [| split].
      * by rewrite Hv, <- app_assoc.
      * clear -Hsub. set_solver.
      * assert (n ∈ U) as HnU by (apply HU; by left).
        assert (n ∈ U ∖ visited) as Hfresh by (by apply elem_of_difference).
        assert (U ∖ ({[n]} ∪ visited) = (U ∖ visited) ∖ {[n]}) as E.
        { apply set_eq. intros x.
          rewrite !elem_of_difference, elem_of_union, elem_of_singleton. tauto. }
        assert ({[n]} ⊆ U ∖ visited) as Hsingle by (by apply singleton_subseteq_l).
        rewrite E, (size_difference _ _ Hsingle), size_singleton in Hsize.
        assert (0 < size (U ∖ visited))%nat.
        { apply (Nat.lt_le_trans _ (size ({[n]} : gset Z))).
          - rewrite size_singleton. lia.
          - by apply subseteq_size. }
        cbn [length]. lia.
Qed.

Lemma neighbours_spec (adj : adjacency) (fro : Z) (nbrs : gmap Z attrs) (n : Z) :
  adj !! fro = Some nbrs → n ∈ (map_to_list nbrs).*1 → n ∈ neighbours adj.
Proof.
  intros Hfro Hn. unfold neighbours. apply elem_of_union_list.
  exists (dom nbrs). split.
  - apply list_elem_of_fmap_2, list_elem_of_fmap. exists (fro, nbrs).
    split; [done | by apply elem_of_map_to_list].
  - apply list_elem_of_fmap in Hn as [[n' dd] [-> Hn]].
    apply elem_of_map_to_list in Hn. apply elem_of_dom. by exists dd.
Qed.

(** With a budget of one round per line that can still be queued, the
    loop of a traversal ends, and its result has the lines it started
    with and the lines of its queue. *)
Lemma traverse_terminates (adj : adjacency) (fuel : nat) (queue : list Z)
    (visited sliced_lines : gset Z) :
  (size (neighbours adj ∖ visited) + length queue ≤ fuel)%nat →
  ∃ s, traverse adj fuel queue visited sliced_lines = Ok s ∧
       sliced_lines ⊆ s ∧ ∀ n, n ∈ queue → n ∈ s.
Proof.
  revert queue visited sliced_lines.
  induction fuel as [| fuel IH]; intros queue visited sliced Hfuel.
  - destruct queue as [| fro queue]; [| cbn in Hfuel; lia].
    exists sliced. split; [done |]. split; [done |]. by intros n Hn%elem_of_nil.
  - destruct queue as [| fro queue].
    { exists sliced. split; [done |]. split; [done |]. by intros n Hn%elem_of_nil. }
    cbn [traverse]. cbn [length] in Hfuel.
    destruct (adj !! fro) as [nbrs |] eqn:Hfro.
    + destruct (visit_spec (neighbours adj) (map_to_list nbrs).*1 visited queue)
        as (v' & added & -> & Hsub & Hsize).
      { intros n. by apply (neighbours_spec adj fro nbrs). }
      destruct (IH (queue ++ added) v' ({[fro]} ∪ sliced)) as (s & Hs & Hsl & Hq).
      { rewrite length_app. lia. }
      exists s. split; [done |]. split; [clear -Hsl; set_solver |].
      intros n [-> | Hn]%elem_of_cons; [clear -Hsl; set_solver |].
      apply Hq, elem_of_app. by left.
    + destruct (IH queue visited ({[fro]} ∪ sliced)) as (s & Hs & Hsl & Hq); [lia |].
      exists s. split; [done |]. split; [clear -Hsl; set_solver |].
      intros n [-> | Hn]%elem_of_cons; [clear -Hsl; set_solver | by apply Hq].
Qed.

Lemma traverse_from_terminates (adj : adjacency) (ln : Z) (sliced_lines : gset Z) :
  ∃ s, traverse_from adj ln sliced_lines = Ok s ∧ sliced_lines ⊆ s ∧ ln ∈ s.
Proof.
  unfold traverse_from.
  destruct (traverse_terminates adj (S (size (neighbours adj))) [ln] {[ln]} sliced_lines)
    as (s & Hs & Hsl & Hq).
  - assert (size (neighbours adj ∖ {[ln]}) ≤ size (neighbours adj))%nat
      by (apply subseteq_size; set_solver).
    cbn [length]. lia.
  - exists s. split; [done |]. split; [done |]. apply Hq. by left.
Qed.

(** A line that is no key of the adjacency table is the only line its
    traversal adds. *)
Lemma traverse_from_isolated (adj : adjacency) (ln : Z) (sliced_lines : gset Z) :
  adj !! ln = None → traverse_from adj ln sliced_lines = Ok ({[ln]} ∪ sliced_lines).
Proof.
  intros H. unfold traverse_from. cbn [traverse]. rewrite H.
  by destruct (size (neighbours adj)).
Qed.

(** The two passes end, and the key line is among the lines they collect. *)
Lemma slice_lines_terminates (PDG : DiGraph) (ln : Z) :
  ∃ sliced_lines, slice_lines PDG ln = Ok sliced_lines ∧ ln ∈ sliced_lines.
Proof.
  unfold slice_lines.
  destruct (traverse_from_terminates (_pred PDG) ln ∅) as (s1 & -> & _ & _).
  simpl_result.
  destruct (traverse_from_terminates (_succ PDG) ln s1) as (s2 & -> & _ & Hln).
  by exists s2.
Qed.

Lemma extract_XFG_terminates (PDG : DiGraph) (ln : Z) :
  ∃ sliced_lines,
    slice_lines PDG ln = Ok sliced_lines ∧ ln ∈ sliced_lines ∧
    extract_XFG PDG ln
    = Ok (Some (set_key_line ln (subgraph_copy PDG (elements sliced_lines)))).
Proof.
  destruct (slice_lines_terminates PDG ln) as (s & Hs & Hln).
  exists s. split; [done |]. split; [done |].
  unfold extract_XFG. rewrite Hs. simpl_result.
  rewrite bool_decide_eq_true_2; [done |].
  apply size_non_empty_iff. set_solver.
Qed.

Lemma elem_of_nodes_of_subgraph_copy (G : DiGraph) (l : list Z) (n : Z) :
  n ∈ nodes_of (subgraph_copy G l) ↔ n ∈ l ∧ n ∈ dom (_succ G) ∧ n ∈ nodes_of G.
Proof.
  unfold nodes_of, subgraph_copy. cbn. rewrite !elem_of_dom. split.
  - intros [x Hx]. apply map_lookup_filter_Some in Hx as [Hx Hkeep]. cbn in Hkeep.
    apply elem_of_filter in Hkeep as [Hs Hl]. apply elem_of_list_to_set in Hl.
    apply elem_of_dom in Hs. eauto.
  - intros (Hl & Hs & [x Hx]). exists x. apply map_lookup_filter_Some.
    split; [done |]. cbn. apply elem_of_filter.
    split; [by apply elem_of_dom | by apply elem_of_list_to_set].
Qed.

(** ** The slices of a file *)

Lemma XFG_loop (PDG : DiGraph) (key : string) (lns : list Z) (res : XFG_map)
    (slices0 : list DiGraph) :
  res !! key = Some slices0 →
  ∃ slices,
    foldlM (XFG_step PDG key) res lns = Ok (<[key := slices0 ++ slices]> res) ∧
    Forall2 (fun ln XFG => extract_XFG PDG ln = Ok (Some XFG)) lns slices.
Proof.
  revert res slices0. induction lns as [| ln lns IH]; intros res slices0 Hres.
  - exists []. split; [| constructor]. by rewrite app_nil_r, insert_id.
  - destruct (extract_XFG_terminates PDG ln) as (s & _ & _ & HX).
    destruct (IH (<[key := slices0 ++ [set_key_line ln (subgraph_copy PDG (elements s))]]> res)
                 (slices0 ++ [set_key_line ln (subgraph_copy PDG (elements s))]))
      as (slices & Hloop & Hall); [by rewrite lookup_insert_eq |].
    exists (set_key_line ln (subgraph_copy PDG (elements s)) :: slices).
    split; [| by constructor].
    assert (XFG_step PDG key res ln
            = Ok (<[key := slices0 ++ [set_key_line ln (subgraph_copy PDG (elements s))]]> res))
      as Hstep.
    { unfold XFG_step. rewrite HX. simpl_result. unfold getitem. by rewrite Hres. }
    cbn [foldlM]. rewrite Hstep. simpl_result.
    by rewrite Hloop, insert_insert_eq, <- app_assoc.
Qed.

Lemma category_step_spec (PDG : DiGraph) (klm : key_line_map) (res : XFG_map)
    (key : string) (lns : gset Z) :
  klm !! key = Some lns → res !! key = Some [] →
  ∃ slices,
    category_step PDG klm res key = Ok (<[key := slices]> res) ∧
    Forall2 (fun ln XFG => extract_XFG PDG ln = Ok (Some XFG)) (elements lns) slices.
Proof.
  intros Hklm Hres. unfold category_step, getitem. rewrite Hklm. simpl_result.
  destruct (XFG_loop PDG key (elements lns) res [] Hres) as (slices & Hloop & Hall).
  by exists slices.
Qed.

(** On a key-line map with the four categories the extractor returns, and
    the list it returns for a category holds the slices of the key lines
    of that category, one per key line. *)
Lemma build_XFG_spec (PDG : DiGraph) (klm : key_line_map) :
  (∀ key, key ∈ categories → is_Some (klm !! key)) →
  ∃ res,
    build_XFG (Some PDG) (Some klm) = Ok (Some res) ∧
    ∀ key, key ∈ categories →
      ∃ lns slices,
        klm !! key = Some lns ∧ res !! key = Some slices ∧
        Forall2 (fun ln XFG => extract_XFG PDG ln = Ok (Some XFG)) (elements lns) slices.
Proof.
  intros Hkeys.
  destruct (Hkeys "call") as [l1 H1]; [set_solver |].
  destruct (Hkeys "array") as [l2 H2]; [set_solver |].
  destruct (Hkeys "ptr") as [l3 H3]; [set_solver |].
  destruct (Hkeys "arith") as [l4 H4]; [set_solver |].
  unfold build_XFG, categories. cbn [foldlM].
  set (res0 := ({[ "call" := []; "array" := []; "ptr" := []; "arith" := [] ]} : XFG_map)).
  destruct (category_step_spec PDG klm res0 "call" l1 H1) as (s1 & -> & F1); [done |].
  simpl_result.
  destruct (category_step_spec PDG klm (<["call" := s1]> res0) "array" l2 H2)
    as (s2 & -> & F2); [done |].
  simpl_result.
  destruct (category_step_spec PDG klm (<["array" := s2]> (<["call" := s1]> res0))
              "ptr" l3 H3) as (s3 & -> & F3); [done |].
  simpl_result.
  destruct (category_step_spec PDG klm
              (<["ptr" := s3]> (<["array" := s2]> (<["call" := s1]> res0)))
              "arith" l4 H4) as (s4 & -> & F4); [done |].
  simpl_result.
  eexists. split; [reflexivity |].
  intros key Hkey.
  repeat (apply elem_of_cons in Hkey as [-> | Hkey]); [| | | | by apply elem_of_nil in Hkey].
  - by exists l1, s1.
  - by exists l2, s2.
  - by exists l3, s3.
  - by exists l4, s4.
Qed.

Lemma build_PDG_key_line_map (fs : filesystem)
    (code_path sensi_api_path source_path : string)
    (PDG : DiGraph) (klm : key_line_map) :
  build_PDG fs code_path sensi_api_path source_path = Ok (Some PDG, Some klm) →
  graph_ok PDG ∧ ∀ key, key ∈ categories → is_Some (klm !! key).
Proof.
  intros H. apply build_PDG_inv in H as (nodes & edges & sensi & _ & _ & H).
  split; [by eapply PDG_graph_ok |].
  apply build_PDG_tables_inv in H as (kl & info & _ & _ & _ & [= ->]).
  intros key Hkey.
  repeat (apply elem_of_cons in Hkey as [-> | Hkey]); [| | | | by apply elem_of_nil in Hkey];
    by eexists.
Qed.

(** The vertices of the slice of a line in a graph built by
    [add_edges_from]. *)
Lemma slice_vertices (PDG : DiGraph) (ln : Z) (sliced_lines : gset Z) :
  graph_ok PDG →
  slice_lines PDG ln = Ok sliced_lines →
  nodes_of (set_key_line ln (subgraph_copy PDG (elements sliced_lines)))
  = sliced_lines ∩ nodes_of PDG ∧
  (untouched PDG ln → sliced_lines = {[ln]} ∧ ln ∉ nodes_of PDG).
Proof.
  intros (Hs & Hp & Hnodes) Hslice. split.
  - apply set_eq. intros n.
    change (nodes_of (set_key_line ln ?G)) with (nodes_of G).
    rewrite elem_of_nodes_of_subgraph_copy, elem_of_intersection, elem_of_elements, Hs.
    unfold nodes_of. tauto.
  - intros Hun.
    assert (ln ∉ nodes_of PDG) as Hnot.
    { intros (u & v & dd & Hedge & Hln)%Hnodes.
      apply elem_of_edges_of in Hedge. destruct (Hun u v dd Hedge) as [Hu Hv].
      by destruct Hln. }
    split; [| done].
    unfold slice_lines in Hslice.
    rewrite traverse_from_isolated in Hslice
      by (apply not_elem_of_dom; by rewrite Hp).
    cbn [mbind result_bind] in Hslice.
    rewrite traverse_from_isolated in Hslice
      by (apply not_elem_of_dom; by rewrite Hs).
    injection Hslice as <-. set_solver.
Qed.

(** C1, as the code has it. For a PDG and key-line map built by
    [build_PDG], [build_XFG] returns, and for every category and every key
    line of it the list of that category holds the slice of the key line,
    tagged with it. The lines the two passes collect always include the key
    line; the vertices of the slice are those lines that are vertices of the
    PDG. So the key line is a vertex of its slice exactly when a PDG edge
    starts or ends at it, and the slice of a key line that no edge touches
    has no vertex at all. *)
Theorem key_line_slice (fs : filesystem)
    (code_path sensi_api_path source_path : string)
    (PDG : DiGraph) (klm : key_line_map) :
  build_PDG fs code_path sensi_api_path source_path = Ok (Some PDG, Some klm) →
  ∃ res,
    build_XFG (Some PDG) (Some klm) = Ok (Some res) ∧
    ∀ key, key ∈ categories →
      ∃ lns slices,
        klm !! key = Some lns ∧ res !! key = Some slices ∧
        Forall2 (fun ln XFG => extract_XFG PDG ln = Ok (Some XFG)) (elements lns) slices ∧
        ∀ ln, ln ∈ lns →
          ∃ sliced_lines XFG,
            XFG ∈ slices ∧
            extract_XFG PDG ln = Ok (Some XFG) ∧
            key_line XFG = Some ln ∧
            slice_lines PDG ln = Ok sliced_lines ∧
            ln ∈ sliced_lines ∧
            nodes_of XFG = sliced_lines ∩ nodes_of PDG ∧
            (ln ∈ nodes_of XFG ↔
             ∃ u v dd, (u, v, dd) ∈ edges_of PDG ∧ (ln = u ∨ ln = v)) ∧
            (untouched PDG ln → sliced_lines = {[ln]} ∧ nodes_of XFG = ∅).
Proof.
  intros H. apply build_PDG_key_line_map in H as [Hok Hkeys].
  destruct (build_XFG_spec PDG klm Hkeys) as (res & Hres & Hcat).
  exists res. split; [done |]. intros key Hkey.
  destruct (Hcat key Hkey) as (lns & slices & Hklm & Hslices & Hall).
  exists lns, slices. split; [done |]. split; [done |]. split; [done |].
  intros ln Hln.
  destruct (extract_XFG_terminates PDG ln) as (s & Hs & Hin & HX).
  destruct (slice_vertices PDG ln s Hok Hs) as [Hnodes Hisolated].
  exists s, (set_key_line ln (subgraph_copy PDG (elements s))).
  split; [| split; [done |]; split; [done |]; split; [done |]; split; [done |];
            split; [done |]; split].
  - apply elem_of_elements, list_elem_of_lookup in Hln as [i Hi].
    destruct (Forall2_lookup_l _ _ _ _ _ Hall Hi) as (X & HXi & HXe).
    rewrite HX in HXe. injection HXe as <-.
    apply list_elem_of_lookup. by exists i.
  - rewrite Hnodes, elem_of_intersection. destruct Hok as (_ & _ & Hends).
    rewrite Hends. split.
    + intros [_ (u & v & dd & Hedge & Huv)]. exists u, v, dd.
      by rewrite elem_of_edges_of.
    + intros (u & v & dd & Hedge & Huv). split; [done |]. exists u, v, dd.
      by rewrite <- elem_of_edges_of.
  - intros Hun. destruct (Hisolated Hun) as [-> Hnot]. split; [done |].
    rewrite Hnodes. set_solver.
Qed.

Lemma key_line_slice_witness :
  ∃ res,
    build_XFG (Some ex_PDG) (Some ex_klm) = Ok (Some res) ∧
    ∀ key, key ∈ categories →
      ∃ lns slices,
        ex_klm !! key = Some lns ∧ res !! key = Some slices ∧
        Forall2 (fun ln XFG => extract_XFG ex_PDG ln = Ok (Some XFG))
                (elements lns) slices ∧
        ∀ ln, ln ∈ lns →
          ∃ sliced_lines XFG,
            XFG ∈ slices ∧
            extract_XFG ex_PDG ln = Ok (Some XFG) ∧
            key_line XFG = Some ln ∧
            slice_lines ex_PDG ln = Ok sliced_lines ∧
            ln ∈ sliced_lines ∧
            nodes_of XFG = sliced_lines ∩ nodes_of ex_PDG ∧
            (ln ∈ nodes_of XFG ↔
             ∃ u v dd, (u, v, dd) ∈ edges_of ex_PDG ∧ (ln = u ∨ ln = v)) ∧
            (untouched ex_PDG ln → sliced_lines = {[ln]} ∧ nodes_of XFG = ∅).
Proof.
  apply (key_line_slice ex_fs "csv/a.c" "data/sensiAPI.txt" "a.c").
  vm_compute. reflexivity.
Defined.

(** C1, counterexample. The table has one array-indexing node at line 10
    and no edges: 10 is a key line, the PDG has no vertex, and the slice of
    key line 10 has no vertex either. *)
Lemma slice_contains_key_line_fails :
  ¬ slice_contains_key_line isolated_fs "csv/d.c" "data/sensiAPI.txt" "d.c".
Proof.
  intros H.
  destruct (H isolated_PDG isolated_klm "array" {[ 10 ]} 10) as (XFG & HX & Hin & _).
  - vm_compute. reflexivity.
  - unfold categories. set_solver.
  - vm_compute. reflexivity.
  - set_solver.
  - vm_compute in HX. injection HX as <-.
    unfold nodes_of in Hin. cbn [_node] in Hin.
    change (GMap GEmpty) with (∅ : gmap Z attrs) in Hin.
    rewrite dom_empty_L in Hin. by apply elem_of_empty in Hin.
Qed.

(** ** Supporting facts about the model *)

(** [add_edges_from] keeps the predecessor table the mirror image of the
    successor table, and the induced subgraph of such a graph is again
    mirrored: reading its predecessor table off the filtered table of the
    original, as [subgraph_copy] does, agrees with rebuilding it from the
    copied edges. *)
Lemma mirrored_ensure_node (G : DiGraph) (w : Z) :
  dom (_pred G) = dom (_succ G) →
  mirrored G →
  mirrored (ensure_node w G) ∧ dom (_pred (ensure_node w G)) = dom (_succ (ensure_node w G)).
Proof.
  intros Hdom Hm. unfold ensure_node.
  destruct (_succ G !! w) as [nbrs |] eqn:Hw; [done |]. split.
  - intros u v. unfold edge_data. cbn.
    specialize (Hm u v). unfold edge_data in Hm.
    assert (_pred G !! w = None) as Hpw.
    { apply not_elem_of_dom. rewrite Hdom. by apply not_elem_of_dom. }
    destruct (decide (w = v)) as [Ev | Hv], (decide (w = u)) as [Eu | Hu]; subst;
      rewrite ?lookup_insert_eq, ?lookup_insert_ne by done; cbn;
      rewrite ?lookup_empty; try done.
    + rewrite <- Hm, Hpw. done.
    + rewrite Hm, Hw. done.
  - cbn. by rewrite !dom_insert_L, Hdom.
Qed.

Lemma mirrored_add_edge (G : DiGraph) (e : edge) :
  dom (_pred G) = dom (_succ G) → mirrored G →
  mirrored (add_edge G e) ∧ dom (_pred (add_edge G e)) = dom (_succ (add_edge G e)).
Proof.
  destruct e as [[a b] dd]. intros Hdom Hm.
  destruct (mirrored_ensure_node G a Hdom Hm) as [Hm1 Hd1].
  destruct (mirrored_ensure_node (ensure_node a G) b Hd1 Hm1) as [Hm2 Hd2].
  assert (a ∈ dom (_succ (ensure_node b (ensure_node a G))) ∧
          b ∈ dom (_succ (ensure_node b (ensure_node a G)))) as [Ha Hb].
  { unfold ensure_node at 1 3.
    destruct (_succ (ensure_node a G) !! b) as [nb |] eqn:Eb.
    - split; [| apply elem_of_dom; eauto].
      unfold ensure_node. destruct (_succ G !! a) as [na |] eqn:Ea.
      + apply elem_of_dom. eauto.
      + cbn. rewrite dom_insert_L. set_solver.
    - cbn. rewrite dom_insert_L. split; [| set_solver].
      apply elem_of_union. right.
      unfold ensure_node. destruct (_succ G !! a) as [na |] eqn:Ea.
      + apply elem_of_dom. eauto.
      + cbn. rewrite dom_insert_L. set_solver. }
  unfold add_edge. set (G2 := ensure_node b (ensure_node a G)) in *. split.
  - intros u v. unfold edge_data. cbn.
    pose proof (Hm2 u v) as Huv. pose proof (Hm2 a v) as Hav.
    pose proof (Hm2 u b) as Hub. unfold edge_data in Huv, Hav, Hub.
    destruct (decide (b = v)) as [Ev | Hv], (decide (a = u)) as [Eu | Hu]; subst;
      rewrite ?lookup_insert_eq, ?lookup_insert_ne by done; cbn;
      rewrite ?lookup_insert_eq, ?lookup_insert_ne by done; try done.
    + rewrite <- Hub. by destruct (_pred G2 !! v).
    + rewrite Hav. by destruct (_succ G2 !! u).
  - cbn. rewrite !dom_insert_L, Hd2. set_solver.
Qed.

Lemma mirrored_add_edges_from (G : DiGraph) (l : list edge) :
  dom (_pred G) = dom (_succ G) → mirrored G →
  mirrored (add_edges_from G l) ∧
  dom (_pred (add_edges_from G l)) = dom (_succ (add_edges_from G l)).
Proof.
  intros Hdom Hm. induction l as [| e l IH] using rev_ind; [done |].
  rewrite add_edges_from_snoc. destruct IH as [IHm IHd]. by apply mirrored_add_edge.
Qed.

Lemma PDG_mirrored (nodes edges : list row) (sensi_api_set : gset string)
    (source_path : string) (PDG : DiGraph) (klm : option key_line_map) :
  build_PDG_tables nodes edges sensi_api_set source_path = Ok (Some PDG, klm) →
  mirrored PDG.
Proof.
  intros H. apply build_PDG_tables_inv in H as (kl & info & _ & _ & -> & _).
  destruct (mirrored_add_edges_from (new_DiGraph [source_path])
              (edges ≫= control_contribution (node_id_to_line_number info)))
    as [Hm Hd]; [done | |].
  { intros u v. unfold edge_data. cbn. by rewrite !lookup_empty. }
  by apply mirrored_add_edges_from.
Qed.

Lemma induced_lookup (keep : gset Z) (adj : adjacency) (u v : Z) :
  induced keep adj !! u ≫= lookup v
  = if decide (u ∈ keep ∧ v ∈ keep) then adj !! u ≫= lookup v else None.
Proof.
  unfold induced. rewrite lookup_fmap.
  destruct (adj !! u) as [nbrs |] eqn:Hu.
  - destruct (decide (u ∈ keep)) as [Hin | Hout].
    + rewrite (map_lookup_filter_Some_2 _ _ u nbrs) by done. cbn.
      destruct (nbrs !! v) as [dd |] eqn:Hv.
      * destruct (decide (v ∈ keep)) as [Hvin | Hvout].
        -- rewrite (map_lookup_filter_Some_2 _ _ v dd) by done.
           by rewrite decide_True.
        -- rewrite map_lookup_filter_None_2; [by rewrite decide_False by tauto |].
           right. intros dd' _. done.
      * rewrite map_lookup_filter_None_2 by (by left). by case_decide.
    + rewrite map_lookup_filter_None_2; [by rewrite decide_False by tauto |].
      right. intros nbrs' _. done.
  - rewrite map_lookup_filter_None_2 by (by left). cbn. by case_decide.
Qed.

Lemma mirrored_subgraph_copy (G : DiGraph) (l : list Z) :
  mirrored G → mirrored (subgraph_copy G l).
Proof.
  intros Hm u v. unfold edge_data, subgraph_copy. cbn.
  rewrite !induced_lookup. specialize (Hm u v). unfold edge_data in Hm.
  rewrite Hm. do 2 case_decide; tauto || done.
Qed.

(** Edge fidelity: the slice keeps exactly the edges of the graph between
    two kept lines, with their tags. *)
Lemma edge_data_subgraph_copy (G : DiGraph) (l : list Z) (u v : Z) :
  edge_data (subgraph_copy G l) u v
  = if decide ((u ∈ l ∧ u ∈ dom (_succ G)) ∧ (v ∈ l ∧ v ∈ dom (_succ G)))
    then edge_data G u v else None.
Proof.
  unfold edge_data, subgraph_copy. cbn. rewrite induced_lookup.
  assert (∀ n, n ∈ filter (fun n => n ∈ dom (_succ G)) (list_to_set l : gset Z)
               ↔ n ∈ l ∧ n ∈ dom (_succ G)) as Hkeep.
  { intros n. rewrite elem_of_filter, elem_of_list_to_set. tauto. }
  do 2 case_decide; try done; exfalso; rewrite !Hkeep in *; tauto.
Qed.

(** A location that is present, not empty and does not parse makes
    [extract_nodes_with_location_info] raise, wherever the row stands. *)
Lemma foldlM_not_Ok {A B} (f : B → A → result B) (l : list A) (b : B) (x : A) :
  x ∈ l → (∀ b' r, f b' x ≠ Ok r) → ∀ r, foldlM f b l ≠ Ok r.
Proof.
  intros Hin Hx. revert b. induction l as [| a l IH]; intros b r.
  - by apply elem_of_nil in Hin.
  - cbn [foldlM]. destruct (f b a) as [b' | |] eqn:E; [| done | done]. simpl_result.
    apply elem_of_cons in Hin as [-> | Hin]; [by destruct (Hx b b') |].
    by apply IH.
Qed.

Lemma extract_nodes_malformed_not_Ok (nodes : list row) (i : nat) (node : row)
    (location : string) :
  nodes !! i = Some node →
  node !! "location" = Some location → location ≠ EmptyString →
  PyStr.int (line_part location) = None →
  ∀ info, extract_nodes_with_location_info nodes ≠ Ok info.
Proof.
  intros Hi Hloc Hne Hint. unfold extract_nodes_with_location_info.
  apply (foldlM_not_Ok _ _ _ (i, node)).
  - apply list_elem_of_lookup. exists i. by rewrite enumerate_lookup, Hi.
  - intros acc r. unfold location_info_step. rewrite Hloc.
    rewrite bool_decide_eq_false_2 by done. by rewrite Hint.
Qed.

(** Whatever comes before it, a call node in the last row keeps the
    constructor from returning. *)
Lemma build_PDG_tables_call_last (nodes edges : list row) (node : row) (ty : string)
    (sensi_api_set : gset string) (source_path : string) :
  last nodes = Some node →
  node !! "type" = Some ty → PyStr.strip ty = "CallExpression" →
  ∀ r, build_PDG_tables nodes edges sensi_api_set source_path ≠ Ok r.
Proof.
  intros Hlast Hty Hcall r. unfold build_PDG_tables.
  assert (nodes ≠ []) as Hne by (by intros ->).
  rewrite bool_decide_eq_false_2 by (by destruct nodes).
  destruct (foldlM (classify_step _ _) _ _) as [kl | |] eqn:E; [| done | done].
  exfalso. revert E. apply foldlM_not_Ok with (x := ((length nodes - 1)%nat, node)).
  - apply list_elem_of_lookup. exists (length nodes - 1)%nat.
    rewrite enumerate_lookup. rewrite last_lookup in Hlast.
    replace (length nodes - 1)%nat with (Nat.pred (length nodes)) by lia.
    by rewrite Hlast.
  - intros acc r'. by rewrite (classify_step_call_last _ _ _ _ _ Hne Hty Hcall).
Qed.

(** * Further properties of the code *)

(** ** What a traversal collects *)

Lemma visit_elem_of (nbrs : list Z) (visited : gset Z) (queue : list Z) :
  (∀ n, n ∈ (visit nbrs visited queue).1 ↔ n ∈ visited ∨ n ∈ nbrs) ∧
  (∀ n, n ∈ (visit nbrs visited queue).2 ↔ n ∈ queue ∨ (n ∈ nbrs ∧ n ∉ visited)).
Proof.
  revert visited queue. induction nbrs as [| a nbrs IH]; intros visited queue.
  - split; intros n; cbn; rewrite elem_of_nil; tauto.
  - rewrite visit_cons. case_bool_decide as Ha.
    + destruct (IH visited queue) as [IHv IHq]. split; intros n.
      * rewrite IHv, elem_of_cons. split; [tauto |]. intros [? | [-> | ?]]; tauto.
      * rewrite IHq, elem_of_cons. split; [tauto |].
        intros [? | [[-> | ?] ?]]; tauto.
    + destruct (IH ({[a]} ∪ visited) (queue ++ [a])) as [IHv IHq]. split; intros n.
      * rewrite IHv, elem_of_union, elem_of_singleton, elem_of_cons. tauto.
      * rewrite IHq, elem_of_app, list_elem_of_singleton, elem_of_union,
          elem_of_singleton, elem_of_cons.
        destruct (decide (n = a)) as [-> | Hne]; tauto.
Qed.

Lemma adjacent_spec (adj : adjacency) (a b : Z) :
  adjacent adj a b ↔ ∃ nbrs, adj !! a = Some nbrs ∧ b ∈ (map_to_list nbrs).*1.
Proof.
  unfold adjacent. split.
  - intros [dd H]. destruct (adj !! a) as [nbrs |]; [| done]. cbn in H.
    exists nbrs. split; [done |]. apply list_elem_of_fmap. exists (b, dd).
    split; [done | by apply elem_of_map_to_list].
  - intros (nbrs & -> & Hb). cbn.
    apply list_elem_of_fmap in Hb as [[b' dd] [-> Hb]].
    apply elem_of_map_to_list in Hb. by exists dd.
Qed.

Lemma traverse_done (adj : adjacency) (ln : Z) (visited sliced_lines : gset Z) (n : Z) :
  ln ∈ visited →
  (∀ a, a ∈ visited →
        a ∈ @nil Z ∨ (a ∈ sliced_lines ∧ ∀ m, adjacent adj a m → m ∈ visited)) →
  rtc (adjacent adj) ln n → n ∈ sliced_lines.
Proof.
  intros Hln Hdone Hn.
  assert (n ∈ visited) as Hv.
  { apply (rtc_ind_r (R := adjacent adj) (fun n => n ∈ visited) ln); [done | | done].
    intros a b _ Hab Ha.
    destruct (Hdone a Ha) as [Hin | [_ Hclosed]]; [by apply elem_of_nil in Hin |].
    by apply Hclosed. }
  destruct (Hdone n Hv) as [Hin | [? _]]; [by apply elem_of_nil in Hin | done].
Qed.

(** The loop of a traversal, started in a state that the loop itself can
    reach, returns the lines it was given plus every line reachable from
    [ln] along the adjacency table. *)
Lemma traverse_reachable (adj : adjacency) (ln : Z) (s0 : gset Z) (fuel : nat) :
  ∀ (queue : list Z) (visited sliced_lines s : gset Z),
    traverse adj fuel queue visited sliced_lines = Ok s →
    ln ∈ visited →
    (∀ n, n ∈ visited → rtc (adjacent adj) ln n) →
    (∀ n, n ∈ queue → n ∈ visited) →
    (∀ n, n ∈ visited →
          n ∈ queue ∨ (n ∈ sliced_lines ∧ ∀ m, adjacent adj n m → m ∈ visited)) →
    (∀ n, n ∈ sliced_lines → n ∈ s0 ∨ n ∈ visited) →
    (∀ n, n ∈ s0 → n ∈ sliced_lines) →
    ∀ n, n ∈ s ↔ n ∈ s0 ∨ rtc (adjacent adj) ln n.
Proof.
  induction fuel as [| fuel IH]; intros queue visited sliced s Hrun Hln Hreach Hq Hdone Hsl Hs0.
  - destruct queue as [| fro queue]; [| done]. injection Hrun as <-.
    intros n. split.
    + intros Hn. destruct (Hsl n Hn) as [? | Hv]; [by left | right; by apply Hreach].
    + intros [Hn | Hn]; [by apply Hs0 |].
      by apply (traverse_done adj ln visited sliced).
  - destruct queue as [| fro queue].
    { injection Hrun as <-. intros n. split.
      + intros Hn. destruct (Hsl n Hn) as [? | Hv]; [by left | right; by apply Hreach].
      + intros [Hn | Hn]; [by apply Hs0 |].
        by apply (traverse_done adj ln visited sliced). }
    cbn [traverse] in Hrun.
    assert (fro ∈ visited) as Hfro by (apply Hq; by left).
    destruct (adj !! fro) as [nbrs |] eqn:Hadj.
    + destruct (visit_elem_of (map_to_list nbrs).*1 visited queue) as [Hv' Hq'].
      destruct (visit (map_to_list nbrs).*1 visited queue) as [visited' queue'] eqn:E.
      cbn [fst snd] in Hv', Hq'.
      assert (∀ m, adjacent adj fro m ↔ m ∈ (map_to_list nbrs).*1) as Hnbr.
      { intros m. rewrite adjacent_spec. split.
        - intros (nbrs' & Hn' & Hm). rewrite Hadj in Hn'. by injection Hn' as <-.
        - intros Hm. by exists nbrs. }
      apply (IH queue' visited' ({[fro]} ∪ sliced) s Hrun).
      * apply Hv'. by left.
      * intros n [Hn | Hn]%Hv'; [by apply Hreach |].
        eapply rtc_r; [by apply Hreach | by apply Hnbr].
      * intros n [Hn | [Hn _]]%Hq'; apply Hv'; [left; apply Hq; by right | by right].
      * intros n [Hn | Hn]%Hv'.
        -- destruct (Hdone n Hn) as [[-> | Hin]%elem_of_cons | [Hin Hclosed]].
           ++ right. split; [set_solver |]. intros m Hm%Hnbr. apply Hv'. by right.
           ++ left. apply Hq'. by left.
           ++ right. split; [set_solver |]. intros m Hm. apply Hv'. left. by apply Hclosed.
        -- destruct (decide (n ∈ visited)) as [Hold | Hnew].
           ++ destruct (Hdone n Hold) as [[-> | Hin]%elem_of_cons | [Hin Hclosed]].
              ** right. split; [set_solver |]. intros m Hm%Hnbr. apply Hv'. by right.
              ** left. apply Hq'. by left.
              ** right. split; [set_solver |]. intros m Hm. apply Hv'. left.
                 by apply Hclosed.
           ++ left. apply Hq'. by right.
      * intros n [->%elem_of_singleton | Hn]%elem_of_union.
        -- right. apply Hv'. by left.
        -- destruct (Hsl n Hn) as [? | ?]; [by left | right; apply Hv'; by left].
      * intros n Hn. apply elem_of_union. right. by apply Hs0.
    + assert (∀ m, ¬ adjacent adj fro m) as Hnone.
      { intros m [dd Hm]. by rewrite Hadj in Hm. }
      apply (IH queue visited ({[fro]} ∪ sliced) s Hrun); [done | done | | | |].
      * intros n Hn. apply Hq. by right.
      * intros n Hn.
        destruct (Hdone n Hn) as [[-> | Hin]%elem_of_cons | [Hin Hclosed]].
        -- right. split; [set_solver |]. intros m Hm. by destruct (Hnone m).
        -- by left.
        -- right. split; [set_solver | done].
      * intros n [->%elem_of_singleton | Hn]%elem_of_union; [by right | by apply Hsl].
      * intros n Hn. apply elem_of_union. right. by apply Hs0.
Qed.

Lemma traverse_from_reachable (adj : adjacency) (ln : Z) (s0 : gset Z) :
  ∃ s, traverse_from adj ln s0 = Ok s ∧
       ∀ n, n ∈ s ↔ n ∈ s0 ∨ rtc (adjacent adj) ln n.
Proof.
  destruct (traverse_from_terminates adj ln s0) as (s & Hs & _ & _).
  exists s. split; [done |].
  apply (traverse_reachable adj ln s0 _ [ln] {[ln]} s0 s Hs).
  - set_solver.
  - intros n ->%elem_of_singleton. constructor.
  - intros n ->%list_elem_of_singleton. set_solver.
  - intros n ->%elem_of_singleton. left. by apply list_elem_of_singleton.
  - intros n Hn. by left.
  - done.
Qed.

Lemma rtc_flip {A} (R S : relation A) (x y : A) :
  (∀ a b, R a b ↔ S b a) → rtc R x y → rtc S y x.
Proof.
  intros HRS Hxy. induction Hxy as [| x y z Hxy _ IH]; [constructor |].
  eapply rtc_r; [exact IH | by apply HRS].
Qed.

Lemma build_PDG_graph (fs : filesystem)
    (code_path sensi_api_path source_path : string)
    (PDG : DiGraph) (klm : option key_line_map) :
  build_PDG fs code_path sensi_api_path source_path = Ok (Some PDG, klm) →
  graph_ok PDG ∧ tags_ok PDG ∧ mirrored PDG.
Proof.
  intros H. apply build_PDG_inv in H as (nodes & edges & sensi & _ & _ & H).
  destruct (PDG_graph_ok _ _ _ _ _ _ H) as [Hok Htags].
  split; [done |]. split; [done |]. by eapply PDG_mirrored.
Qed.

Lemma slice_lines_reachable (G : DiGraph) (ln : Z) :
  mirrored G →
  ∃ sliced_lines,
    slice_lines G ln = Ok sliced_lines ∧
    ∀ n, n ∈ sliced_lines ↔ rtc (has_edge G) n ln ∨ rtc (has_edge G) ln n.
Proof.
  intros Hm. unfold slice_lines.
  destruct (traverse_from_reachable (_pred G) ln ∅) as (s1 & -> & H1). simpl_result.
  destruct (traverse_from_reachable (_succ G) ln s1) as (s2 & -> & H2).
  exists s2. split; [done |]. intros n. rewrite H2, H1.
  assert (∀ a b, adjacent (_pred G) a b ↔ has_edge G b a) as Hflip.
  { intros a b. unfold adjacent, has_edge. by rewrite Hm. }
  assert (∀ a b, has_edge G a b ↔ adjacent (_pred G) b a) as Hflip'.
  { intros a b. by rewrite Hflip. }
  split.
  - intros [[Hn | Hn] | Hn]; [by apply elem_of_empty in Hn | left | by right].
    by apply (rtc_flip (adjacent (_pred G))).
  - intros [Hn | Hn]; [left; right | by right].
    by apply (rtc_flip (has_edge G)).
Qed.

Lemma extract_XFG_inv (G : DiGraph) (ln : Z) (XFG : DiGraph) :
  extract_XFG G ln = Ok (Some XFG) →
  ∃ sliced_lines,
    slice_lines G ln = Ok sliced_lines ∧
    XFG = set_key_line ln (subgraph_copy G (elements sliced_lines)).
Proof.
  intros H. destruct (extract_XFG_terminates G ln) as (s & Hs & _ & HX).
  rewrite HX in H. injection H as <-. by exists s.
Qed.

(** X1. Bidirectional reachability. For a PDG built by [build_PDG] and any
    line [ln], the two passes of the extractor end and collect exactly the
    lines from which [ln] can be reached along PDG edges together with the
    lines that can be reached from [ln]; the vertices of the slice are the
    PDG vertices among them. *)
Theorem slice_is_bidirectional_reach (fs : filesystem)
    (code_path sensi_api_path source_path : string)
    (PDG : DiGraph) (klm : option key_line_map) (ln : Z) :
  build_PDG fs code_path sensi_api_path source_path = Ok (Some PDG, klm) →
  ∃ sliced_lines XFG,
    slice_lines PDG ln = Ok sliced_lines ∧
    extract_XFG PDG ln = Ok (Some XFG) ∧
    (∀ n, n ∈ sliced_lines ↔ rtc (has_edge PDG) n ln ∨ rtc (has_edge PDG) ln n) ∧
    (∀ n, n ∈ nodes_of XFG ↔
          n ∈ nodes_of PDG ∧ (rtc (has_edge PDG) n ln ∨ rtc (has_edge PDG) ln n)).
Proof.
  intros H. apply build_PDG_graph in H as (Hok & _ & Hm).
  destruct (slice_lines_reachable PDG ln Hm) as (s & Hs & Hreach).
  destruct (extract_XFG_terminates PDG ln) as (s' & Hs' & _ & HX).
  rewrite Hs in Hs'. injection Hs' as <-.
  exists s, (set_key_line ln (subgraph_copy PDG (elements s))).
  split; [done |]. split; [done |]. split; [done |].
  intros n. destruct (slice_vertices PDG ln s Hok Hs) as [-> _].
  rewrite elem_of_intersection, Hreach. tauto.
Qed.

Lemma slice_is_bidirectional_reach_witness :
  ∃ sliced_lines XFG,
    slice_lines ex_PDG 12 = Ok sliced_lines ∧
    extract_XFG ex_PDG 12 = Ok (Some XFG) ∧
    (∀ n, n ∈ sliced_lines ↔ rtc (has_edge ex_PDG) n 12 ∨ rtc (has_edge ex_PDG) 12 n) ∧
    (∀ n, n ∈ nodes_of XFG ↔
          n ∈ nodes_of ex_PDG ∧
          (rtc (has_edge ex_PDG) n 12 ∨ rtc (has_edge ex_PDG) 12 n)).
Proof.
  apply (slice_is_bidirectional_reach ex_fs "csv/a.c" "data/sensiAPI.txt" "a.c"
           ex_PDG (Some ex_klm) 12).
  vm_compute. reflexivity.
Defined.

(** ** The edges of a slice *)

Lemma file_paths_add_edges_from (G : DiGraph) (l : list edge) :
  file_paths (add_edges_from G l) = file_paths G.
Proof.
  induction l as [| [[u v] dd] l IH] using rev_ind; [done |].
  rewrite add_edges_from_snoc, <- IH. unfold add_edge, ensure_node. cbn.
  by repeat case_match.
Qed.

(** X2. Edge fidelity. In the slice of a line of a PDG built by
    [build_PDG], there is an edge between two lines exactly when both are
    vertices of the slice and the PDG has that edge, and the edge carries
    the data (the tag) it has in the PDG; the slice is tagged with the line
    it was taken for and keeps the file path of the PDG. *)
Theorem slice_edge_fidelity (fs : filesystem)
    (code_path sensi_api_path source_path : string)
    (PDG : DiGraph) (klm : option key_line_map) (ln : Z) (XFG : DiGraph) :
  build_PDG fs code_path sensi_api_path source_path = Ok (Some PDG, klm) →
  extract_XFG PDG ln = Ok (Some XFG) →
  (∀ u v, edge_data XFG u v
          = if decide (u ∈ nodes_of XFG ∧ v ∈ nodes_of XFG)
            then edge_data PDG u v else None) ∧
  (∀ u v, _pred XFG !! v ≫= lookup u = edge_data XFG u v) ∧
  key_line XFG = Some ln ∧
  file_paths XFG = [source_path].
Proof.
  intros H HX. pose proof H as Hbuild.
  apply build_PDG_graph in H as ((Hs & Hp & Hends) & _ & Hm).
  apply extract_XFG_inv in HX as (s & _ & ->).
  split; [| split; [| split; [done |]]].
  - intros u v.
    change (edge_data (set_key_line ln ?G) u v) with (edge_data G u v).
    change (nodes_of (set_key_line ln ?G)) with (nodes_of G).
    rewrite edge_data_subgraph_copy.
    assert (∀ n, n ∈ nodes_of (subgraph_copy PDG (elements s))
                 ↔ n ∈ elements s ∧ n ∈ dom (_succ PDG)) as Hn.
    { intros n. rewrite elem_of_nodes_of_subgraph_copy, Hs. unfold nodes_of. tauto. }
    do 2 case_decide; try done; exfalso; rewrite !Hn in *; tauto.
  - apply (mirrored_subgraph_copy PDG (elements s) Hm).
  - apply build_PDG_inv in Hbuild as (nodes & edges & sensi & _ & _ & Hb).
    apply build_PDG_tables_inv in Hb as (kl & info & _ & _ & -> & _).
    cbn [file_paths set_key_line subgraph_copy].
    by rewrite !file_paths_add_edges_from.
Qed.

Lemma slice_edge_fidelity_witness :
  (∀ u v, edge_data ex_XFG u v
          = if decide (u ∈ nodes_of ex_XFG ∧ v ∈ nodes_of ex_XFG)
            then edge_data ex_PDG u v else None) ∧
  (∀ u v, _pred ex_XFG !! v ≫= lookup u = edge_data ex_XFG u v) ∧
  key_line ex_XFG = Some 10 ∧
  file_paths ex_XFG = ["a.c"].
Proof.
  apply (slice_edge_fidelity ex_fs "csv/a.c" "data/sensiAPI.txt" "a.c"
           ex_PDG (Some ex_klm) 10 ex_XFG).
  - vm_compute. reflexivity.
  - vm_compute. reflexivity.
Defined.

Lemma key_line_add_edges_from (G : DiGraph) (l : list edge) :
  key_line (add_edges_from G l) = key_line G.
Proof.
  induction l as [| [[u v] dd] l IH] using rev_ind; [done |].
  rewrite add_edges_from_snoc, <- IH. unfold add_edge, ensure_node. cbn.
  by repeat case_match.
Qed.

(** ** The shape of the extractor's result *)

Lemma slices_key_lines (G : DiGraph) (lns : list Z) (slices : list DiGraph) :
  Forall2 (fun ln XFG => extract_XFG G ln = Ok (Some XFG)) lns slices →
  key_line <$> slices = Some <$> lns.
Proof.
  induction 1 as [| ln XFG lns slices HX _ IH]; [done |].
  apply extract_XFG_inv in HX as (s & _ & ->). cbn. by rewrite IH.
Qed.

(** X3. When the key-line map has the four categories, [build_XFG] returns
    a table with exactly the keys call, array, ptr and arith, and the list
    under a category holds one slice per key line of that category, each
    tagged with its key line: as many slices as key lines, none merged
    within or across categories. *)
Theorem build_XFG_shape (PDG : DiGraph) (klm : key_line_map) :
  (∀ key, key ∈ categories → is_Some (klm !! key)) →
  ∃ res,
    build_XFG (Some PDG) (Some klm) = Ok (Some res) ∧
    dom res = list_to_set categories ∧
    ∀ key lns, key ∈ categories → klm !! key = Some lns →
      ∃ slices,
        res !! key = Some slices ∧
        key_line <$> slices = Some <$> elements lns ∧
        length slices = size lns.
Proof.
  intros Hkeys.
  destruct (Hkeys "call") as [l1 H1]; [set_solver |].
  destruct (Hkeys "array") as [l2 H2]; [set_solver |].
  destruct (Hkeys "ptr") as [l3 H3]; [set_solver |].
  destruct (Hkeys "arith") as [l4 H4]; [set_solver |].
  unfold build_XFG, categories. cbn [foldlM].
  set (res0 := ({[ "call" := []; "array" := []; "ptr" := []; "arith" := [] ]} : XFG_map)).
  destruct (category_step_spec PDG klm res0 "call" l1 H1) as (s1 & -> & F1); [done |].
  simpl_result.
  destruct (category_step_spec PDG klm (<["call" := s1]> res0) "array" l2 H2)
    as (s2 & -> & F2); [done |].
  simpl_result.
  destruct (category_step_spec PDG klm (<["array" := s2]> (<["call" := s1]> res0))
              "ptr" l3 H3) as (s3 & -> & F3); [done |].
  simpl_result.
  destruct (category_step_spec PDG klm
              (<["ptr" := s3]> (<["array" := s2]> (<["call" := s1]> res0)))
              "arith" l4 H4) as (s4 & -> & F4); [done |].
  simpl_result.
  eexists. split; [reflexivity |]. split.
  { rewrite !dom_insert_L. unfold res0. rewrite !dom_insert_L, dom_singleton_L.
    cbn. set_solver. }
  assert (∀ (lns : gset Z) slices,
            Forall2 (fun ln XFG => extract_XFG PDG ln = Ok (Some XFG)) (elements lns) slices →
            key_line <$> slices = Some <$> elements lns ∧ length slices = size lns)
    as Hshape.
  { intros lns slices HF. split; [by apply (slices_key_lines PDG) |].
    by rewrite <- (Forall2_length _ _ _ HF). }
  intros key lns Hkey Hlns.
  repeat (apply elem_of_cons in Hkey as [-> | Hkey]); [| | | | by apply elem_of_nil in Hkey].
  - rewrite H1 in Hlns. injection Hlns as <-. exists s1. split; [done |]. by apply Hshape.
  - rewrite H2 in Hlns. injection Hlns as <-. exists s2. split; [done |]. by apply Hshape.
  - rewrite H3 in Hlns. injection Hlns as <-. exists s3. split; [done |]. by apply Hshape.
  - rewrite H4 in Hlns. injection Hlns as <-. exists s4. split; [done |]. by apply Hshape.
Qed.

Lemma build_XFG_shape_witness :
  ∃ res,
    build_XFG (Some ex_PDG) (Some ex_klm) = Ok (Some res) ∧
    dom res = list_to_set categories ∧
    ∀ key lns, key ∈ categories → ex_klm !! key = Some lns →
      ∃ slices,
        res !! key = Some slices ∧
        key_line <$> slices = Some <$> elements lns ∧
        length slices = size lns.
Proof.
  apply (build_XFG_shape ex_PDG ex_klm).
  intros key Hkey.
  repeat (apply elem_of_cons in Hkey as [-> | Hkey]); [| | | | by apply elem_of_nil in Hkey];
    by eexists.
Defined.

Lemma category_step_missing (PDG : DiGraph) (klm : key_line_map) (res : XFG_map)
    (key : string) :
  klm !! key = None → category_step PDG klm res key = Raise KeyError.
Proof. intros H. unfold category_step, getitem. by rewrite H. Qed.

(** X4. A key-line map that lacks one of the four categories makes
    [build_XFG] raise [KeyError], whatever the other categories hold. *)
Theorem build_XFG_missing_category (PDG : DiGraph) (klm : key_line_map) (key : string) :
  key ∈ categories → klm !! key = None →
  build_XFG (Some PDG) (Some klm) = Raise KeyError.
Proof.
  intros Hkey Hnone. unfold build_XFG, categories. cbn [foldlM].
  set (res0 := ({[ "call" := []; "array" := []; "ptr" := []; "arith" := [] ]} : XFG_map)).
  destruct (klm !! "call") as [l1 |] eqn:H1;
    [| by rewrite (category_step_missing _ _ _ _ H1)].
  destruct (category_step_spec PDG klm res0 "call" l1 H1) as (s1 & -> & _); [done |].
  simpl_result.
  destruct (klm !! "array") as [l2 |] eqn:H2;
    [| by rewrite (category_step_missing _ _ _ _ H2)].
  destruct (category_step_spec PDG klm (<["call" := s1]> res0) "array" l2 H2)
    as (s2 & -> & _); [done |].
  simpl_result.
  destruct (klm !! "ptr") as [l3 |] eqn:H3;
    [| by rewrite (category_step_missing _ _ _ _ H3)].
  destruct (category_step_spec PDG klm (<["array" := s2]> (<["call" := s1]> res0))
              "ptr" l3 H3) as (s3 & -> & _); [done |].
  simpl_result.
  destruct (klm !! "arith") as [l4 |] eqn:H4;
    [| by rewrite (category_step_missing _ _ _ _ H4)].
  exfalso.
  repeat (apply elem_of_cons in Hkey as [-> | Hkey]); [| | | | by apply elem_of_nil in Hkey];
    congruence.
Qed.

Lemma build_XFG_missing_category_witness :
  build_XFG (Some ex_PDG) (Some (delete "ptr" ex_klm)) = Raise KeyError.
Proof.
  apply (build_XFG_missing_category ex_PDG (delete "ptr" ex_klm) "ptr").
  - unfold categories. set_solver.
  - apply lookup_delete_eq.
Defined.

(** ** The key lines of a file *)

Ltac no_candidate :=
  let H := fresh in let ln := fresh in
  intros ln; split; [by left |];
  intros [? | H]; [done |]; exfalso;
  unfold call_candidate, typed_candidate, arith_candidate in H;
  repeat match type of H with
         | ex _ => destruct H as [? H]
         | _ ∧ _ => destruct H as [? H]
         end;
  simplify_eq;
  try match goal with
      | H1 : ?e = Ok ?a, H2 : ?e = Ok ?b |- _ =>
          assert (a = b) by congruence; subst
      end;
  solve [done | lia | congruence].

Ltac four_parts := split; [| split; [| split]].

Lemma classify_step_Ok (nodes : list row) (sensi_api_set : gset string)
    (acc acc' : key_lines) (i : nat) (node : row) :
  classify_step nodes sensi_api_set acc (i, node) = Ok acc' →
  (∀ ln, ln ∈ call_lines acc' ↔
         ln ∈ call_lines acc ∨ call_candidate nodes sensi_api_set i node ln) ∧
  (∀ ln, ln ∈ array_lines acc' ↔
         ln ∈ array_lines acc ∨ typed_candidate nodes "ArrayIndexing" i node ln) ∧
  (∀ ln, ln ∈ ptr_lines acc' ↔
         ln ∈ ptr_lines acc ∨ typed_candidate nodes "PtrMemberAccess" i node ln) ∧
  (∀ ln, ln ∈ arithmatic_lines acc' ↔
         ln ∈ arithmatic_lines acc ∨ arith_candidate nodes i node ln).
Proof.
  unfold classify_step, getitem, index.
  destruct (node !! "type") as [ty |] eqn:Hty; [| done]. simpl_result.
  case_bool_decide as Hcall.
  { destruct (nodes !! (i + 1)%nat) as [next |] eqn:Hnext; [| done]. simpl_result.
    destruct (next !! "code") as [code |] eqn:Hcode; [| done]. simpl_result.
    case_bool_decide as Hblank.
    { intros [= <-]. four_parts; no_candidate. }
    case_bool_decide as Hsensi; [| intros [= <-]; four_parts; no_candidate].
    destruct (extract_line_number (Z.of_nat i) nodes) as [line_no | |] eqn:Hline;
      [| done | done].
    simpl_result. destruct (Z.gtb_spec line_no 0) as [Hpos | Hneg];
      intros [= <-]; cbn [call_lines array_lines ptr_lines arithmatic_lines];
      four_parts; try no_candidate.
    intros ln. rewrite elem_of_union, elem_of_singleton. split.
    - intros [-> | ?]; [right | by left]. by exists ty, next, code.
    - intros [? | (? & ? & ? & ? & ? & ? & ? & ? & ? & ? & ?)]; [by right | left].
      congruence. }
  case_bool_decide as Harray.
  { destruct (extract_line_number (Z.of_nat i) nodes) as [line_no | |] eqn:Hline;
      [| done | done].
    simpl_result. destruct (Z.gtb_spec line_no 0) as [Hpos | Hneg];
      intros [= <-]; cbn [call_lines array_lines ptr_lines arithmatic_lines];
      four_parts; try no_candidate.
    intros ln. rewrite elem_of_union, elem_of_singleton. split.
    - intros [-> | ?]; [right | by left]. by exists ty.
    - intros [? | (? & ? & ? & ? & ?)]; [by right | left]. congruence. }
  case_bool_decide as Hptr.
  { destruct (extract_line_number (Z.of_nat i) nodes) as [line_no | |] eqn:Hline;
      [| done | done].
    simpl_result. destruct (Z.gtb_spec line_no 0) as [Hpos | Hneg];
      intros [= <-]; cbn [call_lines array_lines ptr_lines arithmatic_lines];
      four_parts; try no_candidate.
    intros ln. rewrite elem_of_union, elem_of_singleton. split.
    - intros [-> | ?]; [right | by left]. by exists ty.
    - intros [? | (? & ? & ? & ? & ?)]; [by right | left]. congruence. }
  destruct (node !! "operator") as [operator |] eqn:Hop; [| done]. simpl_result.
  case_bool_decide as Harith; [| intros [= <-]; four_parts; no_candidate].
  destruct (extract_line_number (Z.of_nat i) nodes) as [line_no | |] eqn:Hline;
    [| done | done].
  simpl_result. destruct (Z.gtb_spec line_no 0) as [Hpos | Hneg];
    intros [= <-]; cbn [call_lines array_lines ptr_lines arithmatic_lines];
    four_parts; try no_candidate.
  intros ln. rewrite elem_of_union, elem_of_singleton. split.
  - intros [-> | ?]; [right | by left]. by exists ty, operator.
  - intros [? | (? & ? & ? & ? & ? & ? & ? & ? & ? & ?)]; [by right | left]. congruence.
Qed.

Lemma classify_loop_Ok (nodes : list row) (sensi_api_set : gset string)
    (l : list (nat * row)) (acc kl : key_lines) :
  foldlM (classify_step nodes sensi_api_set) acc l = Ok kl →
  (∀ ln, ln ∈ call_lines kl ↔
         ln ∈ call_lines acc ∨
         ∃ i node, (i, node) ∈ l ∧ call_candidate nodes sensi_api_set i node ln) ∧
  (∀ ln, ln ∈ array_lines kl ↔
         ln ∈ array_lines acc ∨
         ∃ i node, (i, node) ∈ l ∧ typed_candidate nodes "ArrayIndexing" i node ln) ∧
  (∀ ln, ln ∈ ptr_lines kl ↔
         ln ∈ ptr_lines acc ∨
         ∃ i node, (i, node) ∈ l ∧ typed_candidate nodes "PtrMemberAccess" i node ln) ∧
  (∀ ln, ln ∈ arithmatic_lines kl ↔
         ln ∈ arithmatic_lines acc ∨
         ∃ i node, (i, node) ∈ l ∧ arith_candidate nodes i node ln).
Proof.
  revert acc. induction l as [| [i node] l IH]; intros acc.
  - intros [= <-]. four_parts; intros ln; (split; [by left |]);
      intros [? | (? & ? & Hin & _)]; done || by apply elem_of_nil in Hin.
  - cbn [foldlM].
    destruct (classify_step nodes sensi_api_set acc (i, node)) as [acc' | |] eqn:E;
      [| done | done].
    simpl_result. intros Hrest.
    destruct (classify_step_Ok _ _ _ _ _ _ E) as (Hc & Ha & Hp & Hr).
    destruct (IH acc' Hrest) as (IHc & IHa & IHp & IHr).
    four_parts; intros ln.
    + rewrite IHc, Hc. split.
      * intros [[? | ?] | (j & n & Hin & ?)]; [by left | right | right].
        -- exists i, node. split; [by left | done].
        -- exists j, n. split; [by right | done].
      * intros [? | (j & n & [[= -> ->] | Hin]%elem_of_cons & ?)];
          [by left; left | by left; right | right; by exists j, n].
    + rewrite IHa, Ha. split.
      * intros [[? | ?] | (j & n & Hin & ?)]; [by left | right | right].
        -- exists i, node. split; [by left | done].
        -- exists j, n. split; [by right | done].
      * intros [? | (j & n & [[= -> ->] | Hin]%elem_of_cons & ?)];
          [by left; left | by left; right | right; by exists j, n].
    + rewrite IHp, Hp. split.
      * intros [[? | ?] | (j & n & Hin & ?)]; [by left | right | right].
        -- exists i, node. split; [by left | done].
        -- exists j, n. split; [by right | done].
      * intros [? | (j & n & [[= -> ->] | Hin]%elem_of_cons & ?)];
          [by left; left | by left; right | right; by exists j, n].
    + rewrite IHr, Hr. split.
      * intros [[? | ?] | (j & n & Hin & ?)]; [by left | right | right].
        -- exists i, node. split; [by left | done].
        -- exists j, n. split; [by right | done].
      * intros [? | (j & n & [[= -> ->] | Hin]%elem_of_cons & ?)];
          [by left; left | by left; right | right; by exists j, n].
Qed.

Lemma elem_of_enumerate {A} (l : list A) (i : nat) (a : A) :
  (i, a) ∈ enumerate l ↔ l !! i = Some a.
Proof.
  rewrite list_elem_of_lookup. split.
  - intros [j Hj]. rewrite enumerate_lookup in Hj.
    destruct (l !! j) as [b |] eqn:E; [| done]. cbn in Hj. by injection Hj as -> ->.
  - intros H. exists i. by rewrite enumerate_lookup, H.
Qed.

(** What a successful run of [build_PDG] read and computed. *)
Lemma build_PDG_run (fs : filesystem) (code_path sensi_api_path source_path : string)
    (PDG : DiGraph) (klm : option key_line_map) :
  build_PDG fs code_path sensi_api_path source_path = Ok (Some PDG, klm) →
  ∃ text nodes edges,
    read_text fs sensi_api_path = Ok text ∧
    read_csv fs (join code_path "nodes.csv") = Ok nodes ∧
    read_csv fs (join code_path "edges.csv") = Ok edges ∧
    build_PDG_tables nodes edges
      (list_to_set (PyStr.strip <$> PyStr.split "," text)) source_path
    = Ok (Some PDG, klm).
Proof.
  unfold build_PDG. destruct (assert _); [| done | done]. simpl_result.
  destruct (read_text fs sensi_api_path) as [text | |]; [| done | done]. simpl_result.
  destruct (_ || _); [done |].
  destruct (read_csv fs (join code_path "nodes.csv")) as [nodes | |]; [| done | done].
  simpl_result.
  destruct (read_csv fs (join code_path "edges.csv")) as [edges | |]; [| done | done].
  simpl_result.
  intros H. by exists text, nodes, edges.
Qed.

(** X5. The key lines of a file. When [build_PDG] returns a graph, its
    key-line map has the four categories, and a line is
    - a call key line exactly when some node of type CallExpression is
      followed (in table order) by a node whose code, stripped, is not empty
      and is in the sensitive-API set, and the call node resolves to that
      line;
    - an array (ptr) key line exactly when some node of type ArrayIndexing
      (PtrMemberAccess) resolves to it;
    - an arith key line exactly when some node of none of these three
      types has one of the operators + - * / and resolves to it;
    where only lines greater than 0 count. *)
Theorem key_lines_characterised (fs : filesystem)
    (code_path sensi_api_path source_path : string)
    (PDG : DiGraph) (klm : option key_line_map) (text : string) (nodes : list row) :
  build_PDG fs code_path sensi_api_path source_path = Ok (Some PDG, klm) →
  read_text fs sensi_api_path = Ok text →
  read_csv fs (join code_path "nodes.csv") = Ok nodes →
  ∃ call array ptr arith : gset Z,
    klm = Some {[ "call" := call; "array" := array; "ptr" := ptr; "arith" := arith ]} ∧
    (∀ ln, ln ∈ call ↔
           ∃ i node, nodes !! i = Some node ∧
                     call_candidate nodes (list_to_set (PyStr.strip <$> PyStr.split "," text))
                                    i node ln) ∧
    (∀ ln, ln ∈ array ↔
           ∃ i node, nodes !! i = Some node ∧
                     typed_candidate nodes "ArrayIndexing" i node ln) ∧
    (∀ ln, ln ∈ ptr ↔
           ∃ i node, nodes !! i = Some node ∧
                     typed_candidate nodes "PtrMemberAccess" i node ln) ∧
    (∀ ln, ln ∈ arith ↔
           ∃ i node, nodes !! i = Some node ∧ arith_candidate nodes i node ln).
Proof.
  intros H Htext Hnodes.
  apply build_PDG_run in H as (text' & nodes' & edges & Htext' & Hnodes' & _ & H).
  rewrite Htext in Htext'. injection Htext' as <-.
  rewrite Hnodes in Hnodes'. injection Hnodes' as <-.
  apply build_PDG_tables_inv in H as (kl & info & Hkl & _ & _ & ->).
  apply classify_loop_Ok in Hkl as (Hc & Ha & Hp & Hr).
  exists (call_lines kl), (array_lines kl), (ptr_lines kl), (arithmatic_lines kl).
  split; [done |].
  four_parts; intros ln.
  - rewrite Hc. cbn [call_lines]. setoid_rewrite elem_of_enumerate. set_solver.
  - rewrite Ha. cbn [array_lines]. setoid_rewrite elem_of_enumerate. set_solver.
  - rewrite Hp. cbn [ptr_lines]. setoid_rewrite elem_of_enumerate. set_solver.
  - rewrite Hr. cbn [arithmatic_lines]. setoid_rewrite elem_of_enumerate. set_solver.
Qed.

Lemma key_lines_characterised_witness :
  ∃ call array ptr arith : gset Z,
    Some ex_klm
    = Some {[ "call" := call; "array" := array; "ptr" := ptr; "arith" := arith ]} ∧
    (∀ ln, ln ∈ call ↔
           ∃ i node, ex_nodes !! i = Some node ∧
                     call_candidate ex_nodes
                       (list_to_set (PyStr.strip <$> PyStr.split "," "memcpy,strcpy, gets"))
                       i node ln) ∧
    (∀ ln, ln ∈ array ↔
           ∃ i node, ex_nodes !! i = Some node ∧
                     typed_candidate ex_nodes "ArrayIndexing" i node ln) ∧
    (∀ ln, ln ∈ ptr ↔
           ∃ i node, ex_nodes !! i = Some node ∧
                     typed_candidate ex_nodes "PtrMemberAccess" i node ln) ∧
    (∀ ln, ln ∈ arith ↔
           ∃ i node, ex_nodes !! i = Some node ∧ arith_candidate ex_nodes i node ln).
Proof.
  apply (key_lines_characterised ex_fs "csv/a.c" "data/sensiAPI.txt" "a.c" ex_PDG).
  - vm_compute. reflexivity.
  - vm_compute. reflexivity.
  - vm_compute. reflexivity.
Defined.

(** ** The graph of a file *)

Lemma build_PDG_info (nodes edges : list row) (sensi_api_set : gset string)
    (source_path : string) (PDG : DiGraph) (klm : option key_line_map) :
  build_PDG_tables nodes edges sensi_api_set source_path = Ok (Some PDG, klm) →
  ∃ info, extract_nodes_with_location_info nodes = Ok info.
Proof.
  intros H. apply build_PDG_tables_inv in H as (kl & info & _ & Hinfo & _).
  by exists info.
Qed.

(** X6. The edges of the PDG, read off the edge table. When [build_PDG]
    returns a graph, [extract_nodes_with_location_info] has returned on the
    node table; with its identifier-to-line table, a pair of lines has a
    data-tagged edge when some REACHES row resolves to it, a control-tagged
    edge when some CONTROLS row and no REACHES row resolves to it, and no
    edge when no row of either type resolves to it. *)
Theorem PDG_edges_characterised (fs : filesystem)
    (code_path sensi_api_path source_path : string)
    (PDG : DiGraph) (klm : option key_line_map) (nodes edges : list row) :
  build_PDG fs code_path sensi_api_path source_path = Ok (Some PDG, klm) →
  read_csv fs (join code_path "nodes.csv") = Ok nodes →
  read_csv fs (join code_path "edges.csv") = Ok edges →
  ∃ info,
    extract_nodes_with_location_info nodes = Ok info ∧
    ∀ s t,
      let rows kind :=
        ∃ e, e ∈ edges ∧
             edge_resolves (node_id_to_line_number info) e = Some (kind, s, t) in
      (rows "REACHES" → edge_data PDG s t = Some data_tag) ∧
      (rows "CONTROLS" → ¬ rows "REACHES" → edge_data PDG s t = Some control_tag) ∧
      (¬ rows "CONTROLS" → ¬ rows "REACHES" → edge_data PDG s t = None).
Proof.
  intros H Hnodes Hedges.
  apply build_PDG_run in H as (text & nodes' & edges' & _ & Hnodes' & Hedges' & H).
  rewrite Hnodes in Hnodes'. injection Hnodes' as <-.
  rewrite Hedges in Hedges'. injection Hedges' as <-.
  destruct (build_PDG_info _ _ _ _ _ _ H) as [info Hinfo].
  exists info. split; [done |]. intros s t rows. subst rows. cbn beta. split; [| split].
  - intros (e & He & Hres). by eapply PDG_data_edge.
  - intros (e & He & Hres) Hnone. eapply PDG_control_edge; [done | done | done | done |].
    intros e' He' Hres'. apply Hnone. by exists e'.
  - intros Hc Hd. eapply PDG_no_edge; [done | done |].
    intros e He. split; intros Hres; [apply Hc | apply Hd]; by exists e.
Qed.

Lemma PDG_edges_characterised_witness :
  ∃ info,
    extract_nodes_with_location_info both_nodes = Ok info ∧
    ∀ s t,
      let rows kind :=
        ∃ e, e ∈ [both_control; both_data] ∧
             edge_resolves (node_id_to_line_number info) e = Some (kind, s, t) in
      (rows "REACHES" → edge_data both_PDG s t = Some data_tag) ∧
      (rows "CONTROLS" → ¬ rows "REACHES" → edge_data both_PDG s t = Some control_tag) ∧
      (¬ rows "CONTROLS" → ¬ rows "REACHES" → edge_data both_PDG s t = None).
Proof.
  apply (PDG_edges_characterised both_fs "csv/e.c" "data/sensiAPI.txt" "e.c"
           both_PDG (Some no_key_lines)).
  - vm_compute. reflexivity.
  - vm_compute. reflexivity.
  - vm_compute. reflexivity.
Defined.

(** X7. The structure of the PDG. In a graph returned by [build_PDG] the
    vertices are exactly the end points of the edges (no line without an
    edge is a vertex), the successor and the predecessor table have the
    vertices as their keys and hold the same edges with the same data, every
    edge carries just the control tag or just the data tag, and the graph
    has the source path as its file path and no key line. *)
Theorem PDG_structure (fs : filesystem)
    (code_path sensi_api_path source_path : string)
    (PDG : DiGraph) (klm : option key_line_map) :
  build_PDG fs code_path sensi_api_path source_path = Ok (Some PDG, klm) →
  (∀ n, n ∈ nodes_of PDG ↔ ∃ u v dd, (u, v, dd) ∈ edges_of PDG ∧ (n = u ∨ n = v)) ∧
  dom (_succ PDG) = nodes_of PDG ∧
  dom (_pred PDG) = nodes_of PDG ∧
  (∀ u v, _pred PDG !! v ≫= lookup u = _succ PDG !! u ≫= lookup v) ∧
  (∀ u v dd, (u, v, dd) ∈ edges_of PDG → dd = control_tag ∨ dd = data_tag) ∧
  file_paths PDG = [source_path] ∧
  key_line PDG = None.
Proof.
  intros H. pose proof H as Hbuild.
  apply build_PDG_graph in H as ((Hs & Hp & Hends) & Htags & Hm).
  split; [| split; [done |]; split; [done |]; split; [done |]; split; [| split]].
  - intros n. rewrite Hends. by setoid_rewrite elem_of_edges_of.
  - intros u v dd Hin%elem_of_edges_of. by eapply Htags.
  - apply build_PDG_inv in Hbuild as (nodes & edges & sensi & _ & _ & Hb).
    apply build_PDG_tables_inv in Hb as (kl & info & _ & _ & -> & _).
    by rewrite !file_paths_add_edges_from.
  - apply build_PDG_inv in Hbuild as (nodes & edges & sensi & _ & _ & Hb).
    apply build_PDG_tables_inv in Hb as (kl & info & _ & _ & -> & _).
    by rewrite !key_line_add_edges_from.
Qed.

Lemma PDG_structure_witness :
  (∀ n, n ∈ nodes_of ex_PDG ↔
        ∃ u v dd, (u, v, dd) ∈ edges_of ex_PDG ∧ (n = u ∨ n = v)) ∧
  dom (_succ ex_PDG) = nodes_of ex_PDG ∧
  dom (_pred ex_PDG) = nodes_of ex_PDG ∧
  (∀ u v, _pred ex_PDG !! v ≫= lookup u = _succ ex_PDG !! u ≫= lookup v) ∧
  (∀ u v dd, (u, v, dd) ∈ edges_of ex_PDG → dd = control_tag ∨ dd = data_tag) ∧
  file_paths ex_PDG = ["a.c"] ∧
  key_line ex_PDG = None.
Proof.
  apply (PDG_structure ex_fs "csv/a.c" "data/sensiAPI.txt" "a.c" ex_PDG (Some ex_klm)).
  vm_compute. reflexivity.
Defined.

(** ** Inputs on which the constructor gives no graph *)

Lemma read_csv_Ok_exists (fs : filesystem) (p : string) (data : list row) :
  read_csv fs p = Ok data → path_exists fs p = true.
Proof. unfold read_csv. by destruct (path_exists fs p). Qed.

Lemma read_csv_of_content (fs : filesystem) (p content : string) :
  fs !! p = Some content →
  read_csv fs p
  = Ok (read_row (PyStr.strip <$>
                    PyStr.split PyStr.TAB
                      (PyStr.strip (hd EmptyString
                         (PyStr.readlines (PyStr.universal_newlines content)))))
        <$> tl (PyStr.readlines (PyStr.universal_newlines content))).
Proof.
  intros H. unfold read_csv, read_text.
  rewrite path_exists_Some by (by rewrite H). by rewrite H.
Qed.

Lemma build_PDG_with_tables (fs : filesystem)
    (code_path sensi_api_path source_path : string) (nodes edges : list row) :
  is_Some (fs !! sensi_api_path) →
  read_csv fs (join code_path "nodes.csv") = Ok nodes →
  read_csv fs (join code_path "edges.csv") = Ok edges →
  ∃ text,
    read_text fs sensi_api_path = Ok text ∧
    build_PDG fs code_path sensi_api_path source_path
    = build_PDG_tables nodes edges
        (list_to_set (PyStr.strip <$> PyStr.split "," text)) source_path.
Proof.
  intros Hs Hnodes Hedges. destruct Hs as [text Htext].
  exists (PyStr.universal_newlines text).
  assert (read_text fs sensi_api_path = Ok (PyStr.universal_newlines text)) as Hread.
  { unfold read_text. by rewrite Htext. }
  split; [done |]. unfold build_PDG.
  rewrite (path_exists_Some fs sensi_api_path) by (by rewrite Htext).
  rewrite Hread. simpl_result.
  rewrite (read_csv_Ok_exists _ _ _ Hnodes), (read_csv_Ok_exists _ _ _ Hedges).
  cbn [negb orb]. by rewrite Hnodes, Hedges.
Qed.

(** X8. A node table without data rows (an empty file, or a header line
    only) gives the no-graph result, whatever the edge table holds, and the
    file then has no slices ([None]). *)
Theorem empty_node_table_no_graph (fs : filesystem)
    (code_path sensi_api_path source_path content : string) :
  is_Some (fs !! sensi_api_path) →
  fs !! join code_path "nodes.csv" = Some content →
  is_Some (fs !! join code_path "edges.csv") →
  tl (PyStr.readlines (PyStr.universal_newlines content)) = [] →
  read_csv fs (join code_path "nodes.csv") = Ok [] ∧
  build_PDG fs code_path sensi_api_path source_path = Ok no_graph ∧
  slices_of_file fs code_path sensi_api_path source_path = Ok None.
Proof.
  intros Hs Hnodes [econtent Hedges] Hempty.
  assert (read_csv fs (join code_path "nodes.csv") = Ok []) as Hread.
  { rewrite (read_csv_of_content _ _ _ Hnodes), Hempty. done. }
  destruct (build_PDG_with_tables fs code_path sensi_api_path source_path [] _ Hs Hread
              (read_csv_of_content _ _ _ Hedges)) as (text & _ & Hbuild).
  split; [done |]. unfold slices_of_file. rewrite Hbuild. done.
Qed.

Lemma empty_node_table_no_graph_witness :
  read_csv (<[ "csv/a.c/nodes.csv" := (String "k" (String PyStr.TAB "type")) ]> ex_fs) (join "csv/a.c" "nodes.csv")
  = Ok [] ∧
  build_PDG (<[ "csv/a.c/nodes.csv" := (String "k" (String PyStr.TAB "type")) ]> ex_fs)
            "csv/a.c" "data/sensiAPI.txt" "a.c" = Ok no_graph ∧
  slices_of_file (<[ "csv/a.c/nodes.csv" := (String "k" (String PyStr.TAB "type")) ]> ex_fs)
                 "csv/a.c" "data/sensiAPI.txt" "a.c" = Ok None.
Proof.
  apply (empty_node_table_no_graph _ "csv/a.c" "data/sensiAPI.txt" "a.c" (String "k" (String PyStr.TAB "type"))).
  - eexists. vm_compute. reflexivity.
  - vm_compute. reflexivity.
  - eexists. vm_compute. reflexivity.
  - reflexivity.
Defined.

Lemma build_PDG_tables_no_type (node : row) (rest edges : list row)
    (sensi_api_set : gset string) (source_path : string) :
  node !! "type" = None →
  build_PDG_tables (node :: rest) edges sensi_api_set source_path = Raise KeyError.
Proof.
  intros H. unfold build_PDG_tables. rewrite bool_decide_eq_false_2 by done.
  assert (∀ acc, classify_step (node :: rest) sensi_api_set acc (0%nat, node)
                 = Raise KeyError) as Hstep.
  { intros acc. unfold classify_step, getitem. by rewrite H. }
  unfold enumerate. cbn [imap foldlM]. by rewrite Hstep.
Qed.

(** X9. A node table whose header has no column named type, and which has
    at least one data row, makes [build_PDG] raise [KeyError] (API list and
    edge table present). *)
Theorem node_table_without_type_column (fs : filesystem)
    (code_path sensi_api_path source_path content : string) :
  is_Some (fs !! sensi_api_path) →
  fs !! join code_path "nodes.csv" = Some content →
  is_Some (fs !! join code_path "edges.csv") →
  "type" ∉ PyStr.strip <$>
             PyStr.split PyStr.TAB
               (PyStr.strip (hd EmptyString
                  (PyStr.readlines (PyStr.universal_newlines content)))) →
  tl (PyStr.readlines (PyStr.universal_newlines content)) ≠ [] →
  build_PDG fs code_path sensi_api_path source_path = Raise KeyError.
Proof.
  intros Hs Hnodes [econtent Hedges] Hcol Hrows.
  destruct (build_PDG_with_tables fs code_path sensi_api_path source_path _ _ Hs
              (read_csv_of_content _ _ _ Hnodes) (read_csv_of_content _ _ _ Hedges))
    as (text & _ & ->).
  destruct (tl (PyStr.readlines (PyStr.universal_newlines content)))
    as [| line lines]; [done |].
  rewrite fmap_cons. apply build_PDG_tables_no_type.
  apply not_elem_of_dom. rewrite read_row_dom. by rewrite elem_of_list_to_set.
Qed.

Lemma node_table_without_type_column_witness :
  build_PDG (<[ "csv/a.c/nodes.csv" := tsv [["key"; "kind"]; ["0"; "CallExpression"]] ]> ex_fs)
            "csv/a.c" "data/sensiAPI.txt" "a.c" = Raise KeyError.
Proof.
  apply (node_table_without_type_column _ "csv/a.c" "data/sensiAPI.txt" "a.c"
           (tsv [["key"; "kind"]; ["0"; "CallExpression"]])).
  - eexists. vm_compute. reflexivity.
  - vm_compute. reflexivity.
  - eexists. vm_compute. reflexivity.
  - vm_compute. set_solver.
  - vm_compute. discriminate.
Defined.

(** X10. With the API list and both tables present, a node table whose
    last row has type CallExpression never lets [build_PDG] return: the
    round of the classification loop for that row looks the callee name up
    one row past the end and raises [IndexError]. *)
Theorem call_in_last_row_never_returns (fs : filesystem)
    (code_path sensi_api_path source_path : string)
    (nodes edges : list row) (node : row) (ty : string) :
  is_Some (fs !! sensi_api_path) →
  read_csv fs (join code_path "nodes.csv") = Ok nodes →
  read_csv fs (join code_path "edges.csv") = Ok edges →
  last nodes = Some node →
  node !! "type" = Some ty → PyStr.strip ty = "CallExpression" →
  (∀ r, build_PDG fs code_path sensi_api_path source_path ≠ Ok r) ∧
  (∀ sensi_api_set acc,
     classify_step nodes sensi_api_set acc ((length nodes - 1)%nat, node)
     = Raise IndexError).
Proof.
  intros Hs Hnodes Hedges Hlast Hty Hcall. split.
  - destruct (build_PDG_with_tables fs code_path sensi_api_path source_path _ _ Hs
                Hnodes Hedges) as (text & _ & ->).
    by eapply build_PDG_tables_call_last.
  - intros sensi_api_set acc.
    apply (classify_step_call_last _ _ _ _ ty); [| done | done].
    by intros ->.
Qed.

Lemma call_in_last_row_never_returns_witness :
  (∀ r, build_PDG call_last_fs "csv/b.c" "data/sensiAPI.txt" "b.c" ≠ Ok r) ∧
  (∀ sensi_api_set acc,
     classify_step call_last_nodes sensi_api_set acc
       ((length call_last_nodes - 1)%nat,
        {[ "key" := "0"; "type" := "CallExpression"; "code" := "gets(buf)";
           "location" := "3:1"; "operator" := "" ]}) = Raise IndexError).
Proof.
  apply (call_in_last_row_never_returns call_last_fs "csv/b.c" "data/sensiAPI.txt" "b.c"
           call_last_nodes [] _ "CallExpression").
  - eexists. vm_compute. reflexivity.
  - vm_compute. reflexivity.
  - vm_compute. reflexivity.
  - reflexivity.
  - reflexivity.
  - reflexivity.
Defined.

(** X11. With the API list and both tables present, a node table with a
    row whose location is not empty and whose line part [int] rejects never
    lets [build_PDG] return, wherever the row stands;
    [extract_nodes_with_location_info] itself does not return on it. *)
Theorem malformed_location_never_returns (fs : filesystem)
    (code_path sensi_api_path source_path : string)
    (nodes edges : list row) (i : nat) (node : row) (location : string) :
  is_Some (fs !! sensi_api_path) →
  read_csv fs (join code_path "nodes.csv") = Ok nodes →
  read_csv fs (join code_path "edges.csv") = Ok edges →
  nodes !! i = Some node →
  node !! "location" = Some location → location ≠ EmptyString →
  PyStr.int (line_part location) = None →
  (∀ info, extract_nodes_with_location_info nodes ≠ Ok info) ∧
  (∀ r, build_PDG fs code_path sensi_api_path source_path ≠ Ok r).
Proof.
  intros Hs Hnodes Hedges Hi Hloc Hne Hint.
  pose proof (extract_nodes_malformed_not_Ok nodes i node location Hi Hloc Hne Hint)
    as Hextract.
  split; [done |]. intros r.
  destruct (build_PDG_with_tables fs code_path sensi_api_path source_path _ _ Hs
              Hnodes Hedges) as (text & _ & ->).
  unfold build_PDG_tables.
  rewrite bool_decide_eq_false_2 by (by destruct nodes).
  destruct (foldlM (classify_step _ _) _ _) as [kl | |]; [| done | done]. simpl_result.
  destruct (extract_nodes_with_location_info nodes) as [info | |] eqn:E; [| done | done].
  by destruct (Hextract info).
Qed.

Lemma malformed_location_never_returns_witness :
  (∀ info, extract_nodes_with_location_info malformed_nodes ≠ Ok info) ∧
  (∀ r, build_PDG malformed_fs "csv/c.c" "data/sensiAPI.txt" "c.c" ≠ Ok r).
Proof.
  apply (malformed_location_never_returns malformed_fs "csv/c.c" "data/sensiAPI.txt" "c.c"
           malformed_nodes [] 0%nat
           {[ "key" := "0"; "type" := "ArrayIndexing"; "code" := "a[i]";
              "location" := "abc"; "operator" := "" ]} "abc").
  - eexists. vm_compute. reflexivity.
  - vm_compute. reflexivity.
  - vm_compute. reflexivity.
  - reflexivity.
  - reflexivity.
  - discriminate.
  - reflexivity.
Defined.

(** ** The line resolver *)

Lemma extract_line_number_from_total (nodes : list row) (i : nat) :
  (i < length nodes)%nat →
  ∃ ln, extract_line_number_from i nodes = Ok ln ∧
        (resolves nodes i ln ∨
         (ln = -1 ∧ ∀ k, (k ≤ i)%nat → nodes !! k ≫= own_line = None)).
Proof.
  induction i as [| i IH]; intros Hlt.
  - destruct (lookup_lt_is_Some_2 nodes 0%nat Hlt) as [c Hc].
    cbn. unfold index. rewrite Hc. simpl_result.
    destruct (own_line c) as [ln |] eqn:Hown.
    + exists ln. split; [done |]. left. exists 0%nat. split; [lia |].
      split; [by rewrite Hc |]. intros k Hk. lia.
    + exists (-1). split; [done |]. right. split; [done |]. intros k Hk.
      assert (k = 0%nat) as -> by lia. by rewrite Hc.
  - destruct (lookup_lt_is_Some_2 nodes (S i) Hlt) as [c Hc].
    cbn. unfold index. rewrite Hc. simpl_result.
    destruct (own_line c) as [ln |] eqn:Hown.
    + exists ln. split; [done |]. left. exists (S i). split; [lia |].
      split; [by rewrite Hc |]. intros k Hk. lia.
    + destruct IH as (ln & Hln & Hcase); [lia |].
      exists ln. split; [done |]. destruct Hcase as [(j & Hj & Hown' & Hbetween) | [-> Hnone]].
      * left. exists j. split; [lia |]. split; [done |]. intros k Hk.
        destruct (decide (k = S i)) as [-> | Hne]; [by rewrite Hc | apply Hbetween; lia].
      * right. split; [done |]. intros k Hk.
        destruct (decide (k = S i)) as [-> | Hne]; [by rewrite Hc | apply Hnone; lia].
Qed.

(** X12. [extract_line_number] by cases on the index. Below 0 it answers
    -1 without looking at the nodes; at or past the end of the list it
    raises [IndexError]; inside the list it never raises, and answers the
    line of the nearest node at or before the index whose location is
    present, not blank and accepted by [int], or -1 when no node at or
    before the index has such a location. *)
Theorem extract_line_number_cases (nodes : list row) (idx : Z) :
  (idx < 0 → extract_line_number idx nodes = Ok (-1)) ∧
  (Z.of_nat (length nodes) ≤ idx → extract_line_number idx nodes = Raise IndexError) ∧
  (0 ≤ idx < Z.of_nat (length nodes) →
   ∃ ln, extract_line_number idx nodes = Ok ln ∧
         (resolves nodes (Z.to_nat idx) ln ∨
          (ln = -1 ∧ ∀ k, (k ≤ Z.to_nat idx)%nat → nodes !! k ≫= own_line = None))).
Proof.
  unfold extract_line_number. split; [| split].
  - intros H. by rewrite (proj2 (Z.ltb_lt idx 0) H).
  - intros H. rewrite (proj2 (Z.ltb_ge idx 0)) by lia.
    destruct (Z.to_nat idx) as [| i] eqn:E; cbn; unfold index;
      rewrite lookup_ge_None_2 by lia; done.
  - intros H. rewrite (proj2 (Z.ltb_ge idx 0)) by lia.
    apply extract_line_number_from_total. lia.
Qed.

Lemma extract_line_number_cases_witness :
  extract_line_number (-3) fallback_nodes = Ok (-1) ∧
  extract_line_number 2 fallback_nodes = Raise IndexError ∧
  ∃ ln, extract_line_number 1 fallback_nodes = Ok ln ∧
        (resolves fallback_nodes (Z.to_nat 1) ln ∨
         (ln = -1 ∧ ∀ k, (k ≤ Z.to_nat 1)%nat → fallback_nodes !! k ≫= own_line = None)).
Proof.
  destruct (extract_line_number_cases fallback_nodes (-3)) as (H1 & _ & _).
  destruct (extract_line_number_cases fallback_nodes 2) as (_ & H2 & _).
  destruct (extract_line_number_cases fallback_nodes 1) as (_ & _ & H3).
  split; [apply H1; lia |]. split; [apply H2; cbn; lia |]. apply H3. cbn. lia.
Defined.

(** X13. For [extract_line_number], a node whose location is blank, or
    whose line part [int] rejects, counts as a node without the location
    field: removing the field from that node does not change the answer,
    for any index. *)
Theorem unusable_location_counts_as_absent (nodes : list row) (i : nat) (node : row)
    (location : string) (idx : Z) :
  nodes !! i = Some node →
  node !! "location" = Some location →
  PyStr.strip location = EmptyString ∨ PyStr.int (line_part location) = None →
  extract_line_number idx nodes
  = extract_line_number idx (<[i := delete "location" node]> nodes).
Proof.
  intros Hi Hloc Hbad. unfold extract_line_number. case_match; [done |].
  apply extract_line_number_from_ext; [by rewrite length_insert |].
  intros k. destruct (decide (k = i)) as [-> | Hne].
  - rewrite list_lookup_insert_eq by (by eapply lookup_lt_Some).
    rewrite Hi. cbn. unfold own_line. rewrite Hloc, lookup_delete_eq.
    destruct Hbad as [Hblank | Hint].
    + by rewrite bool_decide_eq_false_2 by (by intros ?).
    + rewrite Hint. by case_bool_decide.
  - by rewrite list_lookup_insert_ne.
Qed.

Lemma unusable_location_counts_as_absent_witness :
  extract_line_number 1 fallback_nodes
  = extract_line_number 1
      (<[1%nat := delete "location" ({[ "key" := "1"; "type" := "Callee"; "location" := "" ]} : row)]>
         fallback_nodes).
Proof.
  apply (unusable_location_counts_as_absent fallback_nodes 1 _ "" 1).
  - reflexivity.
  - reflexivity.
  - left. reflexivity.
Defined.

(** ** Stripping white space *)

Lemma rstrip_blank (s : string) : PyStr.rstrip s = EmptyString ↔ blank s = true.
Proof.
  induction s as [| c s IH]; [done |]. cbn [PyStr.rstrip blank].
  destruct (PyStr.rstrip s) as [| c' r] eqn:E.
  - destruct (PyStr.is_space c); cbn [andb]; [by rewrite <- IH | done].
  - split; [done |]. intros [_ Hb]%andb_true_iff. apply IH in Hb. done.
Qed.

Lemma lstrip_blank (s : string) : PyStr.lstrip s = EmptyString ↔ blank s = true.
Proof.
  induction s as [| c s IH]; [done |]. cbn [PyStr.lstrip blank].
  by destruct (PyStr.is_space c).
Qed.

Lemma rstrip_idem (s : string) : PyStr.rstrip (PyStr.rstrip s) = PyStr.rstrip s.
Proof.
  induction s as [| c s IH]; [done |]. cbn [PyStr.rstrip].
  destruct (PyStr.rstrip s) as [| c' r] eqn:E.
  - destruct (PyStr.is_space c) eqn:Ec; [done |]. cbn [PyStr.rstrip]. by rewrite Ec.
  - change (PyStr.rstrip (String c (String c' r)))
      with (match PyStr.rstrip (String c' r) with
            | EmptyString => if PyStr.is_space c then EmptyString else String c EmptyString
            | r' => String c r'
            end).
    by rewrite IH.
Qed.

(** Stripping on the left keeps a text that has nothing to strip on the
    right that way. *)
Lemma rstrip_lstrip_fixed (r : string) :
  PyStr.rstrip r = r → PyStr.rstrip (PyStr.lstrip r) = PyStr.lstrip r.
Proof.
  induction r as [| c r IH]; [done |]. intros Hfix. cbn [PyStr.lstrip].
  destruct (PyStr.is_space c) eqn:Ec; [| done].
  apply IH. cbn [PyStr.rstrip] in Hfix. rewrite Ec in Hfix.
  destruct (PyStr.rstrip r) as [| c' r']; [done |]. by injection Hfix.
Qed.

Lemma lstrip_idem (s : string) : PyStr.lstrip (PyStr.lstrip s) = PyStr.lstrip s.
Proof.
  induction s as [| c s IH]; [done |]. cbn [PyStr.lstrip].
  destruct (PyStr.is_space c) eqn:Ec; [done |]. cbn [PyStr.lstrip]. by rewrite Ec.
Qed.

Lemma strip_idem (s : string) : PyStr.strip (PyStr.strip s) = PyStr.strip s.
Proof.
  unfold PyStr.strip.
  rewrite (rstrip_lstrip_fixed (PyStr.rstrip s)) by apply rstrip_idem.
  apply lstrip_idem.
Qed.

Lemma strip_blank (s : string) : PyStr.strip s = EmptyString ↔ blank s = true.
Proof.
  unfold PyStr.strip. rewrite lstrip_blank, <- rstrip_blank, rstrip_idem.
  apply rstrip_blank.
Qed.

Lemma strip_cons_space (c : ascii) (s : string) :
  PyStr.is_space c = true → PyStr.strip (String c s) = PyStr.strip s.
Proof.
  intros Hc. unfold PyStr.strip. cbn [PyStr.rstrip].
  destruct (PyStr.rstrip s) as [| c' r] eqn:E; [by rewrite Hc |].
  change (PyStr.lstrip (String c (String c' r)))
    with (if PyStr.is_space c then PyStr.lstrip (String c' r) else String c (String c' r)).
  by rewrite Hc.
Qed.

Lemma split_blank (sep : ascii) (s : string) :
  PyStr.is_space sep = false → blank s = true → PyStr.split sep s = [s].
Proof.
  intros Hsep. induction s as [| c s IH]; [done |].
  cbn [blank]. intros [Hc Hs]%andb_true_iff. cbn [PyStr.split].
  destruct (Ascii.eqb_spec c sep) as [-> | _]; [congruence |].
  by rewrite (IH Hs).
Qed.

Lemma blank_int_rstrip (s : string) : blank s = true → blank (PyStr.int_rstrip s) = true.
Proof.
  induction s as [| c s IH]; [done |]. cbn [blank PyStr.int_rstrip].
  intros [Hc Hs]%andb_true_iff. specialize (IH Hs).
  destruct (PyStr.int_rstrip s) as [| c' r].
  - destruct (PyStr.is_int_space c); [done |]. cbn [blank]. by rewrite Hc.
  - cbn [blank] in *. by rewrite Hc, IH.
Qed.

Lemma blank_int_lstrip (s : string) : blank s = true → blank (PyStr.int_lstrip s) = true.
Proof.
  induction s as [| c s IH]; [done |]. cbn [PyStr.int_lstrip].
  destruct (PyStr.is_int_space c); [| done].
  cbn [blank]. intros [_ Hs]%andb_true_iff. by apply IH.
Qed.

(** No number starts with white space: after the white space [int] skips,
    a white-space character is neither a sign nor a digit. *)
Lemma int_blank (s : string) : blank s = true → PyStr.int s = None.
Proof.
  intros Hs. apply blank_int_rstrip, blank_int_lstrip in Hs. unfold PyStr.int.
  destruct (PyStr.int_lstrip (PyStr.int_rstrip s)) as [| c body]; [done |].
  cbn [blank] in Hs. apply andb_true_iff in Hs as [Hc _]. revert Hc. clear.
  destruct c as [[] [] [] [] [] [] [] []]; vm_compute; first [discriminate | reflexivity].
Qed.

(** A location that [int] accepts a line of is not blank. *)
Lemma int_line_part_not_blank (location : string) (ln : Z) :
  PyStr.int (line_part location) = Some ln → PyStr.strip location ≠ EmptyString.
Proof.
  intros Hint Hblank. apply strip_blank in Hblank.
  unfold line_part in Hint. rewrite (split_blank ":" location) in Hint by done.
  cbn [hd] in Hint. by rewrite (int_blank location Hblank) in Hint.
Qed.

Lemma located_own_line (node : row) (id : string) (ln : Z) :
  located node = Some (id, ln) → own_line node = Some ln.
Proof.
  unfold located, own_line. destruct (node !! "location") as [location |]; [| done].
  cbn. case_bool_decide; [done |].
  destruct (node !! "key") as [key |]; [| done]. cbn.
  destruct (PyStr.int (line_part location)) as [n |] eqn:Hint; [| done]. cbn.
  intros [= <- <-].
  by rewrite bool_decide_eq_true_2 by (by eapply int_line_part_not_blank).
Qed.

(** ** The arrays of [extract_nodes_with_location_info] *)

Lemma location_info_step_Ok (info info' : location_info) (i : nat) (node : row) :
  location_info_step info (i, node) = Ok info' →
  match located node with
  | Some (id, ln) =>
      info' = {| node_indices := node_indices info ++ [i];
                 node_ids := node_ids info ++ [id];
                 line_numbers := line_numbers info ++ [ln];
                 node_id_to_line_number := <[id := ln]> (node_id_to_line_number info) |}
  | None => info' = info
  end.
Proof.
  unfold location_info_step, located, getitem.
  destruct (node !! "location") as [location |]; [| by intros [= <-]]. cbn.
  case_bool_decide; [by intros [= <-] |].
  destruct (PyStr.int (line_part location)) as [n |]; [| done]. simpl_result.
  destruct (node !! "key") as [key |]; [| done]. cbn. by intros [= <-].
Qed.

Lemma located_rows_snoc (nodes : list row) (node : row) :
  located_rows (nodes ++ [node])
  = located_rows nodes ++
    match located node with
    | Some (id, ln) => [(length nodes, id, ln)]
    | None => []
    end.
Proof.
  unfold located_rows. rewrite enumerate_snoc, omap_app. f_equal. cbn.
  by destruct (located node) as [[id ln] |].
Qed.

Lemma extract_nodes_rows (nodes : list row) (info : location_info) :
  extract_nodes_with_location_info nodes = Ok info →
  info = {| node_indices := (fun r => r.1.1) <$> located_rows nodes;
            node_ids := (fun r => r.1.2) <$> located_rows nodes;
            line_numbers := (fun r => r.2) <$> located_rows nodes;
            node_id_to_line_number :=
              list_to_map (reverse ((fun r => (r.1.2, r.2)) <$> located_rows nodes)) |}.
Proof.
  revert info. induction nodes as [| node nodes IH] using rev_ind; intros info.
  - by intros [= <-].
  - rewrite extract_nodes_snoc.
    destruct (extract_nodes_with_location_info nodes) as [info0 | |]; [| done | done].
    simpl_result. intros Hstep. apply location_info_step_Ok in Hstep.
    rewrite located_rows_snoc. rewrite (IH info0 eq_refl) in Hstep.
    destruct (located node) as [[id ln] |].
    + rewrite Hstep, !fmap_app, !fmap_cons, !fmap_nil, reverse_snoc. done.
    + rewrite Hstep, !app_nil_r. done.
Qed.

Lemma elem_of_located_rows (nodes : list row) (i : nat) (id : string) (ln : Z) :
  (i, id, ln) ∈ located_rows nodes ↔
  ∃ node, nodes !! i = Some node ∧ located node = Some (id, ln).
Proof.
  unfold located_rows. rewrite list_elem_of_omap. split.
  - intros ([j node] & Hin%elem_of_enumerate & H).
    destruct (located node) as [[id' ln'] |] eqn:E; [| done]. cbn in H.
    injection H as -> -> ->. by exists node.
  - intros (node & Hi & Hloc). exists (i, node).
    split; [by apply elem_of_enumerate |]. by rewrite Hloc.
Qed.

Lemma zip_fmap_same {A B C} (f : A → B) (g : A → C) (l : list A) :
  zip (f <$> l) (g <$> l) = (fun x => (f x, g x)) <$> l.
Proof. induction l as [| a l IH]; [done |]. cbn. by rewrite IH. Qed.

(** X14. The arrays returned by [extract_nodes_with_location_info] match
    one to one, as its docstring asks: they are the indices, the
    identifiers and the lines of one and the same list of rows (the rows
    with a location of their own, in table order), so they have the same
    length; and the identifier-to-line table is built from the pairs
    (identifier, line) of the two arrays, a later pair replacing an earlier
    one with the same identifier. *)
Theorem location_info_arrays_match (nodes : list row) (info : location_info) :
  extract_nodes_with_location_info nodes = Ok info →
  node_indices info = (fun r => r.1.1) <$> located_rows nodes ∧
  node_ids info = (fun r => r.1.2) <$> located_rows nodes ∧
  line_numbers info = (fun r => r.2) <$> located_rows nodes ∧
  length (node_ids info) = length (node_indices info) ∧
  length (line_numbers info) = length (node_indices info) ∧
  node_id_to_line_number info
  = list_to_map (reverse (zip (node_ids info) (line_numbers info))) ∧
  (∀ i id ln, (i, id, ln) ∈ located_rows nodes ↔
              ∃ node, nodes !! i = Some node ∧ located node = Some (id, ln)).
Proof.
  intros H. apply extract_nodes_rows in H as ->. cbn.
  rewrite !length_fmap, zip_fmap_same.
  repeat split; try done; apply elem_of_located_rows.
Qed.

Lemma location_info_arrays_match_witness :
  node_indices both_info = (fun r => r.1.1) <$> located_rows both_nodes ∧
  node_ids both_info = (fun r => r.1.2) <$> located_rows both_nodes ∧
  line_numbers both_info = (fun r => r.2) <$> located_rows both_nodes ∧
  length (node_ids both_info) = length (node_indices both_info) ∧
  length (line_numbers both_info) = length (node_indices both_info) ∧
  node_id_to_line_number both_info
  = list_to_map (reverse (zip (node_ids both_info) (line_numbers both_info))) ∧
  (∀ i id ln, (i, id, ln) ∈ located_rows both_nodes ↔
              ∃ node, both_nodes !! i = Some node ∧ located node = Some (id, ln)).
Proof.
  apply (location_info_arrays_match both_nodes both_info).
  vm_compute. reflexivity.
Defined.

(** X15. The two resolvers agree on the rows that state a location of
    their own. When [extract_nodes_with_location_info] returns, the line it
    records at a position of its arrays is the line [extract_line_number]
    answers for the node index at that position, and every entry of the
    identifier-to-line table is the answer of [extract_line_number] for some
    node with that identifier. *)
Theorem location_info_agrees_with_resolver (nodes : list row) (info : location_info) :
  extract_nodes_with_location_info nodes = Ok info →
  (∀ k i ln, node_indices info !! k = Some i → line_numbers info !! k = Some ln →
             extract_line_number (Z.of_nat i) nodes = Ok ln) ∧
  (∀ id ln, node_id_to_line_number info !! id = Some ln →
            ∃ i node key, nodes !! i = Some node ∧ node !! "key" = Some key ∧
                          PyStr.strip key = id ∧
                          extract_line_number (Z.of_nat i) nodes = Ok ln).
Proof.
  intros H. apply extract_nodes_rows in H as ->.
  cbn [node_indices node_ids line_numbers node_id_to_line_number].
  assert (∀ i id ln, (i, id, ln) ∈ located_rows nodes →
                     ∃ node, nodes !! i = Some node ∧ located node = Some (id, ln) ∧
                             extract_line_number (Z.of_nat i) nodes = Ok ln) as Hrow.
  { intros i id ln (node & Hi & Hloc)%elem_of_located_rows.
    exists node. split; [done |]. split; [done |].
    unfold extract_line_number. rewrite (proj2 (Z.ltb_ge _ 0)) by lia.
    rewrite Nat2Z.id. apply extract_line_number_from_resolves.
    - by eapply lookup_lt_Some.
    - exists i. split; [lia |]. split.
      + rewrite Hi. cbn. by eapply located_own_line.
      + intros k Hk. lia. }
  split.
  - intros k i ln Hi Hln. rewrite list_lookup_fmap in Hi. rewrite list_lookup_fmap in Hln.
    destruct (located_rows nodes !! k) as [[[i' id'] ln'] |] eqn:E; [| done].
    cbn in Hi, Hln. injection Hi as ->. injection Hln as ->.
    destruct (Hrow i id' ln) as (node & _ & _ & Hext); [| done].
    apply list_elem_of_lookup. by exists k.
  - intros id ln Hid. apply elem_of_list_to_map_2 in Hid.
    apply elem_of_reverse, list_elem_of_fmap in Hid as ([[i id'] ln'] & [= -> ->] & Hin).
    destruct (Hrow i id' ln' Hin) as (node & Hi & Hloc & Hext).
    unfold located in Hloc. destruct (node !! "location") as [location |]; [| done].
    cbn in Hloc. case_bool_decide; [done |].
    destruct (node !! "key") as [key |] eqn:Hkey; [| done]. cbn in Hloc.
    destruct (PyStr.int (line_part location)); [| done]. cbn in Hloc.
    injection Hloc as <- <-. by exists i, node, key.
Qed.

Lemma location_info_agrees_with_resolver_witness :
  (∀ k i ln, node_indices both_info !! k = Some i → line_numbers both_info !! k = Some ln →
             extract_line_number (Z.of_nat i) both_nodes = Ok ln) ∧
  (∀ id ln, node_id_to_line_number both_info !! id = Some ln →
            ∃ i node key, both_nodes !! i = Some node ∧ node !! "key" = Some key ∧
                          PyStr.strip key = id ∧
                          extract_line_number (Z.of_nat i) both_nodes = Ok ln).
Proof.
  apply (location_info_agrees_with_resolver both_nodes both_info).
  vm_compute. reflexivity.
Defined.

(** ** More on the tabular loader *)

(** X16. The loader strips a line before it splits it into cells, so
    white space at the start of a line, tabs included, does not start a
    cell: a row that begins with an empty cell is read as if the empty cell
    were not there, and its other cells move one column to the left. *)
Theorem leading_whitespace_is_no_cell (h_parts : list string) (c : ascii) (line : string) :
  PyStr.is_space c = true →
  read_row h_parts (String c line) = read_row h_parts line.
Proof. intros Hc. unfold read_row. by rewrite (strip_cons_space c line Hc). Qed.

Lemma leading_whitespace_is_no_cell_witness :
  read_row ["key"; "type"] (String PyStr.TAB "CallExpression")
  = read_row ["key"; "type"] "CallExpression".
Proof. apply (leading_whitespace_is_no_cell _ PyStr.TAB). reflexivity. Defined.

Lemma read_row_values (h_parts : list string) (line k v : string) :
  read_row h_parts line !! k = Some v → PyStr.strip v = v.
Proof.
  induction h_parts as [| hp h_parts IH] using rev_ind; [done |].
  rewrite read_row_snoc. destruct (decide (hp = k)) as [-> | Hne].
  - rewrite lookup_insert_eq. intros [= <-]. case_match; [apply strip_idem | done].
  - by rewrite lookup_insert_ne.
Qed.

Lemma read_csv_inv (fs : filesystem) (p : string) (data : list row) :
  read_csv fs p = Ok data →
  ∃ content, fs !! p = Some content ∧
    data = read_row (PyStr.strip <$>
                       PyStr.split PyStr.TAB
                         (PyStr.strip (hd EmptyString
                            (PyStr.readlines (PyStr.universal_newlines content)))))
           <$> tl (PyStr.readlines (PyStr.universal_newlines content)).
Proof.
  intros H. destruct (fs !! p) as [content |] eqn:E.
  - exists content. split; [done |]. rewrite (read_csv_of_content _ _ _ E) in H.
    by injection H.
  - unfold read_csv in H. by rewrite (path_exists_None _ _ E) in H.
Qed.

(** X17. Every row [read_csv] returns has stripped names and stripped
    values: stripping a column name or a value of a loaded row again does
    not change it. So for a loaded row a field is blank exactly when it is
    the empty text, and the test [location == ''] of
    [extract_nodes_with_location_info] and the test
    [location.strip() != ''] of [extract_line_number] tell the same rows
    apart. *)
Theorem read_csv_fields_stripped (fs : filesystem) (p : string) (data : list row)
    (instance : row) (k v : string) :
  read_csv fs p = Ok data →
  instance ∈ data → instance !! k = Some v →
  PyStr.strip k = k ∧ PyStr.strip v = v ∧
  (PyStr.strip v = EmptyString ↔ v = EmptyString).
Proof.
  intros H Hin Hk. apply read_csv_inv in H as (content & _ & ->).
  apply list_elem_of_fmap in Hin as (line & -> & _).
  assert (PyStr.strip v = v) as Hv by (by eapply read_row_values).
  split; [| split; [done | by rewrite Hv]].
  assert (k ∈ dom (read_row (PyStr.strip <$>
                       PyStr.split PyStr.TAB
                         (PyStr.strip (hd EmptyString
                            (PyStr.readlines (PyStr.universal_newlines content))))) line))
    as Hdom by (apply elem_of_dom; eauto).
  rewrite read_row_dom, elem_of_list_to_set in Hdom.
  apply list_elem_of_fmap in Hdom as (name & -> & _). apply strip_idem.
Qed.

Lemma read_csv_fields_stripped_witness :
  PyStr.strip "location" = "location" ∧ PyStr.strip "10:5" = "10:5" ∧
  (PyStr.strip "10:5" = EmptyString ↔ "10:5" = EmptyString).
Proof.
  apply (read_csv_fields_stripped ex_fs "csv/a.c/nodes.csv" ex_nodes
           {[ "key" := "0"; "type" := "CallExpression"; "code" := "strcpy(a, b)";
              "location" := "10:5"; "operator" := "" ]}).
  - vm_compute. reflexivity.
  - apply list_elem_of_here.
  - reflexivity.
Defined.

(** ** The manifest reader *)

Example getCodeIDtoPathDict_ex_manifest :
  getCodeIDtoPathDict ex_manifest = Ok {[ "7" := {[ "a.c" := {[ 3 ]} ]} ]} ∧
  getCodeIDtoPathDict (take 1 ex_manifest)
  = Ok {[ "7" := {[ "a.c" := {[ 10; 12 ]}; "b.c" := ∅ ]} ]}.
Proof. split; vm_compute; reflexivity. Qed.

(** A loop that stores one entry per element: the table it returns holds,
    under a key, the value of the last element with that key. *)
Lemma foldlM_insert_last {A V} (entry : A → result (string * V)) (l : list A)
    (m : gmap string V) :
  foldlM (fun acc x => '(k, v) ← entry x; Ok (<[k := v]> acc)) ∅ l = Ok m →
  ∀ k v, m !! k = Some v ↔
         ∃ i x, l !! i = Some x ∧ entry x = Ok (k, v) ∧
                ∀ j x' v', (i < j)%nat → l !! j = Some x' → entry x' ≠ Ok (k, v').
Proof.
  revert m. induction l as [| a l IH] using rev_ind; intros m.
  - intros [= <-] k v. rewrite lookup_empty. split; [done |]. by intros (i & x & ? & _).
  - rewrite foldlM_app.
    destruct (foldlM _ ∅ l) as [m0 | |] eqn:E; [| done | done]. simpl_result.
    cbn [foldlM]. destruct (entry a) as [[k0 v0] | |] eqn:Ea; [| done | done].
    simpl_result. intros [= <-] k v. specialize (IH m0 eq_refl).
    destruct (decide (k0 = k)) as [-> | Hne].
    + rewrite lookup_insert_eq. split.
      * intros [= ->]. exists (length l), a. split; [by rewrite list_lookup_middle |].
        split; [done |]. intros j x' v' Hj Hx'.
        rewrite lookup_ge_None_2 in Hx'; [done |]. rewrite length_app. cbn. lia.
      * intros (i & x & Hi & Hx & Hlast).
        destruct (decide (i < length l)%nat) as [Hlt | Hge].
        -- exfalso. apply (Hlast (length l) a v0 Hlt); [by rewrite list_lookup_middle | done].
        -- assert (i = length l) as ->.
           { apply lookup_lt_Some in Hi. rewrite length_app in Hi. cbn in Hi. lia. }
           rewrite list_lookup_middle in Hi by done. injection Hi as <-. congruence.
    + rewrite lookup_insert_ne by done. rewrite IH. split.
      * intros (i & x & Hi & Hx & Hlast). exists i, x.
        assert (i < length l)%nat as Hlt by (by eapply lookup_lt_Some).
        split; [by rewrite lookup_app_l |]. split; [done |].
        intros j x' v' Hj Hx'.
        destruct (decide (j < length l)%nat) as [Hjl | Hjl].
        -- rewrite lookup_app_l in Hx' by done. by eapply Hlast.
        -- assert (j = length l) as ->.
           { apply lookup_lt_Some in Hx'. rewrite length_app in Hx'. cbn in Hx'. lia. }
           rewrite list_lookup_middle in Hx' by done. injection Hx' as <-. congruence.
      * intros (i & x & Hi & Hx & Hlast).
        destruct (decide (i < length l)%nat) as [Hlt | Hge].
        -- exists i, x. rewrite lookup_app_l in Hi by done. split; [done |].
           split; [done |]. intros j x' v' Hj Hx'.
           apply (Hlast j x' v' Hj). rewrite lookup_app_l; [done |].
           by eapply lookup_lt_Some.
        -- assert (i = length l) as ->.
           { apply lookup_lt_Some in Hi. rewrite length_app in Hi. cbn in Hi. lia. }
           rewrite list_lookup_middle in Hi by done. injection Hi as <-. congruence.
Qed.

Lemma add_lines_Ok (elems : list Element) (VulLine lines : gset Z) :
  add_lines VulLine elems = Ok lines →
  lines = list_to_set (omap (fun x => attrib x !! "line" ≫= PyStr.int) elems) ∪ VulLine.
Proof.
  unfold add_lines. revert VulLine. induction elems as [| x elems IH]; intros VulLine.
  - intros [= <-]. cbn. set_solver.
  - cbn [foldlM]. destruct (add_line VulLine x) as [v | |] eqn:E; simpl_result; [| done | done].
    intros H. apply IH in H as ->. unfold add_line, getitem in E.
    destruct (attrib x !! "line") as [line |] eqn:Hline; simpl_result; [| done].
    cbn in E. destruct (PyStr.int line) as [n |] eqn:Hint; [| done].
    injection E as <-. cbn [omap list_omap]. rewrite Hline. cbn.
    rewrite Hint. cbn. clear. set_solver.
Qed.

Lemma file_entry_Ok (file : Element) (path : string) (lines : gset Z) :
  file_entry file = Ok (path, lines) →
  attrib file !! "path" = Some path ∧ lines = vul_lines file.
Proof.
  unfold file_entry, getitem, vul_lines. rewrite omap_app, list_to_set_app_L.
  destruct (attrib file !! "path") as [p |]; simpl_result; [| done].
  destruct (findall file "flaw") as [| f fs] eqn:Ef,
           (findall file "mixed") as [| x xs] eqn:Em,
           (findall file "fix") as [| y ys] eqn:Ex; cbn [nonempty orb];
    simpl_result;
    repeat match goal with
      | |- context [add_lines ?V ?l] =>
          let E := fresh "E" in
          destruct (add_lines V l) eqn:E; simpl_result; [| done | done];
          apply add_lines_Ok in E as ->
      end;
    intros [= <- <-]; (split; [done |]); clear; set_solver.
Qed.
Lemma foldlM_insert_entries {A V} (entry : A → result (string * V)) (l : list A)
    (acc m : gmap string V) :
  foldlM (fun acc x => '(k, v) ← entry x; Ok (<[k := v]> acc)) acc l = Ok m →
  ∀ x, x ∈ l → ∃ kv, entry x = Ok kv.
Proof.
  revert acc. induction l as [| a l IH]; intros acc H x Hx.
  - by apply elem_of_nil in Hx.
  - cbn [foldlM] in H. revert H.
    destruct (entry a) as [[k0 v0] | |] eqn:Ea; simpl_result; [| done | done].
    intros H. apply elem_of_cons in Hx as [-> | Hx]; [by eexists |].
    by eapply IH.
Qed.

Lemma foldlM_insert_keys {A V} (entry : A → result (string * V)) (l : list A)
    (acc m : gmap string V) :
  foldlM (fun acc x => '(k, v) ← entry x; Ok (<[k := v]> acc)) acc l = Ok m →
  ∀ k, is_Some (m !! k) ↔ is_Some (acc !! k) ∨ ∃ x v, x ∈ l ∧ entry x = Ok (k, v).
Proof.
  revert acc. induction l as [| a l IH]; intros acc H k.
  - injection H as <-. split; [by left |]. intros [? | (x & v & Hx & _)]; [done |].
    by apply elem_of_nil in Hx.
  - cbn [foldlM] in H. revert H.
    destruct (entry a) as [[k0 v0] | |] eqn:Ea; simpl_result; [| done | done].
    intros H. rewrite (IH _ H k). split.
    + intros [Hk | (x & v & Hx & Ex)].
      * destruct (decide (k0 = k)) as [-> | Hne].
        -- right. exists a, v0. split; [apply list_elem_of_here | done].
        -- left. by rewrite lookup_insert_ne in Hk.
      * right. exists x, v. split; [by apply list_elem_of_further | done].
    + intros [Hk | (x & v & Hx & Ex)].
      * left. destruct (decide (k0 = k)) as [-> | Hne].
        -- by rewrite lookup_insert_eq.
        -- by rewrite lookup_insert_ne.
      * apply elem_of_cons in Hx as [-> | Hx].
        -- left. rewrite Ea in Ex. injection Ex as -> ->. by rewrite lookup_insert_eq.
        -- right. by exists x, v.
Qed.

Lemma foldlM_insert_last_with {A V} (entry : A → result (string * V))
    (key : A → option string) (l : list A) (m : gmap string V) :
  (∀ x k v, entry x = Ok (k, v) → key x = Some k) →
  foldlM (fun acc x => '(k, v) ← entry x; Ok (<[k := v]> acc)) ∅ l = Ok m →
  ∀ k v, m !! k = Some v ↔ ∃ x, last_with key l k x ∧ entry x = Ok (k, v).
Proof.
  intros Hkey H k v. rewrite (foldlM_insert_last entry l m H k v). split.
  - intros (i & x & Hi & Hx & Hlast). exists x. split; [| done].
    exists i. split; [done |]. split; [by eapply Hkey |].
    intros j x' Hj Hx' Hk.
    destruct (foldlM_insert_entries entry l ∅ m H x') as [[k' v'] E'].
    { by eapply list_elem_of_lookup_2. }
    pose proof (Hkey _ _ _ E') as Hk'. rewrite Hk in Hk'. injection Hk' as <-.
    by eapply Hlast.
  - intros (x & (i & Hi & Hk & Hlast) & Hx). exists i, x. split; [done |].
    split; [done |]. intros j x' v' Hj Hx' E'. eapply Hlast; [done | done |].
    by eapply Hkey.
Qed.

Lemma file_entry_eq (file : Element) :
  file_entry file
  = (path ← getitem (attrib file) "path";
     flaw_lines ← add_lines ∅ (findall file "flaw");
     VulLine ← add_lines flaw_lines (findall file "mixed");
     Ok (path, VulLine)).
Proof.
  unfold file_entry. destruct (getitem (attrib file) "path"); simpl_result; [| done | done].
  destruct (findall file "flaw") as [| f fs], (findall file "mixed") as [| x xs],
           (findall file "fix") as [| y ys]; cbn [nonempty orb]; simpl_result;
    try reflexivity;
    repeat match goal with
      | |- context [add_lines ?V (?a :: ?l)] =>
          destruct (add_lines V (a :: l)); simpl_result; try reflexivity
      end.
Qed.

Lemma testcase_entry_Ok (testcase : Element) (id : string) (paths : gmap string (gset Z)) :
  testcase_entry testcase = Ok (id, paths) →
  attrib testcase !! "id" = Some id ∧
  foldlM file_step ∅ (findall testcase "file") = Ok paths.
Proof.
  unfold testcase_entry, getitem.
  destruct (attrib testcase !! "id") as [i |]; simpl_result; [| done].
  destruct (foldlM file_step ∅ (findall testcase "file")); simpl_result; [| done | done].
  by intros [= -> ->].
Qed.
(** X18. When [getCodeIDtoPathDict] returns, the table holds exactly the
    identifiers of the test cases; under an identifier and a path it holds
    the lines of the flaw and mixed children of the last file element with
    that path in the last test case with that identifier.  Earlier test
    cases with the same identifier leave nothing behind, not even their
    other paths. *)
Theorem manifest_table_last_wins (testcases : list Element)
    (codeIDtoPath : gmap string (gmap string (gset Z))) :
  getCodeIDtoPathDict testcases = Ok codeIDtoPath →
  (∀ id, is_Some (codeIDtoPath !! id) ↔
         ∃ testcase, testcase ∈ testcases ∧ attrib testcase !! "id" = Some id) ∧
  (∀ id path lines,
     codeIDtoPath !! id ≫= (fun paths => paths !! path) = Some lines ↔
     ∃ testcase file,
       last_with (fun e => attrib e !! "id") testcases id testcase ∧
       last_with (fun e => attrib e !! "path") (findall testcase "file") path file ∧
       lines = vul_lines file).
Proof.
  unfold getCodeIDtoPathDict. intros H.
  assert (Hid : ∀ x k v, testcase_entry x = Ok (k, v) → attrib x !! "id" = Some k).
  { intros x k v E. by apply testcase_entry_Ok in E as [? _]. }
  assert (Hpath : ∀ x k v, file_entry x = Ok (k, v) → attrib x !! "path" = Some k).
  { intros x k v E. by apply file_entry_Ok in E as [? _]. }
  split.
  - intros id. rewrite (foldlM_insert_keys testcase_entry testcases ∅ _ H id).
    rewrite lookup_empty. split.
    + intros [[? [=]] | (x & v & Hx & E)]. exists x. split; [done | by eapply Hid].
    + intros (x & Hx & Hk). right.
      destruct (foldlM_insert_entries testcase_entry testcases ∅ _ H x Hx) as [[k v] E].
      exists x, v. split; [done |]. pose proof (Hid _ _ _ E). congruence.
  - intros id path lines. rewrite bind_Some. split.
    + intros (paths & Hpaths & Hlines).
      apply (foldlM_insert_last_with testcase_entry _ testcases _ Hid H) in Hpaths
        as (testcase & Hlast & E).
      apply testcase_entry_Ok in E as [_ E].
      apply (foldlM_insert_last_with file_entry _ _ _ Hpath E) in Hlines
        as (file & Hlast' & E').
      exists testcase, file. split; [done |]. split; [done |].
      by apply file_entry_Ok in E' as [_ ?].
    + intros (testcase & file & Hlast & Hlast' & ->).
      destruct Hlast as (i & Hi & Hk & Hlast).
      destruct (foldlM_insert_entries testcase_entry testcases ∅ _ H testcase)
        as [[k paths] E]; [by eapply list_elem_of_lookup_2 |].
      pose proof (Hid _ _ _ E) as Hk'. rewrite Hk in Hk'. injection Hk' as <-.
      exists paths. split.
      * apply (foldlM_insert_last_with testcase_entry _ testcases _ Hid H).
        exists testcase. split; [by exists i | done].
      * apply testcase_entry_Ok in E as [_ E].
        destruct Hlast' as (j & Hj & Hp & Hlast').
        destruct (foldlM_insert_entries file_entry _ ∅ _ E file)
          as [[p lines] E']; [by eapply list_elem_of_lookup_2 |].
        pose proof (Hpath _ _ _ E') as Hp'. rewrite Hp in Hp'. injection Hp' as <-.
        apply (foldlM_insert_last_with file_entry _ _ _ Hpath E).
        exists file. split; [by exists j |].
        by destruct (file_entry_Ok _ _ _ E') as [_ <-].
Qed.

Lemma manifest_table_last_wins_witness :
  getCodeIDtoPathDict ex_manifest = Ok {[ "7" := {[ "a.c" := {[ 3 ]} ]} ]} ∧
  ((∀ id, is_Some (({[ "7" := {[ "a.c" := {[ 3 ]} ]} ]} : gmap string (gmap string (gset Z))) !! id) ↔
          ∃ testcase, testcase ∈ ex_manifest ∧ attrib testcase !! "id" = Some id) ∧
   (∀ id path lines,
      ({[ "7" := {[ "a.c" := {[ 3 ]} ]} ]} : gmap string (gmap string (gset Z))) !! id
        ≫= (fun paths => paths !! path) = Some lines ↔
      ∃ testcase file,
        last_with (fun e => attrib e !! "id") ex_manifest id testcase ∧
        last_with (fun e => attrib e !! "path") (findall testcase "file") path file ∧
        lines = vul_lines file)).
Proof.
  split; [vm_compute; reflexivity |].
  apply (manifest_table_last_wins ex_manifest). vm_compute. reflexivity.
Defined.

Lemma findall_without_fix (file : Element) (t : string) :
  t ≠ "fix" → findall (without_fix file) t = findall file t.
Proof.
  intros Ht. unfold findall, without_fix. cbn [children].
  induction (children file) as [| c l IH]; [done |].
  rewrite !filter_cons. destruct (decide (tag c ≠ "fix")) as [Hc | Hc].
  - rewrite filter_cons. destruct (decide (tag c = t)); by rewrite IH.
  - rewrite IH. destruct (decide (tag c = t)) as [E | E]; [| done].
    exfalso. apply Hc. by rewrite E.
Qed.

Lemma file_entry_without_fix (file : Element) :
  file_entry (without_fix file) = file_entry file.
Proof.
  rewrite !file_entry_eq. by rewrite !findall_without_fix.
Qed.

Lemma findall_without_fixes (testcase : Element) :
  findall (without_fixes testcase) "file" = without_fix <$> findall testcase "file".
Proof.
  unfold findall, without_fixes. cbn [children].
  induction (children testcase) as [| c l IH]; [done |].
  rewrite fmap_cons, !filter_cons. case_bool_decide as Hc.
  - cbn [without_fix tag]. destruct (decide (tag c = "file")); [| done].
    by rewrite fmap_cons, IH.
  - destruct (decide (tag c = "file")); [done | by rewrite IH].
Qed.

Lemma foldlM_fmap {A B C} (f : B → A → result B) (g : C → A) (b : B) (l : list C) :
  foldlM f b (g <$> l) = foldlM (fun b x => f b (g x)) b l.
Proof.
  revert b. induction l as [| c l IH]; intros b; [done |].
  rewrite fmap_cons. cbn [foldlM]. destruct (f b (g c)); simpl_result; [apply IH | done | done].
Qed.

Lemma foldlM_ext {A B} (f g : B → A → result B) (b : B) (l : list A) :
  (∀ b x, f b x = g b x) → foldlM f b l = foldlM g b l.
Proof.
  intros Hfg. revert b. induction l as [| a l IH]; intros b; [done |].
  cbn [foldlM]. rewrite Hfg. destruct (g b a); simpl_result; [apply IH | done | done].
Qed.

Lemma testcase_entry_without_fixes (testcase : Element) :
  testcase_entry (without_fixes testcase) = testcase_entry testcase.
Proof.
  unfold testcase_entry. rewrite findall_without_fixes, foldlM_fmap.
  rewrite (foldlM_ext _ file_step); [done |].
  intros b x. unfold file_step. by rewrite file_entry_without_fix.
Qed.

(** X19. The fix children of a file element never reach the table: a
    manifest and the same manifest without them give the same outcome, be it
    a table or an exception.  In particular a fix element without a line, or
    with one that is no number, does no harm. *)
Theorem fix_elements_are_ignored (testcases : list Element) :
  getCodeIDtoPathDict (without_fixes <$> testcases) = getCodeIDtoPathDict testcases.
Proof.
  unfold getCodeIDtoPathDict. rewrite foldlM_fmap. apply foldlM_ext.
  intros b x. unfold testcase_step. by rewrite testcase_entry_without_fixes.
Qed.
Lemma returns_iff_bind {A B} (P Q : Prop) (r : result A) (f : A → result B) :
  returns_iff P r → (∀ a, r = Ok a → returns_iff Q (f a)) →
  returns_iff (P ∧ Q) (r ≫= f).
Proof.
  intros [[HP [a ->]] | [HP [-> | ->]]] Hf; simpl_result.
  - destruct (Hf a eq_refl) as [[HQ [b ->]] | [HQ Hr]].
    + left. split; [done | by eexists].
    + right. split; [tauto | done].
  - right. split; [tauto | by left].
  - right. split; [tauto | by right].
Qed.

Lemma returns_iff_proper {A} (P Q : Prop) (r : result A) :
  (P ↔ Q) → returns_iff P r → returns_iff Q r.
Proof. unfold returns_iff. tauto. Qed.

Lemma foldlM_returns {A B} (f : B → A → result B) (P : A → Prop) (l : list A) (b : B) :
  (∀ b x, returns_iff (P x) (f b x)) → returns_iff (Forall P l) (foldlM f b l).
Proof.
  intros Hf. revert b. induction l as [| a l IH]; intros b.
  - left. split; [constructor | by eexists].
  - cbn [foldlM]. apply (returns_iff_proper (P a ∧ Forall P l)).
    { by rewrite Forall_cons. }
    apply returns_iff_bind; [apply Hf | intros; apply IH].
Qed.

Lemma add_line_returns (VulLine : gset Z) (x : Element) :
  returns_iff (good_line x) (add_line VulLine x).
Proof.
  unfold add_line, getitem, good_line.
  destruct (attrib x !! "line") as [line |]; simpl_result.
  - destruct (PyStr.int line) as [n |] eqn:E.
    + left. split; [by exists line, n | by eexists].
    + right. split; [| by right]. intros (? & ? & [= <-] & ?). congruence.
  - right. split; [| by left]. by intros (? & ? & [=] & _).
Qed.

Lemma file_entry_returns (file : Element) :
  returns_iff (good_file file) (file_entry file).
Proof.
  rewrite file_entry_eq. unfold good_file.
  apply returns_iff_bind.
  { unfold getitem. destruct (attrib file !! "path").
    - left. split; [done | by eexists].
    - right. split; [by intros [? [=]] | by left]. }
  intros path _.
  apply (returns_iff_proper (Forall good_line (findall file "flaw")
                             ∧ (Forall good_line (findall file "mixed") ∧ True))).
  { rewrite Forall_app. tauto. }
  apply returns_iff_bind; [apply foldlM_returns, add_line_returns |].
  intros v _. apply returns_iff_bind; [apply foldlM_returns, add_line_returns |].
  intros v' _. left. split; [done | by eexists].
Qed.

Lemma testcase_entry_returns (testcase : Element) :
  returns_iff (good_testcase testcase) (testcase_entry testcase).
Proof.
  unfold testcase_entry, good_testcase.
  apply returns_iff_bind.
  { unfold getitem. destruct (attrib testcase !! "id").
    - left. split; [done | by eexists].
    - right. split; [by intros [? [=]] | by left]. }
  intros id _.
  apply (returns_iff_proper (Forall good_file (findall testcase "file") ∧ True)); [tauto |].
  apply returns_iff_bind.
  - apply foldlM_returns. intros b x. unfold file_step.
    apply (returns_iff_proper (good_file x ∧ True)); [tauto |].
    apply returns_iff_bind; [apply file_entry_returns |].
    intros [p v] _. left. split; [done | by eexists].
  - intros paths _. left. split; [done | by eexists].
Qed.

(** X20. [getCodeIDtoPathDict] returns a table exactly when every test
    case has an id, every file element of a test case a path, and every flaw
    and mixed element of a file element a line that [int] accepts; on any
    other manifest it raises [KeyError] or [ValueError]. *)
Theorem manifest_reader_returns_iff (testcases : list Element) :
  returns_iff (Forall good_testcase testcases) (getCodeIDtoPathDict testcases).
Proof.
  unfold getCodeIDtoPathDict. apply foldlM_returns. intros b x. unfold testcase_step.
  apply (returns_iff_proper (good_testcase x ∧ True)); [tauto |].
  apply returns_iff_bind; [apply testcase_entry_returns |].
  intros [id paths] _. left. split; [done | by eexists].
Qed.

Example manifest_reader_outcomes :
  getCodeIDtoPathDict [Elem "testcase" {[ "id" := "1" ]}
                         [Elem "file" {[ "path" := "a.c" ]} [Elem "fix" ∅ []]]]
  = Ok {[ "1" := {[ "a.c" := ∅ ]} ]} ∧
  getCodeIDtoPathDict [Elem "testcase" {[ "id" := "1" ]}
                         [Elem "file" {[ "path" := "a.c" ]} [Elem "flaw" ∅ []]]]
  = Raise KeyError ∧
  getCodeIDtoPathDict [Elem "testcase" {[ "id" := "1" ]}
                         [Elem "file" {[ "path" := "a.c" ]}
                            [Elem "mixed" {[ "line" := "x" ]} []]]]
  = Raise ValueError.
Proof. repeat split; vm_compute; reflexivity. Qed.

(** ** The edge records in the graph *)






